(** * fakeorreal: the game session, the content store and pack codec, the idle watchdog

    A shallow embedding of
    - [src/types.ts] (the records),
    - the game screen component ([GameScreen], in [src/unnamed/part_001]),
    - [src/utils/db.ts] ([CustomContentManager]),
    - [src/components/ReviewScreen.tsx] (the idle timers, the lists and the
      modal),
    - [src/App.tsx] (the start of a game, and the game screen kept mounted
      while it leaves),
    - [src/components/AdminScreen.tsx] (the editor),
    followed by the properties proved about them.

    Conventions.  A React component is a record of its [useState] cells; an
    event handler is a function on that record; the [useEffect] bodies are
    functions that read the state of the render they belong to and write to
    the state being built.  JavaScript numbers that only ever hold integers
    are [Z].  A thrown exception is the [Throws] case of [Result]. *)

From stdpp Require Import gmap strings list fin_maps.
From Stdlib Require Import ZArith Lia Ascii.

Open Scope Z_scope.

(** ** Results of code that can throw *)

Inductive Exn :=
  | TypeError            (* property access on undefined or null *)
  | SyntaxError          (* JSON.parse on a text that is not JSON *)
  | NoItemsToExport      (* Error("No items to export") *)
  | InvalidGamePack      (* Error("Invalid Game Pack: missing data.json or game_data.json") *)
  | CorruptGamePack.     (* Error("Invalid Game Pack: corrupt data format") *)

Inductive Result (A : Type) :=
  | Ok (a : A)
  | Throws (e : Exn).
Arguments Ok {A} a.
Arguments Throws {A} e.

Definition bindR {A B} (r : Result A) (k : A -> Result B) : Result B :=
  match r with
  | Ok a => k a
  | Throws e => Throws e
  end.

(** [x !== null], and the truth value of an object or [null]/[undefined]. *)
Definition nonNull {A} (o : option A) : bool :=
  match o with
  | Some _ => true
  | None => false
  end.

(** ** src/types.ts *)

Inductive MediaType := image | video.

Record MediaItem := mkMediaItem {
  id : string;
  type : MediaType;
  url : string;
  isReal : bool;
  title : string;
  explanation : string;
  tips : list string;
  category : string;
  shortTip : option string;
  aiModel : option string;
  isCustom : option bool
}.

Record UserAnswer := mkUserAnswer {
  itemId : string;
  guessedReal : bool;
  isCorrect : bool;
  timeTaken : Z;
  pointsEarned : Z
}.

Record GameDebugConfig := mkGameDebugConfig {
  initialStreak : option Z;
  forceBonusRound : option bool
}.

(** ** The game screen (GameScreen) *)

Module GameScreen.

Record Props := mkProps {
  items : list MediaItem;
  duration : Z;
  debugConfig : option GameDebugConfig
}.

Inductive Feedback := correct | incorrect.
Inductive BonusResult := success | fail.

(** What the three calls of [Math.random] in [startBonusRound] come to:
    the two indices [Math.floor(Math.random() * length)], taken modulo the
    length, and whether the comparator of [sort] swaps the pair. *)
Record Random := mkRandom {
  pickReal : nat;
  pickAI : nat;
  swapPair : bool
}.

(** The [useState] cells of the component, then two cells of the model:
    [pending], the [setTimeout] callbacks of [handleAnswer] not yet run, each
    with the [currentIndex] its closure captured, oldest first; [ended], the
    argument of the latest call of [onEndGame] (at the first call the parent
    leaves the PLAYING state). *)
Record State := mkState {
  currentIndex : nat;
  timeLeft : Z;
  answers : list UserAnswer;
  feedback : option Feedback;
  isProcessing : bool;
  lastPointsEarned : Z;
  streak : Z;
  score : Z;
  earnedBonus : bool;
  showBonusRound : bool;
  bonusTimer : Z;
  bonusItems : option (MediaItem * MediaItem);
  bonusDisplayItems : list MediaItem;
  bonusResult : option BonusResult;
  bonusFeedbackItem : option MediaItem;
  pending : list nat;
  ended : option (list UserAnswer)
}.

Definition setCurrentIndex (f : nat -> nat) (s : State) : State :=
  mkState (f (currentIndex s)) (timeLeft s) (answers s) (feedback s) (isProcessing s)
    (lastPointsEarned s) (streak s) (score s) (earnedBonus s) (showBonusRound s)
    (bonusTimer s) (bonusItems s) (bonusDisplayItems s) (bonusResult s)
    (bonusFeedbackItem s) (pending s) (ended s).

Definition setTimeLeft (f : Z -> Z) (s : State) : State :=
  mkState (currentIndex s) (f (timeLeft s)) (answers s) (feedback s) (isProcessing s)
    (lastPointsEarned s) (streak s) (score s) (earnedBonus s) (showBonusRound s)
    (bonusTimer s) (bonusItems s) (bonusDisplayItems s) (bonusResult s)
    (bonusFeedbackItem s) (pending s) (ended s).

Definition setAnswers (f : list UserAnswer -> list UserAnswer) (s : State) : State :=
  mkState (currentIndex s) (timeLeft s) (f (answers s)) (feedback s) (isProcessing s)
    (lastPointsEarned s) (streak s) (score s) (earnedBonus s) (showBonusRound s)
    (bonusTimer s) (bonusItems s) (bonusDisplayItems s) (bonusResult s)
    (bonusFeedbackItem s) (pending s) (ended s).

Definition setFeedback (v : option Feedback) (s : State) : State :=
  mkState (currentIndex s) (timeLeft s) (answers s) v (isProcessing s)
    (lastPointsEarned s) (streak s) (score s) (earnedBonus s) (showBonusRound s)
    (bonusTimer s) (bonusItems s) (bonusDisplayItems s) (bonusResult s)
    (bonusFeedbackItem s) (pending s) (ended s).

Definition setIsProcessing (v : bool) (s : State) : State :=
  mkState (currentIndex s) (timeLeft s) (answers s) (feedback s) v
    (lastPointsEarned s) (streak s) (score s) (earnedBonus s) (showBonusRound s)
    (bonusTimer s) (bonusItems s) (bonusDisplayItems s) (bonusResult s)
    (bonusFeedbackItem s) (pending s) (ended s).

Definition setLastPointsEarned (v : Z) (s : State) : State :=
  mkState (currentIndex s) (timeLeft s) (answers s) (feedback s) (isProcessing s)
    v (streak s) (score s) (earnedBonus s) (showBonusRound s)
    (bonusTimer s) (bonusItems s) (bonusDisplayItems s) (bonusResult s)
    (bonusFeedbackItem s) (pending s) (ended s).

Definition setStreak (f : Z -> Z) (s : State) : State :=
  mkState (currentIndex s) (timeLeft s) (answers s) (feedback s) (isProcessing s)
    (lastPointsEarned s) (f (streak s)) (score s) (earnedBonus s) (showBonusRound s)
    (bonusTimer s) (bonusItems s) (bonusDisplayItems s) (bonusResult s)
    (bonusFeedbackItem s) (pending s) (ended s).

Definition setScore (f : Z -> Z) (s : State) : State :=
  mkState (currentIndex s) (timeLeft s) (answers s) (feedback s) (isProcessing s)
    (lastPointsEarned s) (streak s) (f (score s)) (earnedBonus s) (showBonusRound s)
    (bonusTimer s) (bonusItems s) (bonusDisplayItems s) (bonusResult s)
    (bonusFeedbackItem s) (pending s) (ended s).

Definition setEarnedBonus (v : bool) (s : State) : State :=
  mkState (currentIndex s) (timeLeft s) (answers s) (feedback s) (isProcessing s)
    (lastPointsEarned s) (streak s) (score s) v (showBonusRound s)
    (bonusTimer s) (bonusItems s) (bonusDisplayItems s) (bonusResult s)
    (bonusFeedbackItem s) (pending s) (ended s).

Definition setShowBonusRound (v : bool) (s : State) : State :=
  mkState (currentIndex s) (timeLeft s) (answers s) (feedback s) (isProcessing s)
    (lastPointsEarned s) (streak s) (score s) (earnedBonus s) v
    (bonusTimer s) (bonusItems s) (bonusDisplayItems s) (bonusResult s)
    (bonusFeedbackItem s) (pending s) (ended s).

Definition setBonusTimer (f : Z -> Z) (s : State) : State :=
  mkState (currentIndex s) (timeLeft s) (answers s) (feedback s) (isProcessing s)
    (lastPointsEarned s) (streak s) (score s) (earnedBonus s) (showBonusRound s)
    (f (bonusTimer s)) (bonusItems s) (bonusDisplayItems s) (bonusResult s)
    (bonusFeedbackItem s) (pending s) (ended s).

Definition setBonusItems (v : option (MediaItem * MediaItem)) (s : State) : State :=
  mkState (currentIndex s) (timeLeft s) (answers s) (feedback s) (isProcessing s)
    (lastPointsEarned s) (streak s) (score s) (earnedBonus s) (showBonusRound s)
    (bonusTimer s) v (bonusDisplayItems s) (bonusResult s)
    (bonusFeedbackItem s) (pending s) (ended s).

Definition setBonusDisplayItems (v : list MediaItem) (s : State) : State :=
  mkState (currentIndex s) (timeLeft s) (answers s) (feedback s) (isProcessing s)
    (lastPointsEarned s) (streak s) (score s) (earnedBonus s) (showBonusRound s)
    (bonusTimer s) (bonusItems s) v (bonusResult s)
    (bonusFeedbackItem s) (pending s) (ended s).

Definition setBonusResult (v : option BonusResult) (s : State) : State :=
  mkState (currentIndex s) (timeLeft s) (answers s) (feedback s) (isProcessing s)
    (lastPointsEarned s) (streak s) (score s) (earnedBonus s) (showBonusRound s)
    (bonusTimer s) (bonusItems s) (bonusDisplayItems s) v
    (bonusFeedbackItem s) (pending s) (ended s).

Definition setBonusFeedbackItem (v : option MediaItem) (s : State) : State :=
  mkState (currentIndex s) (timeLeft s) (answers s) (feedback s) (isProcessing s)
    (lastPointsEarned s) (streak s) (score s) (earnedBonus s) (showBonusRound s)
    (bonusTimer s) (bonusItems s) (bonusDisplayItems s) (bonusResult s)
    v (pending s) (ended s).

Definition setPending (f : list nat -> list nat) (s : State) : State :=
  mkState (currentIndex s) (timeLeft s) (answers s) (feedback s) (isProcessing s)
    (lastPointsEarned s) (streak s) (score s) (earnedBonus s) (showBonusRound s)
    (bonusTimer s) (bonusItems s) (bonusDisplayItems s) (bonusResult s)
    (bonusFeedbackItem s) (f (pending s)) (ended s).

(** [onEndGame(answers)]: the callback of the parent. *)
Definition onEndGame (log : list UserAnswer) (s : State) : State :=
  mkState (currentIndex s) (timeLeft s) (answers s) (feedback s) (isProcessing s)
    (lastPointsEarned s) (streak s) (score s) (earnedBonus s) (showBonusRound s)
    (bonusTimer s) (bonusItems s) (bonusDisplayItems s) (bonusResult s)
    (bonusFeedbackItem s) (pending s) (Some log).

Definition BASE_POINTS : Z := 100.
Definition BONUS_POINTS : Z := 1000.
Definition STREAK_THRESHOLD : Z := 3.
Definition MEGA_STREAK_THRESHOLD : Z := 7.
Definition BONUS_ROUND_QUALIFIER : Z := 5.

(** [items[currentIndex]] *)
Definition currentItem (p : Props) (s : State) : option MediaItem :=
  items p !! currentIndex s.

(** The state of the first render: the initial values of the [useState]
    calls.  [debugConfig?.initialStreak || 0]. *)
Definition initialState (p : Props) : State :=
  {| currentIndex := 0%nat;
     timeLeft := duration p;
     answers := [];
     feedback := None;
     isProcessing := false;
     lastPointsEarned := 0;
     streak := match debugConfig p with
               | Some c => match initialStreak c with Some n => n | None => 0 end
               | None => 0
               end;
     score := 0;
     earnedBonus := false;
     showBonusRound := false;
     bonusTimer := 10;
     bonusItems := None;
     bonusDisplayItems := [];
     bonusResult := None;
     bonusFeedbackItem := None;
     pending := [];
     ended := None |}.

(** The multiplier of [handleAnswer] for the streak after the increment. *)
Definition multiplier (newStreak : Z) : Z :=
  if MEGA_STREAK_THRESHOLD <=? newStreak then 4
  else if STREAK_THRESHOLD <=? newStreak then 2
  else 1.

(** [handleAnswer(guessedReal)].  The closure reads [isProcessing],
    [currentItem], [streak], [answers] and [currentIndex] of the render it was
    made in; [setScore], [setStreak] take updater functions.  The call of
    [setTimeout] adds its callback to [pending]. *)
Definition handleAnswer (p : Props) (guessedReal : bool) (s : State) : Result State :=
  if isProcessing s then Ok s
  else
    match currentItem p s with
    | None => Throws TypeError
    | Some item =>
        let isCorrect := Bool.eqb guessedReal (isReal item) in
        let newStreak := streak s + 1 in
        let points := if isCorrect then BASE_POINTS * multiplier newStreak else 0 in
        let s1 := setIsProcessing true s in
        let s2 :=
          if isCorrect then
            setLastPointsEarned points
              (setStreak (fun _ => newStreak) (setScore (fun prev => prev + points) s1))
          else
            setLastPointsEarned 0 (setStreak (fun _ => 0) s1) in
        let newAnswer :=
          {| itemId := id item; guessedReal := guessedReal; isCorrect := isCorrect;
             timeTaken := 0; pointsEarned := points |} in
        let updatedAnswers := answers s ++ [newAnswer] in
        let s3 := setFeedback (Some (if isCorrect then correct else incorrect))
                    (setAnswers (fun _ => updatedAnswers) s2) in
        Ok (setPending (fun q => q ++ [currentIndex s]) s3)
    end.


(** [startBonusRound()], called from the timer effect of the render [snap];
    [items] is a prop, [answers] is read from the closure. *)
Definition startBonusRound (p : Props) (rnd : Random) (snap acc : State) : State :=
  let availableReal := List.filter (fun i => isReal i) (items p) in
  let availableAI := List.filter (fun i => negb (isReal i)) (items p) in
  let real :=
    if (0 <? length availableReal)%nat
    then availableReal !! (pickReal rnd mod length availableReal)%nat
    else items p !! 0%nat in
  let ai :=
    if (0 <? length availableAI)%nat
    then availableAI !! (pickAI rnd mod length availableAI)%nat
    else items p !! 0%nat in
  match real, ai with
  | Some real, Some ai =>
      setShowBonusRound true
        (setBonusTimer (fun _ => 10)
          (setBonusDisplayItems (if swapPair rnd then [ai; real] else [real; ai])
            (setBonusFeedbackItem None
              (setBonusItems (Some (real, ai)) acc))))
  | _, _ => onEndGame (answers snap) acc
  end.

(** [handleBonusResult(result, bonusAnswer?)] *)
Definition handleBonusResult (result : BonusResult) (bonusAnswer : option UserAnswer)
    (acc : State) : State :=
  let s1 := setBonusResult (Some result) acc in
  let s2 := match result with
            | success => setScore (fun prev => prev + BONUS_POINTS) s1
            | fail => s1
            end in
  match bonusAnswer with
  | Some a => setAnswers (fun prev => prev ++ [a]) s2
  | None => s2
  end.

(** [handleBonusAnswer(selectedItem)] *)
Definition handleBonusAnswer (selectedItem : MediaItem) (s : State) : State :=
  match bonusResult s with
  | Some _ => s
  | None =>
      let s1 := setBonusFeedbackItem (Some selectedItem) s in
      let isCorrect := negb (isReal selectedItem) in
      let bonusAnswer :=
        {| itemId := id selectedItem; guessedReal := false; isCorrect := isCorrect;
           timeTaken := 0; pointsEarned := if isCorrect then BONUS_POINTS else 0 |} in
      if isCorrect then handleBonusResult success (Some bonusAnswer) s1
      else handleBonusResult fail (Some bonusAnswer) s1
  end.

(** The callback [handleAnswer] hands to [setTimeout(.., 1800)]; [idx] is the
    [currentIndex] its closure captured, [items.length] is a prop. *)
Definition answerTimeout (p : Props) (idx : nat) (s : State) : State :=
  let s1 := setIsProcessing false (setFeedback None s) in
  if Z.of_nat idx <? Z.of_nat (length (items p)) - 1
  then setCurrentIndex (fun prev => S prev) s1
  else setTimeLeft (fun _ => 0) s1.

(** *** The effects

    Each takes the state [snap] of the render whose closure it is and the
    state [acc] that the setters called so far in this commit have built. *)

(** [useEffect(.., [streak, earnedBonus])] *)
Definition effect_streak (snap acc : State) : State :=
  if BONUS_ROUND_QUALIFIER <=? streak snap then setEarnedBonus true acc else acc.

(** [useEffect(.., [debugConfig])]: runs after the first render. *)
Definition effect_debug (p : Props) (acc : State) : State :=
  match debugConfig p with
  | Some c => match forceBonusRound c with
              | Some true => setEarnedBonus true acc
              | _ => acc
              end
  | None => acc
  end.

(** [useEffect(.., [timeLeft, onEndGame, answers, showBonusRound, earnedBonus,
    bonusResult])]: the main clock.  With time left it only arms the
    one-second interval, whose callback is the event [TimerTick] below. *)
Definition effect_timer (p : Props) (rnd : Random) (snap acc : State) : State :=
  if showBonusRound snap then acc
  else if timeLeft snap <=? 0 then
    if earnedBonus snap && negb (showBonusRound snap)
       && negb (nonNull (bonusResult snap))
    then startBonusRound p rnd snap acc
    else if negb (showBonusRound snap) then onEndGame (answers snap) acc
    else acc
  else acc.

(** [useEffect(.., [showBonusRound, bonusTimer, bonusResult])]: the bonus
    clock; its interval callback is the event [BonusTick]. *)
Definition effect_bonusTimer (snap acc : State) : State :=
  if negb (showBonusRound snap) || nonNull (bonusResult snap) then acc
  else if bonusTimer snap <=? 0 then handleBonusResult fail None acc
  else acc.

(** One commit: the effects of a render, in the order of the source.  A
    session, as [run] below has it, goes up to the first call of [onEndGame]:
    from there on [runEffects] and [step] leave the state as it is.  Up to
    that call the setters an effect calls cause one more render, whose own
    commit changes nothing ([runEffects_idempotent]), so one commit per event
    is the whole story.  What the screen does after the call, while [App]
    still shows it, is in [LiveScreen]. *)
Definition runEffects (p : Props) (rnd : Random) (s : State) : State :=
  match ended s with
  | Some _ => s
  | None => effect_bonusTimer s (effect_timer p rnd s (effect_streak s s))
  end.

(** The JSX of the standard layout reads [currentItem.id]: rendering a state
    without a current item outside the bonus layout throws. *)
Definition renders (p : Props) (s : State) : bool :=
  showBonusRound s || nonNull (currentItem p s).

(** The first render and the effects after it; the commit of the re-render
    they cause changes nothing ([mount_quiescent]). *)
Definition mount (p : Props) (rnd : Random) : Result State :=
  let s0 := initialState p in
  if renders p s0 then
    Ok (effect_bonusTimer s0 (effect_timer p rnd s0 (effect_debug p (effect_streak s0 s0))))
  else Throws TypeError.

(** *** Events

    What can call into the component after it is mounted: the REAL and AI
    buttons (rendered only outside the bonus layout, disabled while
    [isProcessing]), the tick of the main interval, the oldest pending
    [setTimeout] callback, the tick of the bonus interval, the button of the
    [k]-th displayed bonus item (rendered in the bonus layout, disabled once
    a result is shown) and the NEXT button (rendered once a result is
    shown). *)
Inductive Event :=
  | ClickAnswer (guessedReal : bool)
  | TimerTick
  | AnswerTimeout
  | BonusTick
  | ClickBonus (k : nat)
  | ClickNext.

Definition handle (p : Props) (ev : Event) (s : State) : Result State :=
  match ev with
  | ClickAnswer g =>
      if showBonusRound s || isProcessing s then Ok s else handleAnswer p g s
  | TimerTick =>
      if negb (showBonusRound s) && (0 <? timeLeft s)
      then Ok (setTimeLeft (fun prev => prev - 1) s) else Ok s
  | AnswerTimeout =>
      match pending s with
      | [] => Ok s
      | idx :: rest => Ok (answerTimeout p idx (setPending (fun _ => rest) s))
      end
  | BonusTick =>
      if showBonusRound s && negb (nonNull (bonusResult s))
         && (0 <? bonusTimer s)
      then Ok (setBonusTimer (fun prev => prev - 1) s) else Ok s
  | ClickBonus k =>
      if showBonusRound s && negb (nonNull (bonusResult s)) then
        match bonusDisplayItems s !! k with
        | Some item => Ok (handleBonusAnswer item s)
        | None => Ok s
        end
      else Ok s
  | ClickNext =>
      if showBonusRound s && nonNull (bonusResult s)
      then Ok (onEndGame (answers s) s) else Ok s
  end.

(** An event: the handler, the render of the new state, its effects; no
    event is looked at once [onEndGame] has been called. *)
Definition step (p : Props) (ev : Event) (rnd : Random) (s : State) : Result State :=
  match ended s with
  | Some _ => Ok s
  | None =>
      bindR (handle p ev s) (fun s' =>
        if renders p s' then Ok (runEffects p rnd s') else Throws TypeError)
  end.

(** A session: mounting, then the events in order, up to the first call of
    [onEndGame]. *)
Definition run (p : Props) (rnd0 : Random) (evs : list (Event * Random)) : Result State :=
  foldl (fun r e => bindR r (step p e.1 e.2)) (mount p rnd0) evs.

(** The score the results and review screens show:
    [answers.reduce((sum, a) => sum + (a.pointsEarned || 0), 0)]. *)
Definition totalScore (log : list UserAnswer) : Z :=
  foldl (fun sum a => sum + (if pointsEarned a =? 0 then 0 else pointsEarned a)) 0 log.

End GameScreen.

(** ** The game screen for as long as it is mounted (App.tsx, GameScreen)

    [App] renders its screens inside [<AnimatePresence mode="wait">], each
    with an exit transition of 0.3 s.  When [onEndGame] has made [App] leave
    the PLAYING state, the game screen stays mounted, with the props of its
    last render, until that transition is over: its buttons are there and
    enabled as before, its timers and effects run, and a further call of
    [onEndGame] reaches [handleEndGame] of [App] again, which takes the log
    it is given.  The runs below do not stop at the first call of
    [onEndGame]; they are the runs of the screen from its first render to
    any moment at which it is still mounted. *)

Module LiveScreen.
Import GameScreen.

(** One commit: the effects of a render, in the order of the source. *)
Definition commit (p : Props) (rnd : Random) (s : State) : State :=
  effect_bonusTimer s (effect_timer p rnd s (effect_streak s s)).

(** What happens to a mounted screen: an event of [GameScreen], or the
    render that the setters called by the effects of a commit cause.  That
    render follows the commit at once; here it may come at any time and any
    number of times, which leaves every run of the source among the runs
    below. *)
Inductive Event :=
  | Fire (ev : GameScreen.Event)
  | Rerender.

(** An event: the handler, the render of the new state, its effects. *)
Definition step (p : Props) (ev : Event) (rnd : Random) (s : State) : Result State :=
  match ev with
  | Fire ev =>
      bindR (handle p ev s) (fun s' =>
        if renders p s' then Ok (commit p rnd s') else Throws TypeError)
  | Rerender => if renders p s then Ok (commit p rnd s) else Throws TypeError
  end.

(** Mounting, then the events in order. *)
Definition run (p : Props) (rnd0 : Random) (evs : list (Event * Random)) : Result State :=
  foldl (fun r e => bindR r (step p e.1 e.2)) (mount p rnd0) evs.

(** Whether [onEndGame] was called before the last of the events [evs]. *)
Definition endedBefore (p : Props) (rnd0 : Random) (evs : list (Event * Random)) : bool :=
  match evs with
  | [] => false
  | _ =>
      match run p rnd0 (removelast evs) with
      | Ok s => nonNull (ended s)
      | Throws _ => false
      end
  end.

(** The events of [GameScreen] among [evs]. *)
Definition fired (evs : list (Event * Random)) : list (GameScreen.Event * Random) :=
  omap (fun e => match e.1 with Fire ev => Some (ev, e.2) | Rerender => None end) evs.

End LiveScreen.

(** ** src/utils/db.ts (CustomContentManager) *)

Module Db.

(** *** The JavaScript string methods the file uses

    Strings are sequences of bytes; [trim] and [toLowerCase] are given on
    ASCII, which is what MIME types are made of: on a string with other
    characters the methods of JavaScript also strip the white space of
    Unicode and lower its capitals, and what is proved of [trim] and
    [toLowerCase] below is for strings with [isAscii]. *)

Fixpoint isAscii (s : string) : bool :=
  match s with
  | EmptyString => true
  | String c s' => (Ascii.nat_of_ascii c <? 128)%nat && isAscii s'
  end.

Definition startsWith (s prefix : string) : bool := String.prefix prefix s.

(** [s.split(';')[0]] *)
Fixpoint beforeSemicolon (s : string) : string :=
  match s with
  | EmptyString => EmptyString
  | String c s' => if Ascii.eqb c (";")%char then EmptyString else String c (beforeSemicolon s')
  end.

Definition isSpace (c : Ascii.ascii) : bool :=
  let n := Ascii.nat_of_ascii c in
  ((9 <=? n) && (n <=? 13) || (n =? 32))%nat.

Fixpoint trimStart (s : string) : string :=
  match s with
  | EmptyString => EmptyString
  | String c s' => if isSpace c then trimStart s' else s
  end.

Definition trim (s : string) : string :=
  String.rev (trimStart (String.rev (trimStart s))).

Definition lowerChar (c : Ascii.ascii) : Ascii.ascii :=
  let n := Ascii.nat_of_ascii c in
  if ((65 <=? n) && (n <=? 90))%nat then Ascii.ascii_of_nat (n + 32) else c.

Fixpoint toLowerCase (s : string) : string :=
  match s with
  | EmptyString => EmptyString
  | String c s' => String (lowerChar c) (toLowerCase s')
  end.

Fixpoint includes (s needle : string) : bool :=
  String.prefix needle s ||
  match s with
  | EmptyString => false
  | String _ s' => includes s' needle
  end.

(** *** MIME type helpers *)

(** The keys in lower case that every object inherits from
    [Object.prototype]. *)
Definition inheritedKey (k : string) : bool :=
  String.eqb k "constructor" || String.eqb k "__proto__".

(** [MIME_TO_EXT[cleanMime]], for a [cleanMime] that is no [inheritedKey].
    The object literal answers to the keys it inherits as well, with what
    [Object.prototype] holds, a function or an object and no extension;
    these keys hold no [/] and are not the type of any blob. *)
Definition MIME_TO_EXT (mime : string) : option string :=
  if String.eqb mime "image/jpeg" then Some "jpg"
  else if String.eqb mime "image/jpg" then Some "jpg"
  else if String.eqb mime "image/png" then Some "png"
  else if String.eqb mime "image/gif" then Some "gif"
  else if String.eqb mime "image/webp" then Some "webp"
  else if String.eqb mime "video/mp4" then Some "mp4"
  else if String.eqb mime "video/webm" then Some "webm"
  else None.

Definition typeDefault (itemType : MediaType) : string :=
  match itemType with
  | video => "mp4"
  | image => "jpg"
  end.

(** [getExtension(mimeType, url, itemType)]; a [null] or empty [mimeType] is
    falsy. *)
Definition getExtension (mimeType : option string) (url : string) (itemType : MediaType)
    : string :=
  match mimeType with
  | None => typeDefault itemType
  | Some "" => typeDefault itemType
  | Some mimeType =>
      let cleanMime := toLowerCase (trim (beforeSemicolon mimeType)) in
      match MIME_TO_EXT cleanMime with
      | Some ext => ext
      | None =>
          if includes cleanMime "jpeg" || includes cleanMime "jpg" then "jpg"
          else if includes cleanMime "png" then "png"
          else if includes cleanMime "mp4" then "mp4"
          else typeDefault itemType
      end
  end.

(** *** Files, blobs and archives

    The payload of a file or blob is either uninterpreted bytes or the text
    of a JSON document.  A JSON text is identified with what [JSON.parse]
    makes of it, as far as this file looks at the result; [JSON.stringify]
    followed by [JSON.parse] gives the value back.  [JSON.parse] throws on
    everything else.

    The elements of [items] are items of the type of types.ts, or they are
    so up to an element of which [importGamePack] cannot read
    [item.url.startsWith] ([JItemsIllTyped]).  An array with an element that
    has a string [url] and is no item otherwise (no [id], no [tips], ...) is
    not among the values below: such an element would be stored as it is,
    and the store here holds items only. *)

Record Manifest := mkManifest {
  version : Z;
  timestamp : string;
  items : list MediaItem
}.

Inductive Json :=
  | JNull                      (* [null]: reading a property of it throws *)
  | JNoItems                   (* a value whose [items] is absent or falsy *)
  | JItemsNotArray             (* [items] is truthy and not an array *)
  | JManifest (m : Manifest)   (* [{ version, timestamp, items: [...] }] *)
  | JItemsIllTyped (before : list MediaItem).
      (* [items] is an array whose elements are items up to one that is
         [null], is not an object or has no string [url]: [before] are the
         items in front of that element *)

Inductive Payload :=
  | Binary (bytes : list Byte.byte)
  | JsonText (doc : Json).

Definition JSON_parse (text : Payload) : Result Json :=
  match text with
  | Binary _ => Throws SyntaxError
  | JsonText doc => Ok doc
  end.

Record Blob := mkBlob {
  blob_type : string;
  blob_data : Payload
}.

(** An entry of a JSZip archive, by its full name. *)
Inductive ZipObject :=
  | Folder
  | File (data : Payload).

(** [zip.folder(name)] *)
Definition zip_folder (name : string) (zip : gmap string ZipObject) : gmap string ZipObject :=
  match zip !! (name +:+ "/") with
  | Some _ => zip
  | None => <[name +:+ "/" := Folder]> zip
  end.

(** [zip.file(name, data)] *)
Definition zip_add (name : string) (data : Payload) (zip : gmap string ZipObject)
    : gmap string ZipObject :=
  <[name := File data]> zip.

(** [zip.file(name)]: the entry of that name if it is a file, else [null]. *)
Definition zip_file (name : string) (zip : gmap string ZipObject) : option Payload :=
  match zip !! name with
  | Some (File data) => Some data
  | _ => None
  end.

(** A JavaScript [Map] with string keys: entries in insertion order; [set]
    on a key already there replaces the value in place. *)
Fixpoint Map_set {V} (k : string) (v : V) (m : list (string * V)) : list (string * V) :=
  match m with
  | [] => [(k, v)]
  | (k', v') :: m' =>
      if String.eqb k k' then (k, v) :: m' else (k', v') :: Map_set k v m'
  end.

Definition Map_values {V} (m : list (string * V)) : list V := m.*2.

(** *** The store

    The object store [custom_media] of IndexedDB has key path [id]: a map
    from the [id] of a record to the record.  [store.getAll()] lists the
    records (in key order; the list below is in the order of the map, and
    nothing here depends on the order). *)

Definition setIsCustom (item : MediaItem) : MediaItem :=
  {| id := id item; type := type item; url := url item; isReal := isReal item;
     title := title item; explanation := explanation item; tips := tips item;
     category := category item; shortTip := shortTip item; aiModel := aiModel item;
     isCustom := Some true |}.

Definition setUrl (u : string) (item : MediaItem) : MediaItem :=
  {| id := id item; type := type item; url := u; isReal := isReal item;
     title := title item; explanation := explanation item; tips := tips item;
     category := category item; shortTip := shortTip item; aiModel := aiModel item;
     isCustom := isCustom item |}.

(** [saveItem(item)]: [store.put({ ...item, isCustom: true })] *)
Definition saveItem (item : MediaItem) (db : gmap string MediaItem) : gmap string MediaItem :=
  <[id item := setIsCustom item]> db.

(** [deleteItem(id)] *)
Definition deleteItem (k : string) (db : gmap string MediaItem) : gmap string MediaItem :=
  delete k db.

(** [loadLocalConfig()].  [local] is the answer to [fetch('/game_data.json')]:
    [None] when the fetch fails or the response is not ok, else the body.
    Every failure, the one of [response.json()] and the TypeError on a
    [null] body included, is caught and gives the empty list.  The bundled
    manifest is the one the application ships with, a list of items; of a
    bundled manifest with an element that is no item ([JItemsIllTyped]) the
    source lists every element as it is, which no list of items does: the
    list is left empty for it here, and nothing below is about that case. *)
Definition loadLocalConfig (local : option Payload) : list MediaItem :=
  match local with
  | None => []
  | Some body =>
      match JSON_parse body with
      | Ok (JManifest data) => map setIsCustom (items data)
      | _ => []
      end
  end.

(** [getAllItems()] *)
Definition getAllItems (db : gmap string MediaItem) (local : option Payload)
    : list MediaItem :=
  let dbItems := (map_to_list db).*2 in
  let localItems := loadLocalConfig local in
  let itemMap := foldl (fun m item => Map_set (id item) item m) [] localItems in
  let itemMap := foldl (fun m item => Map_set (id item) item m) itemMap dbItems in
  Map_values itemMap.

(** What [exportGamePack] hands to the browser: the file name and the
    archive behind the object URL of the anchor it clicks.  An archive is
    the map of its entries: what [zip.generateAsync] writes,
    [JSZip.loadAsync] reads back entry for entry. *)
Record Download := mkDownload {
  download : string;
  content : gmap string ZipObject
}.

Section Browser.

(** [fetch(url)] followed by [res.blob()]: [None] when either throws. *)
Variable fetch : string -> option Blob.

(** [new Date().toISOString()] *)
Variable now : string.

(** [FileReader.readAsDataURL(blob)] *)
Variable readAsDataURL : Blob -> string.

(** The blob [exportGamePack] gets for an item: fetched for a data URL and
    for a path under [media/], none for any other URL. *)
Definition fetchMedia (item : MediaItem) : option Blob :=
  if startsWith (url item) "data:" then fetch (url item)
  else if startsWith (url item) "media/" then fetch (url item)
  else None.

(** The body of the loop of [exportGamePack] over [allItems]; the state is
    the archive and [processedItems]. *)
Definition exportItem (acc : gmap string ZipObject * list MediaItem) (item : MediaItem)
    : gmap string ZipObject * list MediaItem :=
  let '(zip, processedItems) := acc in
  match fetchMedia item with
  | Some blob =>
      let ext := getExtension (Some (blob_type blob)) (url item) (type item) in
      let filename := id item +:+ "." +:+ ext in
      (zip_add ("media/" +:+ filename) (blob_data blob) zip,
       processedItems ++ [setUrl ("media/" +:+ filename) item])
  | None => (zip, processedItems ++ [item])
  end.

(** [exportGamePack()] *)
Definition exportGamePack (db : gmap string MediaItem) (local : option Payload)
    : Result Download :=
  let allItems := getAllItems db local in
  if (length allItems =? 0)%nat then Throws NoItemsToExport
  else
    let zip := zip_folder "media" ∅ in
    let '(zip, processedItems) := foldl exportItem (zip, []) allItems in
    let exportData := {| version := 1; timestamp := now; items := processedItems |} in
    let jsonStr := JsonText (JManifest exportData) in
    let zip := zip_add "game_data.json" jsonStr zip in
    let zip := zip_add "data.json" jsonStr zip in
    Ok {| download := "real-or-ai-pack-" +:+ String.substring 0 10 now +:+ ".zip";
          content := zip |}.

(** The body of the loop of [importGamePack] over [manifest.items]; the
    state is the store and [count]. *)
Definition importItem (zip : gmap string ZipObject)
    (acc : gmap string MediaItem * nat) (item : MediaItem) : gmap string MediaItem * nat :=
  let '(db, count) := acc in
  if startsWith (url item) "media/" then
    match zip_file (url item) zip with
    | Some data =>
        let dataUrl := readAsDataURL {| blob_type := ""; blob_data := data |} in
        (saveItem (setUrl dataUrl item) db, S count)
    | None => (db, count)
    end
  else if startsWith (url item) "data:" then (saveItem item db, S count)
  else (db, count).

(** [zip.file("data.json")], and [zip.file("game_data.json")] if that is
    [null]. *)
Definition manifestFile (zip : gmap string ZipObject) : option Payload :=
  match zip_file "data.json" zip with
  | Some f => Some f
  | None => zip_file "game_data.json" zip
  end.

(** A call of [importGamePack(file)], on the archive [JSZip.loadAsync(file)]
    gives: the store when the call ends, and how it ends, with the count
    returned or with the exception thrown (the [catch] of the source logs it
    and throws it again).  The exceptions of the checks come before the
    first write.  The loop has no check of its own: on an element of which
    [item.url.startsWith] cannot be read it throws a TypeError, after the
    items in front of that element went through the loop, and what they
    wrote stays in the store. *)
Definition importRun (zip : gmap string ZipObject) (db : gmap string MediaItem)
    : gmap string MediaItem * Result nat :=
  match manifestFile zip with
  | None => (db, Throws InvalidGamePack)
  | Some manifestStr =>
      match JSON_parse manifestStr with
      | Throws e => (db, Throws e)
      | Ok JNull => (db, Throws TypeError)
      | Ok JNoItems | Ok JItemsNotArray => (db, Throws CorruptGamePack)
      | Ok (JManifest m) =>
          let '(db', count) := foldl (importItem zip) (db, 0%nat) (items m) in
          (db', Ok count)
      | Ok (JItemsIllTyped before) =>
          let '(db', _) := foldl (importItem zip) (db, 0%nat) before in
          (db', Throws TypeError)
      end
  end.

(** [importGamePack(file)] as its caller sees it: the exception, or the
    count returned together with the store the import leaves. *)
Definition importGamePack (zip : gmap string ZipObject) (db : gmap string MediaItem)
    : Result (gmap string MediaItem * nat) :=
  let '(db', outcome) := importRun zip db in
  bindR outcome (fun count => Ok (db', count)).

End Browser.

End Db.

(** ** The idle timers of the review screen (ReviewScreen) *)

Module ReviewScreen.

Definition IDLE_TIMEOUT : Z := 60000.
Definition COUNTDOWN_DURATION : Z := 15000.

(** The two functions handed to [window.setTimeout] by [startIdleTimer]. *)
Inductive Callback :=
  | IdleCallback      (* the outer one: shows the warning, starts the countdown *)
  | ResetCallback.    (* the inner one: calls [onBackToHome] *)

(** A pending timeout of the window. *)
Record Timer := mkTimer {
  timerId : nat;
  due : Z;
  callback : Callback
}.

(** The state cell, the refs and the closure variable [lastRun] of the
    component, then the window: its clock in milliseconds ([Date.now()]),
    its pending timeouts, the id its next [setTimeout] returns; last, the
    number of calls of [onBackToHome] so far. *)
Record State := mkState {
  showIdleWarning : bool;
  isWarningVisibleRef : bool;
  idleTimerRef : option nat;
  resetTimerRef : option nat;
  lastRun : Z;
  clock : Z;
  timers : list Timer;
  nextTimerId : nat;
  backToHome : nat
}.

Definition setShowIdleWarning (v : bool) (s : State) : State :=
  mkState v (isWarningVisibleRef s) (idleTimerRef s) (resetTimerRef s) (lastRun s)
    (clock s) (timers s) (nextTimerId s) (backToHome s).

Definition setIsWarningVisibleRef (v : bool) (s : State) : State :=
  mkState (showIdleWarning s) v (idleTimerRef s) (resetTimerRef s) (lastRun s)
    (clock s) (timers s) (nextTimerId s) (backToHome s).

Definition setIdleTimerRef (v : option nat) (s : State) : State :=
  mkState (showIdleWarning s) (isWarningVisibleRef s) v (resetTimerRef s) (lastRun s)
    (clock s) (timers s) (nextTimerId s) (backToHome s).

Definition setResetTimerRef (v : option nat) (s : State) : State :=
  mkState (showIdleWarning s) (isWarningVisibleRef s) (idleTimerRef s) v (lastRun s)
    (clock s) (timers s) (nextTimerId s) (backToHome s).

Definition setLastRun (v : Z) (s : State) : State :=
  mkState (showIdleWarning s) (isWarningVisibleRef s) (idleTimerRef s) (resetTimerRef s) v
    (clock s) (timers s) (nextTimerId s) (backToHome s).

Definition setClock (v : Z) (s : State) : State :=
  mkState (showIdleWarning s) (isWarningVisibleRef s) (idleTimerRef s) (resetTimerRef s)
    (lastRun s) v (timers s) (nextTimerId s) (backToHome s).

Definition setTimers (v : list Timer) (s : State) : State :=
  mkState (showIdleWarning s) (isWarningVisibleRef s) (idleTimerRef s) (resetTimerRef s)
    (lastRun s) (clock s) v (nextTimerId s) (backToHome s).

Definition setNextTimerId (v : nat) (s : State) : State :=
  mkState (showIdleWarning s) (isWarningVisibleRef s) (idleTimerRef s) (resetTimerRef s)
    (lastRun s) (clock s) (timers s) v (backToHome s).

(** [onBackToHome()] *)
Definition onBackToHome (s : State) : State :=
  mkState (showIdleWarning s) (isWarningVisibleRef s) (idleTimerRef s) (resetTimerRef s)
    (lastRun s) (clock s) (timers s) (nextTimerId s) (S (backToHome s)).

(** [window.setTimeout(cb, delay)]: the id returned and the new state. *)
Definition setTimeout (cb : Callback) (delay : Z) (s : State) : nat * State :=
  let tid := nextTimerId s in
  (tid, setNextTimerId (S tid)
          (setTimers (timers s ++ [mkTimer tid (clock s + delay) cb]) s)).

(** [window.clearTimeout(id)] *)
Definition clearTimeout (tid : nat) (s : State) : State :=
  setTimers (List.filter (fun t => negb (timerId t =? tid)%nat) (timers s)) s.

(** [if (ref.current) window.clearTimeout(ref.current)]: [null] and the
    number 0 are falsy. *)
Definition clearIfSet (ref : option nat) (s : State) : State :=
  match ref with
  | Some tid => if (tid =? 0)%nat then s else clearTimeout tid s
  | None => s
  end.

(** [startIdleTimer()] *)
Definition startIdleTimer (s : State) : State :=
  let s1 := clearIfSet (idleTimerRef s) s in
  let s2 := clearIfSet (resetTimerRef s1) s1 in
  let '(tid, s3) := setTimeout IdleCallback IDLE_TIMEOUT s2 in
  setIdleTimerRef (Some tid) s3.

(** What a timeout runs when it fires. *)
Definition runCallback (cb : Callback) (s : State) : State :=
  match cb with
  | IdleCallback =>
      let s1 := setShowIdleWarning true s in
      let '(tid, s2) := setTimeout ResetCallback COUNTDOWN_DURATION s1 in
      setResetTimerRef (Some tid) s2
  | ResetCallback => onBackToHome s
  end.

(** [handleUserActivity()] *)
Definition handleUserActivity (s : State) : State :=
  if isWarningVisibleRef s then s else startIdleTimer s.

(** [handleResumeGame()] *)
Definition handleResumeGame (s : State) : State :=
  startIdleTimer (setShowIdleWarning false s).

(** [throttledHandler()], the listener of the activity events *)
Definition throttledHandler (s : State) : State :=
  let now := clock s in
  if 1000 <? now - lastRun s then setLastRun now (handleUserActivity s) else s.

(** [useEffect(.., [showIdleWarning])]: after a render, the ref follows the
    state cell. *)
Definition commit (s : State) : State :=
  setIsWarningVisibleRef (showIdleWarning s) s.

(** The first render and its effects, in a window whose clock is at [t0]
    and whose timeouts so far had ids below [tid0]: [lastRun = 0], then the
    "initial start". *)
Definition mount (t0 : Z) (tid0 : nat) : State :=
  commit (startIdleTimer
    {| showIdleWarning := false; isWarningVisibleRef := false;
       idleTimerRef := None; resetTimerRef := None; lastRun := 0;
       clock := t0; timers := []; nextTimerId := tid0; backToHome := 0 |}).

(** The cleanup of the effect, on unmount. *)
Definition unmount (s : State) : State :=
  clearIfSet (resetTimerRef s) (clearIfSet (idleTimerRef s) s).

(** *** The passing of time *)

(** The pending timeout that fires next: the least [due], the oldest among
    equals. *)
Fixpoint earliest (l : list Timer) : option Timer :=
  match l with
  | [] => None
  | t :: l' =>
      match earliest l' with
      | Some t' => if due t <=? due t' then Some t else Some t'
      | None => Some t
      end
  end.

(** Firing costs an idle timeout 2 and a reset timeout 1: the idle callback
    starts a reset timeout, the reset callback starts nothing. *)
Definition weight (l : list Timer) : nat :=
  foldr (fun t n => (match callback t with IdleCallback => 2 | ResetCallback => 1 end + n)%nat)
    0%nat l.

(** Run, in order, the timeouts due by [target]; each firing is followed by
    the render it causes. *)
Fixpoint runTimers (fuel : nat) (target : Z) (s : State) : State :=
  match fuel with
  | O => s
  | S fuel' =>
      match earliest (timers s) with
      | Some t =>
          if due t <=? target then
            let s1 := clearTimeout (timerId t) (setClock (Z.max (clock s) (due t)) s) in
            runTimers fuel' target (commit (runCallback (callback t) s1))
          else s
      | None => s
      end
  end.

(** [dt] milliseconds pass.  The weight of the pending timeouts is fuel
    enough for those that fire, the one a firing starts included
    ([advance_complete]). *)
Definition advance (dt : Z) (s : State) : State :=
  let target := clock s + dt in
  let s' := runTimers (weight (timers s)) target s in
  setClock (Z.max (clock s') target) s'.

(** *** Events

    An activity event on the window, a click on the button of the warning
    (rendered only while [showIdleWarning]), time passing. *)
Inductive Event :=
  | Activity
  | Resume
  | Wait (dt : Z).

Definition step (s : State) (ev : Event) : State :=
  match ev with
  | Activity => commit (throttledHandler s)
  | Resume => if showIdleWarning s then commit (handleResumeGame s) else s
  | Wait dt => advance dt s
  end.

Definition run (t0 : Z) (tid0 : nat) (evs : list Event) : State :=
  foldl step (mount t0 tid0) evs.

End ReviewScreen.

(** ** Sample data *)

Module Samples.
Import GameScreen.

Definition photo (i : string) (real : bool) : MediaItem :=
  {| id := i; type := image; url := "data:image/png;base64,iVBORw0KGgo=";
     isReal := real; title := "Photo " +:+ i; explanation := "";
     tips := []; category := "Portrait Photography";
     shortTip := None; aiModel := None; isCustom := Some true |}.

Definition rnd0 : Random := {| pickReal := 0; pickAI := 0; swapPair := false |}.

(** A pool of five authentic photos and nothing else. *)
Definition allReal : Props :=
  {| items := [photo "a" true; photo "b" true; photo "c" true; photo "d" true;
               photo "e" true];
     duration := 30; debugConfig := None |}.

(** The scenario of the specification: A authentic, B not, C authentic. *)
Definition abc : Props :=
  {| items := [photo "A" true; photo "B" false; photo "C" true];
     duration := 30; debugConfig := None |}.

Definition noItems : Props := {| items := []; duration := 30; debugConfig := None |}.

(** On [abc]: every item answered, each answer followed by its timeout;
    the last timeout ends the game. *)
Definition playedOut : list (LiveScreen.Event * Random) :=
  [(LiveScreen.Fire (ClickAnswer true), rnd0); (LiveScreen.Fire AnswerTimeout, rnd0);
   (LiveScreen.Fire (ClickAnswer false), rnd0); (LiveScreen.Fire AnswerTimeout, rnd0);
   (LiveScreen.Fire (ClickAnswer true), rnd0); (LiveScreen.Fire AnswerTimeout, rnd0)].


(** Five right answers in a row, each followed by its timeout. *)
Definition fiveRight : list (Event * Random) :=
  [(ClickAnswer true, rnd0); (AnswerTimeout, rnd0);
   (ClickAnswer true, rnd0); (AnswerTimeout, rnd0);
   (ClickAnswer true, rnd0); (AnswerTimeout, rnd0);
   (ClickAnswer true, rnd0); (AnswerTimeout, rnd0);
   (ClickAnswer true, rnd0); (AnswerTimeout, rnd0)].

(** A bonus round on [abc] with the clock at 0 and no result yet. *)
Definition inBonus : State :=
  setShowBonusRound true
    (setBonusDisplayItems [photo "A" true; photo "B" false]
      (setBonusItems (Some (photo "A" true, photo "B" false))
        (setEarnedBonus true (setTimeLeft (fun _ => 0) (initialState abc))))).

(** A browser in which every data URL resolves to the same small PNG
    and nothing else resolves. *)
Definition png : Db.Blob :=
  {| Db.blob_type := "image/png";
     Db.blob_data := Db.Binary [Byte.x89; Byte.x50; Byte.x4e; Byte.x47] |}.

Definition fetchData (u : string) : option Db.Blob :=
  if Db.startsWith u "data:" then Some png else None.

Definition dataUrlOf (b : Db.Blob) : string :=
  match Db.blob_data b with
  | Db.Binary _ => "data:application/octet-stream;base64,iVBORw=="
  | Db.JsonText _ => "data:application/octet-stream;base64,e30="
  end.

Definition today : string := "2024-05-01T12:00:00.000Z".

(** A store holding the authentic photo [x], and a bundled manifest with
    another [x] and a [y]. *)
Definition store : gmap string MediaItem := Db.saveItem (photo "x" true) ∅.

Definition bundled : option Db.Payload :=
  Some (Db.JsonText (Db.JManifest
    {| Db.version := 1; Db.timestamp := today;
       Db.items := [photo "x" false; photo "y" false] |})).

(** Archives whose [data.json] is not JSON, and is the JSON text [null]. *)
Definition brokenPack : gmap string Db.ZipObject :=
  <["data.json" := Db.File (Db.Binary [Byte.x7b])]> ∅.

Definition nullPack : gmap string Db.ZipObject :=
  <["data.json" := Db.File (Db.JsonText Db.JNull)]> ∅.

(** An archive with a manifest of one item whose file is missing. *)
Definition hollowPack : gmap string Db.ZipObject :=
  <["game_data.json" := Db.File (Db.JsonText (Db.JManifest
      {| Db.version := 1; Db.timestamp := today;
         Db.items := [Db.setUrl "media/x.png" (photo "x" true)] |}))]> ∅.

(** An archive whose manifest reads
    [{ items: [<the photo x, with its data URL>, { id: "a" }] }]: the
    second element has no [url]. *)
Definition raggedPack : gmap string Db.ZipObject :=
  <["data.json" := Db.File (Db.JsonText (Db.JItemsIllTyped [photo "x" true]))]> ∅.

End Samples.

(** ** More scenarios *)

Module Scenarios.
Import GameScreen Samples.

(** The bonus-round test of the admin screen on the pool of [abc]:
    [onTestGame({ initialStreak: 7, forceBonusRound: true }, 5)]. *)
Definition bonusTest : Props :=
  {| items := items abc; duration := 5;
     debugConfig := Some {| initialStreak := Some 7; forceBonusRound := Some true |} |}.

(** The clock runs out, the second displayed item is clicked, then NEXT. *)
Definition winBonus : list (Event * Random) :=
  [(TimerTick, rnd0); (TimerTick, rnd0); (TimerTick, rnd0); (TimerTick, rnd0);
   (TimerTick, rnd0); (ClickBonus 1, rnd0); (ClickNext, rnd0)].

(** The same events on the mounted screen, with the render that follows
    the effects between them. *)
Definition winBonusLive : list (LiveScreen.Event * Random) :=
  removelast
    (flat_map (fun e => [(LiveScreen.Fire e.1, e.2); (LiveScreen.Rerender, e.2)]) winBonus).

(** Two right answers on [abc], the second still being processed. *)
Definition twoRight : list (Event * Random) :=
  [(ClickAnswer true, rnd0); (AnswerTimeout, rnd0); (ClickAnswer false, rnd0)].

End Scenarios.

(** ** The lists and the modal of the review screen (ReviewScreen) *)

Module ReviewData.

(** An element of [merged]: an answer and the item [items.find] gave for it,
    [None] for [undefined]. *)
Record Entry := mkEntry {
  answer : UserAnswer;
  itemData : option MediaItem
}.

(** [answers.map(answer => ({ answer, itemData: items.find(i => i.id ===
    answer.itemId)! }))]; the [!] is erased by the compiler. *)
Definition merged (answers : list UserAnswer) (items : list MediaItem) : list Entry :=
  map (fun a => mkEntry a (List.find (fun i => String.eqb (id i) (itemId a)) items))
    answers.

(** [sortFn]: correct first, then incorrect. *)
Definition sortFn (a b : Entry) : Z :=
  if Bool.eqb (isCorrect (answer a)) (isCorrect (answer b)) then 0
  else if isCorrect (answer a) then -1 else 1.

(** [Array.prototype.sort] is stable: elements the comparator does not
    order keep their places.  Given as insertion sort, each element put
    before the first one it is strictly less than. *)
Fixpoint insert {A} (cmp : A -> A -> Z) (x : A) (sorted : list A) : list A :=
  match sorted with
  | [] => [x]
  | y :: l => if cmp x y <? 0 then x :: y :: l else y :: insert cmp x l
  end.

Definition Array_sort {A} (cmp : A -> A -> Z) (l : list A) : list A :=
  foldl (fun sorted x => insert cmp x sorted) [] l.

(** [x.itemData.isReal], a TypeError on [undefined]. *)
Definition isRealOf (x : Entry) : Result bool :=
  match itemData x with
  | Some i => Ok (isReal i)
  | None => Throws TypeError
  end.

(** [Array.prototype.filter] with a callback that may throw. *)
Fixpoint Array_filter {A} (f : A -> Result bool) (l : list A) : Result (list A) :=
  match l with
  | [] => Ok []
  | x :: l' =>
      bindR (f x) (fun keep =>
        bindR (Array_filter f l') (fun rest => Ok (if keep then x :: rest else rest)))
  end.

(** What the [useMemo] of the screen returns. *)
Record Lists := mkLists {
  aiItems : list Entry;
  realItems : list Entry;
  flatList : list Entry;
  correctCount : nat;
  totalScore : Z
}.

Definition useMemo (answers : list UserAnswer) (items : list MediaItem) : Result Lists :=
  let merged := merged answers items in
  bindR (Array_filter (fun x => bindR (isRealOf x) (fun r => Ok (negb r))) merged) (fun ai =>
  bindR (Array_filter isRealOf merged) (fun real =>
    let ai := Array_sort sortFn ai in
    let real := Array_sort sortFn real in
    Ok {| aiItems := ai;
          realItems := real;
          flatList := ai ++ real;
          correctCount := length (List.filter (fun a => isCorrect a) answers);
          totalScore := GameScreen.totalScore answers |})).

(** *** The modal

    [selectedItemIndex] is [None] for [null]. *)

(** [handleNext()] *)
Definition handleNext (d : Lists) (selectedItemIndex : option nat) : option nat :=
  match selectedItemIndex with
  | Some i =>
      if Z.of_nat i <? Z.of_nat (length (flatList d)) - 1 then Some (i + 1)%nat
      else selectedItemIndex
  | None => selectedItemIndex
  end.

(** [handlePrev()] *)
Definition handlePrev (selectedItemIndex : option nat) : option nat :=
  match selectedItemIndex with
  | Some i => if 0 <? Z.of_nat i then Some (i - 1)%nat else selectedItemIndex
  | None => selectedItemIndex
  end.

(** [handleItemClick(index)] *)
Definition handleItemClick (index : nat) : option nat := Some index.

(** What the user can click: the [i]-th cell of the AI grid, rendered by
    [aiItems.map((item, i) => renderGridItem(item, i))]; the [i]-th cell of
    the grid of real media, rendered with index [aiItems.length + i]; the
    next, previous and close buttons of the modal, rendered while
    [selectedItemIndex] is not [null] (the first two under the tests the
    handlers repeat). *)
Inductive Click :=
  | ClickAI (i : nat)
  | ClickReal (i : nat)
  | Next
  | Prev
  | Close.

Definition handle (d : Lists) (ev : Click) (selectedItemIndex : option nat) : option nat :=
  match ev with
  | ClickAI i =>
      if (i <? length (aiItems d))%nat then handleItemClick i else selectedItemIndex
  | ClickReal i =>
      if (i <? length (realItems d))%nat
      then handleItemClick (length (aiItems d) + i)%nat else selectedItemIndex
  | Next => handleNext d selectedItemIndex
  | Prev => handlePrev selectedItemIndex
  | Close => None
  end.

(** [data={flatList[selectedItemIndex]}]: the entry the modal shows, if it is
    rendered.  [LearnModal] destructures [data] and reads the fields of
    [itemData]: a TypeError on [undefined]. *)
Definition modalData (d : Lists) (selectedItemIndex : option nat) : Result (option Entry) :=
  match selectedItemIndex with
  | None => Ok None
  | Some i =>
      match flatList d !! i with
      | Some e => if nonNull (itemData e) then Ok (Some e) else Throws TypeError
      | None => Throws TypeError
      end
  end.

(** A click, then the render of the new state. *)
Definition step (d : Lists) (selectedItemIndex : option nat) (ev : Click)
    : Result (option nat) :=
  let sel := handle d ev selectedItemIndex in
  bindR (modalData d sel) (fun _ => Ok sel).

(** The clicks of a visit, from [useState(null)]. *)
Definition browse (d : Lists) (evs : list Click) : Result (option nat) :=
  foldl (fun r ev => bindR r (fun sel => step d sel ev)) (Ok None) evs.

End ReviewData.

Module ReviewSamples.
Import GameScreen Samples.

Definition answered (i : string) (guess ok : bool) (points : Z) : UserAnswer :=
  {| itemId := i; guessedReal := guess; isCorrect := ok; timeTaken := 0;
     pointsEarned := points |}.

(** A log on [abc]: A taken for AI, B for AI, C for authentic. *)
Definition abcLog : list UserAnswer :=
  [answered "A" false false 0; answered "B" false true 100; answered "C" true true 100].

End ReviewSamples.

(** ** The store under the admin screen (AdminScreen, db.ts) *)

Module Store.
Import Db.

(** What the admin screen does to the store: [handleSave] calls [saveItem],
    [handleDelete] calls [deleteItem], [handleImport] calls
    [importGamePack] and catches what it throws: the store is then the one
    the call left, with what the loop wrote before the exception. *)
Inductive StoreOp :=
  | OpSave (item : MediaItem)
  | OpDelete (k : string)
  | OpImport (zip : gmap string ZipObject).

Definition applyOp (readAsDataURL : Blob -> string) (db : gmap string MediaItem)
    (op : StoreOp) : gmap string MediaItem :=
  match op with
  | OpSave item => saveItem item db
  | OpDelete k => deleteItem k db
  | OpImport zip => (importRun readAsDataURL zip db).1
  end.

(** The store after the operations [ops], from the empty store of a fresh
    browser. *)
Definition history (readAsDataURL : Blob -> string) (ops : list StoreOp)
    : gmap string MediaItem :=
  foldl (applyOp readAsDataURL) ∅ ops.

End Store.

Module StoreSamples.
Import Db Samples.

(** An archive whose manifest holds the photo [x] with its data URL. *)
Definition dataPack : gmap string ZipObject :=
  <["data.json" := File (JsonText (JManifest
      {| version := 1; timestamp := today; items := [photo "x" true] |}))]> ∅.

End StoreSamples.

(** ** The application (App) *)

Module App.

Inductive GameState := WELCOME | PLAYING | RESULTS | REVIEW | ADMIN.

(** The [useState] cells of [App]. *)
Record State := mkState {
  gameState : GameState;
  gameItems : list MediaItem;
  userAnswers : list UserAnswer;
  gameDuration : Z;
  debugConfig : option GameDebugConfig
}.

Definition setGameState (v : GameState) (s : State) : State :=
  mkState v (gameItems s) (userAnswers s) (gameDuration s) (debugConfig s).

Definition setGameItems (v : list MediaItem) (s : State) : State :=
  mkState (gameState s) v (userAnswers s) (gameDuration s) (debugConfig s).

Definition setUserAnswers (v : list UserAnswer) (s : State) : State :=
  mkState (gameState s) (gameItems s) v (gameDuration s) (debugConfig s).

Definition setGameDuration (v : Z) (s : State) : State :=
  mkState (gameState s) (gameItems s) (userAnswers s) v (debugConfig s).

Definition setDebugConfig (v : option GameDebugConfig) (s : State) : State :=
  mkState (gameState s) (gameItems s) (userAnswers s) (gameDuration s) v.

Definition initialState : State :=
  {| gameState := WELCOME; gameItems := []; userAnswers := []; gameDuration := 30;
     debugConfig := None |}.

(** [GAME_DATA] of constants.ts *)
Definition GAME_DATA : list MediaItem := [].

(** [loadGameData()]; the store and the fetch of the model do not fail, so
    the [catch] is not reached. *)
Definition loadGameData (db : gmap string MediaItem) (local : option Db.Payload)
    : list MediaItem :=
  let allItems := Db.getAllItems db local in
  let itemMap := foldl (fun m item => Db.Map_set (id item) item m) [] GAME_DATA in
  let itemMap := foldl (fun m item => Db.Map_set (id item) item m) itemMap allItems in
  Db.Map_values itemMap.

(** [startGame(duration, config)].  [shuffle] is what
    [[...allItems].sort(() => Math.random() - 0.5)] makes of the list. *)
Definition startGame (shuffle : list MediaItem -> list MediaItem)
    (db : gmap string MediaItem) (local : option Db.Payload)
    (duration : Z) (config : option GameDebugConfig) (s : State) : State :=
  let s1 := setDebugConfig config (setGameDuration duration s) in
  let allItems := loadGameData db local in
  if (length allItems =? 0)%nat then setGameState ADMIN s1
  else setGameState PLAYING (setUserAnswers [] (setGameItems (shuffle allItems) s1)).

(** [handleEndGame(answers)] *)
Definition handleEndGame (answers : list UserAnswer) (s : State) : State :=
  setGameState RESULTS (setUserAnswers answers s).

(** [handleBackToHome()] *)
Definition handleBackToHome (s : State) : State := setGameState WELCOME s.

(** The props [App] hands to [GameScreen]. *)
Definition props (s : State) : GameScreen.Props :=
  {| GameScreen.items := gameItems s; GameScreen.duration := gameDuration s;
     GameScreen.debugConfig := debugConfig s |}.

End App.

(** ** The editor of the admin screen (AdminScreen) *)

Module Admin.

(** [tipsInput.split(',')]: the pieces between the commas, one piece for a
    string without a comma, the empty one included. *)
Fixpoint split (s : string) : list string :=
  match s with
  | EmptyString => [EmptyString]
  | String c s' =>
      if Ascii.eqb c (",")%char then EmptyString :: split s'
      else match split s' with
           | piece :: pieces => String c piece :: pieces
           | [] => [String c EmptyString]
           end
  end.

(** [item.tips.join(', ')] *)
Fixpoint join (l : list string) : string :=
  match l with
  | [] => ""
  | [t] => t
  | t :: l' => t +:+ ", " +:+ join l'
  end.

(** [tipsInput.split(',').map(t => t.trim()).filter(t => t.length > 0)] *)
Definition parseTips (tipsInput : string) : list string :=
  List.filter (fun t => (0 <? String.length t)%nat) (map Db.trim (split tipsInput)).

(** The fields of [formData] the handlers read; the inputs keep each a
    string. *)
Record FormData := mkFormData {
  form_title : string;
  form_isReal : bool;
  form_type : MediaType;
  form_category : string;
  form_explanation : string;
  form_shortTip : string;
  form_aiModel : string
}.

Inductive Tab := editor | manage | system.

Inductive Status := success (text : string) | error (text : string).

(** The cells of the form and the status message.  A [File] is given by
    the data URL [fileToBase64] makes of it.  The cells the handlers below
    only write are left out: [isLoading] and the lists [loadItems]
    refreshes. *)
Record State := mkState {
  activeTab : Tab;
  statusMsg : option Status;
  editingId : option string;
  file : option string;
  previewUrl : string;
  existingUrl : string;
  formData : FormData;
  tipsInput : string
}.

Definition orEmpty (s : option string) : string :=
  match s with Some s => s | None => "" end.

(** [handleEdit(item)] *)
Definition handleEdit (item : MediaItem) (s : State) : State :=
  {| editingId := Some (id item);
     formData := {| form_title := title item; form_isReal := isReal item;
                    form_type := type item; form_category := category item;
                    form_explanation := explanation item;
                    form_shortTip := orEmpty (shortTip item);
                    form_aiModel := orEmpty (aiModel item) |};
     tipsInput := join (tips item);
     previewUrl := url item;
     existingUrl := url item;
     file := None;
     activeTab := editor;
     statusMsg := None |}.

(** [handleCancelEdit()] *)
Definition handleCancelEdit (s : State) : State :=
  {| editingId := None;
     file := None;
     previewUrl := "";
     existingUrl := "";
     formData := {| form_isReal := true; form_type := image; form_category := "General";
                    form_explanation := ""; form_shortTip := ""; form_title := "";
                    form_aiModel := "" |};
     tipsInput := "";
     statusMsg := None;
     activeTab := activeTab s |}.

(** [x || fallback] on strings: the empty string is falsy. *)
Definition orElse (x fallback : string) : string :=
  if String.eqb x "" then fallback else x.

(** [handleSave()], on the store [db]; [uuid] is what [crypto.randomUUID()]
    returns.  The result is the form and the store afterwards. *)
Definition handleSave (uuid : string) (s : State) (db : gmap string MediaItem)
    : State * gmap string MediaItem :=
  let f := formData s in
  if (negb (nonNull (file s)) && String.eqb (existingUrl s) "")
     || String.eqb (form_title f) "" || String.eqb (form_explanation f) ""
  then
    ({| activeTab := activeTab s;
        statusMsg := Some (error "Please fill in all required fields.");
        editingId := editingId s; file := file s; previewUrl := previewUrl s;
        existingUrl := existingUrl s; formData := formData s; tipsInput := tipsInput s |},
     db)
  else
    let finalUrl := match file s with Some dataUrl => dataUrl | None => existingUrl s end in
    let idToUse := match editingId s with
                   | Some i => orElse i uuid
                   | None => uuid
                   end in
    let newItem :=
      {| id := idToUse;
         url := finalUrl;
         title := orElse (form_title f) "Untitled";
         type := form_type f;
         isReal := form_isReal f;
         category := orElse (form_category f) "General";
         explanation := form_explanation f;
         aiModel := Some (form_aiModel f);
         shortTip := Some (form_shortTip f);
         tips := parseTips (tipsInput s);
         isCustom := Some true |} in
    (handleCancelEdit s, Db.saveItem newItem db).

End Admin.

Module AdminSamples.

(** An item of the store with every field filled in but [shortTip]. *)
Definition lesson : MediaItem :=
  {| id := "k1"; type := image; url := "data:image/png;base64,iVBORw0KGgo=";
     isReal := false; title := "Market at dusk";
     explanation := "The lettering on the signs is not writing.";
     tips := ["Look at the hands"; "Check the shadows"];
     category := "Street Photography"; shortTip := None;
     aiModel := Some "Midjourney v6"; isCustom := Some true |}.

Definition blank : Admin.State := Admin.handleCancelEdit
  {| Admin.activeTab := Admin.manage; Admin.statusMsg := None; Admin.editingId := None;
     Admin.file := None; Admin.previewUrl := ""; Admin.existingUrl := "";
     Admin.formData := Admin.mkFormData "" true image "General" "" "" "";
     Admin.tipsInput := "" |}.

End AdminSamples.

(** * Properties *)

Module GameScreenFacts.
Import GameScreen Samples.

(** *** What the effects leave alone *)

(** The cells no effect writes. *)
Definition same_core (s s' : State) : Prop :=
  currentIndex s' = currentIndex s /\ pending s' = pending s /\
  isProcessing s' = isProcessing s /\ score s' = score s /\
  answers s' = answers s /\ streak s' = streak s /\ timeLeft s' = timeLeft s.

Lemma same_core_refl s : same_core s s.
Proof. repeat split. Qed.

Lemma same_core_trans s1 s2 s3 : same_core s1 s2 -> same_core s2 s3 -> same_core s1 s3.
Proof. unfold same_core. intuition congruence. Qed.

Lemma effect_streak_core snap acc : same_core acc (effect_streak snap acc).
Proof. unfold effect_streak. case_match; repeat split. Qed.

Lemma startBonusRound_core p rnd snap acc : same_core acc (startBonusRound p rnd snap acc).
Proof. unfold startBonusRound. repeat case_match; repeat split. Qed.

Lemma effect_timer_core p rnd snap acc : same_core acc (effect_timer p rnd snap acc).
Proof.
  unfold effect_timer.
  repeat case_match; try apply startBonusRound_core; repeat split.
Qed.

Lemma effect_bonusTimer_core snap acc : same_core acc (effect_bonusTimer snap acc).
Proof. unfold effect_bonusTimer. repeat case_match; repeat split. Qed.

Lemma runEffects_frame p rnd s : same_core s (runEffects p rnd s).
Proof.
  unfold runEffects. case_match; [apply same_core_refl|].
  eapply same_core_trans; [apply effect_streak_core|].
  eapply same_core_trans; [apply effect_timer_core|].
  apply effect_bonusTimer_core.
Qed.

(** The two outcomes of [startBonusRound]: both items found, each of the
    wanted kind or else the first item of the pool; or no item at all. *)
Lemma startBonusRound_cases p rnd snap acc :
  (exists real ai,
      (real ∈ items p) /\ (ai ∈ items p) /\
      (isReal real = true \/
       (List.filter (fun i => isReal i) (items p) = [] /\ items p !! 0%nat = Some real)) /\
      (isReal ai = false \/
       (List.filter (fun i => negb (isReal i)) (items p) = [] /\
        items p !! 0%nat = Some ai)) /\
      startBonusRound p rnd snap acc =
        setShowBonusRound true
          (setBonusTimer (fun _ => 10)
            (setBonusDisplayItems (if swapPair rnd then [ai; real] else [real; ai])
              (setBonusFeedbackItem None (setBonusItems (Some (real, ai)) acc))))) \/
  (items p = [] /\ startBonusRound p rnd snap acc = onEndGame (answers snap) acc).
Proof.
  unfold startBonusRound.
  assert (Hpick : forall (f : MediaItem -> bool) k,
             let l := List.filter f (items p) in
             (exists x, (x ∈ items p) /\
                (f x = true \/ (l = [] /\ items p !! 0%nat = Some x)) /\
                (if (0 <? length l)%nat then l !! (k mod length l)%nat
                 else items p !! 0%nat) = Some x) \/
             (items p = [] /\
                (if (0 <? length l)%nat then l !! (k mod length l)%nat
                 else items p !! 0%nat) = None)).
  { intros f k l. destruct (0 <? length l)%nat eqn:E.
    - left. apply Nat.ltb_lt in E.
      destruct (lookup_lt_is_Some_2 l (k mod length l)%nat) as [x Hx].
      { apply Nat.mod_upper_bound. lia. }
      exists x. pose proof (list_elem_of_lookup_2 _ _ _ Hx) as Hin.
      apply list_elem_of_In, filter_In in Hin as [Hin Hf].
      split; [apply list_elem_of_In; exact Hin|].
      split; [left; exact Hf | exact Hx].
    - apply Nat.ltb_ge in E. assert (El : l = []) by (destruct l; [done | cbn in E; lia]).
      destruct (items p) as [|x xs] eqn:Ei.
      + right. split; reflexivity.
      + left. exists x. split; [left|]. split; [right; split; [exact El | reflexivity]|].
        reflexivity. }
  destruct (Hpick (fun i => isReal i) (pickReal rnd)) as [(r & Hr & Hr' & ->) | (He & ->)];
    [|right; split; [exact He | reflexivity]].
  destruct (Hpick (fun i => negb (isReal i)) (pickAI rnd))
    as [(a & Ha & Ha' & ->) | (He & ->)];
    [|right; split; [exact He | reflexivity]].
  left. exists r, a. repeat split; try assumption.
  destruct Ha' as [Ha' | Ha']; [left | right; exact Ha'].
  destruct (isReal a); [discriminate | reflexivity].
Qed.

#[local] Arguments startBonusRound : simpl never.

(** Case analysis of a commit on the tests its effects make. *)
Ltac commit_cases p rnd s :=
  unfold effect_bonusTimer, effect_timer, effect_streak, handleBonusResult,
    BONUS_ROUND_QUALIFIER;
  destruct (5 <=? streak s) eqn:Estreak, (showBonusRound s) eqn:Eshow,
    (timeLeft s <=? 0) eqn:Etime, (earnedBonus s) eqn:Eearned,
    (bonusResult s) eqn:Eresult, (bonusTimer s <=? 0) eqn:Ebonus; cbn;
  try (destruct (startBonusRound_cases p rnd s (setEarnedBonus true s))
         as [(? & ? & _ & _ & _ & _ & ->) | (_ & ->)]);
  try (destruct (startBonusRound_cases p rnd s s)
         as [(? & ? & _ & _ & _ & _ & ->) | (_ & ->)]);
  cbn.

(** A state on which no effect acts. *)
Definition quiescent (s : State) : Prop :=
  ended s <> None \/
  ((streak s < BONUS_ROUND_QUALIFIER \/ earnedBonus s = true) /\
   (showBonusRound s = true \/ 0 < timeLeft s) /\
   (showBonusRound s = false \/ bonusResult s <> None \/ 0 < bonusTimer s)).

Lemma runEffects_quiescent_id p rnd s : quiescent s -> runEffects p rnd s = s.
Proof.
  unfold quiescent, runEffects. intros Q.
  destruct (ended s) eqn:He; [reflexivity|].
  destruct Q as [Q | (A & B & C)]; [congruence|].
  assert (E1 : effect_streak s s = s).
  { unfold effect_streak. case_match; [|reflexivity].
    destruct A as [A | A]; [unfold BONUS_ROUND_QUALIFIER in *; lia|].
    destruct s; cbn in *; subst; reflexivity. }
  rewrite E1.
  assert (E2 : effect_timer p rnd s s = s).
  { unfold effect_timer. destruct (showBonusRound s); [reflexivity|].
    destruct B as [B | B]; [discriminate|].
    assert ((timeLeft s <=? 0) = false) as -> by lia. reflexivity. }
  rewrite E2.
  unfold effect_bonusTimer. destruct (showBonusRound s); [|reflexivity].
  destruct C as [C | [C | C]]; [discriminate | |].
  - destruct (bonusResult s); [reflexivity | congruence].
  - destruct (bonusResult s); [reflexivity|]. cbn.
    assert ((bonusTimer s <=? 0) = false) as -> by lia. reflexivity.
Qed.

Lemma runEffects_quiescent p rnd s : quiescent (runEffects p rnd s).
Proof.
  unfold runEffects. destruct (ended s) eqn:He; [left; congruence|].
  unfold quiescent. commit_cases p rnd s; rewrite ?Eshow, ?Eearned, ?Eresult, ?He;
    first [ left; discriminate
          | right; repeat split;
            first [ left; lia | left; reflexivity | right; left; discriminate
                  | right; right; lia | right; lia | right; reflexivity
                  | left; congruence | right; left; congruence ] ].
Qed.

(** The commit of the re-render that follows a commit changes nothing. *)
Lemma runEffects_idempotent p rnd s :
  runEffects p rnd (runEffects p rnd s) = runEffects p rnd s.
Proof. apply runEffects_quiescent_id, runEffects_quiescent. Qed.

(** So does the commit of the re-render that follows the first commit. *)
Lemma mount_quiescent p rnd s : mount p rnd = Ok s -> runEffects p rnd s = s.
Proof.
  unfold mount. destruct (renders p (initialState p)); [|discriminate].
  intros [= <-]. apply runEffects_quiescent_id.
  unfold effect_bonusTimer, effect_timer. cbn [showBonusRound initialState negb orb].
  cbn [timeLeft earnedBonus initialState andb].
  unfold quiescent, effect_debug, effect_streak, BONUS_ROUND_QUALIFIER.
  destruct (duration p <=? 0) eqn:Ed; [left; discriminate | right].
  assert (Ht : timeLeft (initialState p) = duration p) by reflexivity.
  assert (Hs : showBonusRound (initialState p) = false) by reflexivity.
  revert Ht Hs. generalize (initialState p). intros s0 Ht Hs.
  destruct (5 <=? streak s0) eqn:E5;
    destruct (debugConfig p) as [[i [[|]|]]|]; cbn; rewrite ?Ht, ?Hs;
    (split; [first [right; reflexivity | left; lia] | split; [right; lia | left; reflexivity]]).
Qed.

Lemma runEffects_ended p rnd s :
  ended (runEffects p rnd s) = ended s \/
  ended (runEffects p rnd s) = Some (answers s).
Proof.
  unfold runEffects. destruct (ended s) eqn:He; [left; exact He|].
  commit_cases p rnd s; rewrite ?He; auto.
Qed.

Lemma runEffects_showBonusRound p rnd s :
  showBonusRound s = true -> showBonusRound (runEffects p rnd s) = true.
Proof.
  intros E. unfold runEffects. destruct (ended s) eqn:He; [exact E|].
  commit_cases p rnd s; congruence.
Qed.

Lemma runEffects_bonusResult p rnd s r :
  bonusResult s = Some r -> bonusResult (runEffects p rnd s) = Some r.
Proof.
  intros E. unfold runEffects. destruct (ended s) eqn:He; [exact E|].
  commit_cases p rnd s; congruence.
Qed.

(** *** The invariant of a session *)

Lemma totalScore_app log a :
  totalScore (log ++ [a]) = totalScore log + pointsEarned a.
Proof.
  unfold totalScore. rewrite foldl_app. cbn.
  destruct (pointsEarned a =? 0) eqn:E; lia.
Qed.

(** In every state of a session: a current item exists; a [setTimeout]
    callback is pending exactly while [isProcessing] is set, and it captured
    the current index; the score is the total of the log; the log handed to
    [onEndGame] is the log of the state; while the clock runs outside the
    bonus round the log holds one record per item passed, and one more while
    an answer is being processed. *)
Record Inv (p : Props) (s : State) : Prop := mkInv {
  inv_index : (currentIndex s < length (items p))%nat;
  inv_pending : pending s = if isProcessing s then [currentIndex s] else [];
  inv_score : score s = totalScore (answers s);
  inv_ended : forall log, ended s = Some log -> log = answers s;
  inv_rounds :
    ended s = None -> showBonusRound s = false -> 0 < timeLeft s ->
    length (answers s) = (currentIndex s + if isProcessing s then 1 else 0)%nat
}.

Lemma Inv_currentItem p s : Inv p s -> is_Some (currentItem p s).
Proof. intros [Hi _ _ _ _]. apply lookup_lt_is_Some_2. exact Hi. Qed.

Lemma Inv_renders p s : Inv p s -> renders p s = true.
Proof.
  intros H. unfold renders. destruct (Inv_currentItem p s H) as [x ->].
  cbn. apply orb_true_r.
Qed.

Lemma same_core_Inv p s s' :
  same_core s s' ->
  (ended s' = ended s \/ ended s' = Some (answers s)) ->
  (showBonusRound s = true -> showBonusRound s' = true) ->
  Inv p s -> Inv p s'.
Proof.
  intros (Fi & Fp & Fpr & Fs & Fa & _ & Ft) Fe Fb [Hi Hp Hs He Hr].
  split.
  - rewrite Fi. exact Hi.
  - rewrite Fp, Fpr, Fi. exact Hp.
  - rewrite Fs, Fa. exact Hs.
  - intros log Hlog. rewrite Fa. destruct Fe as [E | E]; rewrite E in Hlog.
    + auto.
    + congruence.
  - intros Hlive Hshow Htime. rewrite Fa, Fi, Fpr. rewrite Ft in Htime.
    apply Hr; [| |exact Htime].
    + destruct Fe as [E | E]; congruence.
    + destruct (showBonusRound s) eqn:E; [|reflexivity].
      rewrite (Fb eq_refl) in Hshow. discriminate.
Qed.

Lemma runEffects_Inv p rnd s : Inv p s -> Inv p (runEffects p rnd s).
Proof.
  apply same_core_Inv.
  - apply runEffects_frame.
  - apply runEffects_ended.
  - apply runEffects_showBonusRound.
Qed.

Lemma initialState_Inv p : items p <> [] -> Inv p (initialState p).
Proof.
  intros Hne. split; cbn; try done.
  destruct (items p); [done | cbn; lia].
Qed.

(** The commit after the first render differs from [runEffects] on the
    initial state only by the [debugConfig] effect, which writes
    [earnedBonus] alone. *)
Lemma mount_Inv p rnd :
  items p <> [] -> exists s, mount p rnd = Ok s /\ Inv p s.
Proof.
  intros Hne. unfold mount.
  rewrite (Inv_renders _ _ (initialState_Inv p Hne)).
  eexists; split; [reflexivity|].
  set (s0 := initialState p).
  assert (H0 : Inv p s0) by (apply initialState_Inv; exact Hne).
  eapply (same_core_Inv p s0); [| | |exact H0].
  - eapply same_core_trans; [apply effect_streak_core|].
    eapply same_core_trans; [|apply effect_bonusTimer_core].
    eapply same_core_trans; [|apply effect_timer_core].
    unfold effect_debug. repeat case_match; repeat split.
  - unfold effect_bonusTimer. change (showBonusRound s0) with false. cbn.
    unfold effect_timer. change (showBonusRound s0) with false. cbn.
    destruct (duration p <=? 0); [right; reflexivity | left].
    unfold effect_debug, effect_streak. repeat case_match; reflexivity.
  - discriminate.
Qed.

Lemma handleAnswer_Inv p g s :
  ended s = None -> Inv p s -> exists s', handleAnswer p g s = Ok s' /\ Inv p s'.
Proof.
  intros Hlive H. pose proof H as [Hi Hp Hs He Hr]. unfold handleAnswer.
  destruct (isProcessing s) eqn:Hproc.
  { eexists; split; [reflexivity | exact H]. }
  destruct (Inv_currentItem p s H) as [item ->].
  eexists; split; [reflexivity|].
  destruct (Bool.eqb g (isReal item)); split; cbn;
    rewrite ?Hp, ?totalScore_app, ?length_app; cbn; auto; try lia; try congruence.
  - intros. rewrite Hr; auto.
  - intros. rewrite Hr; auto.
Qed.

Lemma handleBonusAnswer_Inv p item s :
  showBonusRound s = true -> ended s = None -> Inv p s -> Inv p (handleBonusAnswer item s).
Proof.
  intros Hshow Hlive [Hi Hp Hs He Hr]. unfold handleBonusAnswer, handleBonusResult.
  destruct (bonusResult s); [split; assumption|].
  destruct (isReal item); split; cbn;
    rewrite ?totalScore_app; cbn; auto; try congruence; try lia.
Qed.

Lemma handle_Inv p ev s :
  ended s = None -> Inv p s -> exists s', handle p ev s = Ok s' /\ Inv p s'.
Proof.
  intros Hlive H. pose proof H as [Hi Hp Hs He Hr].
  destruct ev as [g| | | |k|]; cbn.
  - destruct (showBonusRound s || isProcessing s); [eauto|].
    apply handleAnswer_Inv; assumption.
  - destruct (negb (showBonusRound s) && (0 <? timeLeft s)) eqn:E; [|eauto].
    eexists; split; [reflexivity|]. split; cbn; auto. intros. apply Hr; auto. lia.
  - destruct (pending s) as [|idx rest] eqn:Epend; [eauto|].
    eexists; split; [reflexivity|].
    destruct (isProcessing s) eqn:Hproc; [|discriminate].
    injection Hp as -> ->.
    unfold answerTimeout.
    destruct (Z.of_nat (currentIndex s) <? Z.of_nat (length (items p)) - 1) eqn:E;
      split; cbn; auto; try lia.
    intros. rewrite Hr; auto; try lia.
  - destruct (showBonusRound s && negb (nonNull (bonusResult s)) && (0 <? bonusTimer s));
      [|eauto].
    eexists; split; [reflexivity|]. split; cbn; auto.
  - destruct (showBonusRound s && negb (nonNull (bonusResult s))) eqn:E; [|eauto].
    apply andb_true_iff in E as [E _].
    destruct (bonusDisplayItems s !! k); [|eauto].
    eexists; split; [reflexivity|]. apply handleBonusAnswer_Inv; assumption.
  - destruct (showBonusRound s && nonNull (bonusResult s)); [|eauto].
    eexists; split; [reflexivity|]. split; cbn; auto; congruence.
Qed.



(** *** The screen for as long as it is mounted *)





Lemma commit_runEffects p rnd s :
  ended s = None -> runEffects p rnd s = LiveScreen.commit p rnd s.
Proof. intros He. unfold runEffects. rewrite He. reflexivity. Qed.




Lemma live_run_snoc p rnd0 evs e :
  LiveScreen.run p rnd0 (evs ++ [e]) =
  bindR (LiveScreen.run p rnd0 evs) (LiveScreen.step p e.1 e.2).
Proof. unfold LiveScreen.run. rewrite foldl_app. reflexivity. Qed.


(** A state on which no effect acts stays as it is in a commit. *)
Lemma commit_still p rnd s :
  (streak s < BONUS_ROUND_QUALIFIER \/ earnedBonus s = true) ->
  (showBonusRound s = true \/ 0 < timeLeft s) ->
  (showBonusRound s = false \/ bonusResult s <> None \/ 0 < bonusTimer s) ->
  LiveScreen.commit p rnd s = s.
Proof.
  intros A B C. unfold LiveScreen.commit.
  assert (E1 : effect_streak s s = s).
  { unfold effect_streak. case_match; [|reflexivity].
    destruct A as [A | A]; [unfold BONUS_ROUND_QUALIFIER in *; lia|].
    destruct s; cbn in *; subst; reflexivity. }
  rewrite E1.
  assert (E2 : effect_timer p rnd s s = s).
  { unfold effect_timer. destruct (showBonusRound s); [reflexivity|].
    destruct B as [B | B]; [discriminate|].
    assert ((timeLeft s <=? 0) = false) as -> by lia. reflexivity. }
  rewrite E2.
  unfold effect_bonusTimer. destruct (showBonusRound s); [|reflexivity].
  destruct C as [C | [C | C]]; [discriminate | |].
  - destruct (bonusResult s); [reflexivity | congruence].
  - destruct (bonusResult s); [reflexivity|]. cbn.
    assert ((bonusTimer s <=? 0) = false) as -> by lia. reflexivity.
Qed.

(** A call of [onEndGame] is not taken back. *)
Lemma commit_ended p rnd s :
  ended (LiveScreen.commit p rnd s) = ended s \/
  ended (LiveScreen.commit p rnd s) = Some (answers s).
Proof. unfold LiveScreen.commit. commit_cases p rnd s; auto. Qed.

(** The one handler that calls [onEndGame] is that of the NEXT button. *)
Lemma handle_ended p ev s sh :
  handle p ev s = Ok sh ->
  ended sh = ended s \/
  (sh = onEndGame (answers s) s /\ showBonusRound s = true /\ bonusResult s <> None).
Proof.
  destruct ev as [g| | | |k|]; cbn.
  - destruct (showBonusRound s || isProcessing s); [intros [= <-]; auto|].
    unfold handleAnswer. destruct (isProcessing s); [intros [= <-]; auto|].
    destruct (currentItem p s) as [item|]; [|discriminate].
    destruct (Bool.eqb g (isReal item)); intros [= <-]; auto.
  - case_match; intros [= <-]; auto.
  - destruct (pending s); intros [= <-]; auto.
    unfold answerTimeout. case_match; auto.
  - case_match; intros [= <-]; auto.
  - case_match; [|intros [= <-]; auto].
    destruct (bonusDisplayItems s !! k) as [item|]; intros [= <-]; auto.
    unfold handleBonusAnswer, handleBonusResult. repeat case_match; auto.
  - destruct (showBonusRound s) eqn:Eb; cbn; [|intros [= <-]; auto].
    destruct (bonusResult s) eqn:Er; cbn; intros [= <-]; auto.
Qed.

Lemma live_step_ended p ev rnd s s' :
  LiveScreen.step p ev rnd s = Ok s' -> ended s' = None -> ended s = None.
Proof.
  destruct ev as [ev|]; cbn [LiveScreen.step].
  - destruct (handle p ev s) as [sh|] eqn:Hh; [|discriminate]. cbn.
    destruct (renders p sh); [|discriminate]. intros [= <-] He.
    assert (Hsh : ended sh = None).
    { destruct (commit_ended p rnd sh) as [E | E]; congruence. }
    destruct (handle_ended _ _ _ _ Hh) as [E | [E _]]; [congruence|].
    rewrite E in Hsh. discriminate.
  - destruct (renders p s); [|discriminate]. intros [= <-] He.
    destruct (commit_ended p rnd s) as [E | E]; congruence.
Qed.

(** No effect acts on a state of a session. *)
Lemma mount_is_quiescent p rnd s : mount p rnd = Ok s -> quiescent s.
Proof.
  unfold mount. destruct (renders p (initialState p)); [|discriminate].
  intros [= <-].
  unfold effect_bonusTimer, effect_timer. cbn [showBonusRound initialState negb orb].
  cbn [timeLeft earnedBonus initialState andb].
  unfold quiescent, effect_debug, effect_streak, BONUS_ROUND_QUALIFIER.
  destruct (duration p <=? 0) eqn:Ed; [left; discriminate | right].
  assert (Ht : timeLeft (initialState p) = duration p) by reflexivity.
  assert (Hs : showBonusRound (initialState p) = false) by reflexivity.
  revert Ht Hs. generalize (initialState p). intros s0 Ht Hs.
  destruct (5 <=? streak s0) eqn:E5;
    destruct (debugConfig p) as [[i [[|]|]]|]; cbn; rewrite ?Ht, ?Hs;
    (split; [first [right; reflexivity | left; lia] | split; [right; lia | left; reflexivity]]).
Qed.

Lemma step_quiescent p ev rnd s s' : quiescent s -> step p ev rnd s = Ok s' -> quiescent s'.
Proof.
  intros Q. unfold step. destruct (ended s) eqn:He; [intros [= <-]; exact Q|].
  destruct (handle p ev s) as [sh|]; [|discriminate]. cbn.
  destruct (renders p sh); [|discriminate]. intros [= <-]. apply runEffects_quiescent.
Qed.

Lemma run_quiescent p rnd0 evs s : run p rnd0 evs = Ok s -> quiescent s.
Proof.
  unfold run. revert s. induction evs as [|e evs IH] using rev_ind; intros s.
  - apply mount_is_quiescent.
  - rewrite foldl_app. cbn [foldl].
    destruct (foldl _ (mount p rnd0) evs) as [s0|]; [|discriminate].
    cbn. apply step_quiescent. apply IH. reflexivity.
Qed.

Lemma quiescent_commit p rnd s : quiescent s -> ended s = None -> LiveScreen.commit p rnd s = s.
Proof.
  intros [Q | (A & B & C)] He; [congruence|]. apply commit_still; assumption.
Qed.

(** From a state of a session in which [onEndGame] was not called yet, an
    event does to the mounted screen what it does in the session: the call
    of [onEndGame] it may bring is the first. *)
Lemma live_step_first p ev rnd s :
  quiescent s -> ended s = None ->
  LiveScreen.step p (LiveScreen.Fire ev) rnd s = step p ev rnd s.
Proof.
  intros Q He. unfold step. rewrite He. cbn [LiveScreen.step].
  destruct (handle p ev s) as [sh|] eqn:Hh; [|reflexivity]. cbn.
  destruct (renders p sh); [|reflexivity]. f_equal.
  destruct (handle_ended _ _ _ _ Hh) as [E | (E & Hshow & Hres)].
  - symmetry. apply commit_runEffects. congruence.
  - assert (Hid : runEffects p rnd sh = sh) by (rewrite E; reflexivity).
    rewrite Hid. destruct Q as [Q | (A & _ & _)]; [congruence|].
    rewrite E. apply commit_still; cbn.
    + exact A.
    + left. exact Hshow.
    + right. left. exact Hres.
Qed.

Lemma fired_snoc evs e :
  LiveScreen.fired (evs ++ [e]) = LiveScreen.fired evs ++ LiveScreen.fired [e].
Proof. unfold LiveScreen.fired. apply omap_app. Qed.

(** Until [onEndGame] is called, the mounted screen goes through the states
    of the session of the events fired. *)
Lemma live_run_before_end p rnd0 evs s :
  LiveScreen.run p rnd0 evs = Ok s -> ended s = None ->
  run p rnd0 (LiveScreen.fired evs) = Ok s.
Proof.
  revert s. induction evs as [|[e rnd] evs IH] using rev_ind; intros s.
  - intros H _. exact H.
  - rewrite live_run_snoc, fired_snoc.
    destruct (LiveScreen.run p rnd0 evs) as [s0|] eqn:E0; [|discriminate].
    cbn [bindR fst snd]. intros Hstep He.
    pose proof (live_step_ended _ _ _ _ _ Hstep He) as He0.
    pose proof (IH s0 eq_refl He0) as Hrun0.
    pose proof (run_quiescent _ _ _ _ Hrun0) as Q.
    destruct e as [ev|].
    + change (LiveScreen.fired [(LiveScreen.Fire ev, rnd)]) with [(ev, rnd)].
      unfold run in *. rewrite foldl_app, Hrun0. cbn [foldl bindR fst snd].
      rewrite <- (live_step_first p ev rnd s0 Q He0). exact Hstep.
    + change (LiveScreen.fired [(LiveScreen.Rerender, rnd)]) with (@nil (Event * Random)).
      rewrite app_nil_r. rewrite Hrun0. f_equal.
      cbn [LiveScreen.step] in Hstep. destruct (renders p s0); [|discriminate].
      rewrite (quiescent_commit p rnd s0 Q He0) in Hstep. congruence.
Qed.

(** The same up to the first call of [onEndGame], that call included. *)
Lemma live_run_first p rnd0 evs s :
  LiveScreen.run p rnd0 evs = Ok s -> LiveScreen.endedBefore p rnd0 evs = false ->
  run p rnd0 (LiveScreen.fired evs) = Ok s.
Proof.
  destruct evs as [|[e rnd] evs _] using rev_ind; [intros H _; exact H|].
  unfold LiveScreen.endedBefore.
  destruct (evs ++ [(e, rnd)]) as [|x l] eqn:El at 1 2;
    [destruct evs; discriminate|].
  rewrite <- El. clear El x l. rewrite removelast_last.
  rewrite live_run_snoc, fired_snoc.
  destruct (LiveScreen.run p rnd0 evs) as [s0|] eqn:E0; [|discriminate].
  cbn [bindR fst snd]. intros Hstep He0.
  assert (He : ended s0 = None) by (destruct (ended s0); [discriminate | reflexivity]).
  clear He0.
  pose proof (live_run_before_end _ _ _ _ E0 He) as Hrun0.
  pose proof (run_quiescent _ _ _ _ Hrun0) as Q.
  destruct e as [ev|].
  - change (LiveScreen.fired [(LiveScreen.Fire ev, rnd)]) with [(ev, rnd)].
    unfold run in *. rewrite foldl_app, Hrun0. cbn [foldl bindR fst snd].
    rewrite <- (live_step_first p ev rnd s0 Q He). exact Hstep.
  - change (LiveScreen.fired [(LiveScreen.Rerender, rnd)]) with (@nil (Event * Random)).
    rewrite app_nil_r. rewrite Hrun0. f_equal.
    cbn [LiveScreen.step] in Hstep. destruct (renders p s0); [|discriminate].
    rewrite (quiescent_commit p rnd s0 Q He) in Hstep. congruence.
Qed.

(** *** The claims about the session *)

(** C1 (scoring of an accepted answer): when [handleAnswer] is not locked out
    and a current item exists, the call returns; on a guess equal to the
    item's [isReal] the streak grows by exactly 1, the record appended carries
    100 x (4 if the new streak is at least 7, else 2 if at least 3, else 1)
    points and the score grows by that amount; on a wrong guess the streak
    becomes 0, the record carries 0 points and the score is unchanged. *)
Theorem handleAnswer_scoring (p : Props) (guess : bool) (s : State) (item : MediaItem)
    (Hfree : isProcessing s = false)
    (Hitem : currentItem p s = Some item) :
  exists s', handleAnswer p guess s = Ok s' /\
    if Bool.eqb guess (isReal item) then
      let n := streak s + 1 in
      let pts := 100 * (if 7 <=? n then 4 else if 3 <=? n then 2 else 1) in
      streak s' = n /\
      score s' = score s + pts /\
      lastPointsEarned s' = pts /\
      answers s' = answers s ++ [mkUserAnswer (id item) guess true 0 pts]
    else
      streak s' = 0 /\
      score s' = score s /\
      lastPointsEarned s' = 0 /\
      answers s' = answers s ++ [mkUserAnswer (id item) guess false 0 0].
Proof.
  unfold handleAnswer. rewrite Hfree, Hitem.
  eexists; split; [reflexivity|].
  destruct (Bool.eqb guess (isReal item)); cbn; auto.
Qed.

Lemma handleAnswer_scoring_witness :
  exists s', handleAnswer abc true (initialState abc) = Ok s' /\
             streak s' = 1 /\ score s' = 100.
Proof.
  destruct (handleAnswer_scoring abc true (initialState abc) (photo "A" true))
    as (s' & Hs' & Hstreak & Hscore & _); [reflexivity | reflexivity |].
  exists s'. split; [exact Hs' | split; [exact Hstreak | exact Hscore]].
Defined.

(** C2, as the code has it: when the commit of a render finds the main
    clock at 0 with the bonus earned, no bonus round shown and no bonus
    result, the bonus round is skipped, and [onEndGame] called with the
    answer log, exactly when the pool of items is empty.  With a non-empty
    pool the bonus round starts with its clock at 10, whatever the pool
    holds: each of the two items is of the wanted kind, or, when the pool
    has none of that kind, the first item of the pool. *)
Theorem bonus_round_skipped_iff_pool_empty (p : Props) (rnd : Random) (s : State)
    (Hlive : ended s = None)
    (Htime : timeLeft s <= 0)
    (Hearned : earnedBonus s = true)
    (Hshow : showBonusRound s = false)
    (Hres : bonusResult s = None) :
  let s' := runEffects p rnd s in
  (items p = [] -> ended s' = Some (answers s) /\ showBonusRound s' = false) /\
  (items p <> [] ->
     ended s' = None /\ showBonusRound s' = true /\ bonusTimer s' = 10 /\
     exists real ai,
       bonusItems s' = Some (real, ai) /\
       (real ∈ items p) /\ (ai ∈ items p) /\
       (isReal real = true \/
        (List.filter (fun i => isReal i) (items p) = [] /\
         items p !! 0%nat = Some real)) /\
       (isReal ai = false \/
        (List.filter (fun i => negb (isReal i)) (items p) = [] /\
         items p !! 0%nat = Some ai))).
Proof.
  cbn zeta. unfold runEffects. rewrite Hlive.
  unfold effect_timer. rewrite Hshow, Hearned, Hres. cbn.
  assert ((timeLeft s <=? 0) = true) as -> by lia.
  unfold effect_bonusTimer. rewrite Hshow. cbn.
  destruct (startBonusRound_cases p rnd s (effect_streak s s))
    as [(real & ai & Hr & Ha & Hr' & Ha' & ->) | (He & ->)].
  - split.
    + intros E. rewrite E in Hr. inversion Hr.
    + intros _. cbn.
      assert (Hended : ended (effect_streak s s) = None).
      { unfold effect_streak. case_match; exact Hlive. }
      repeat split; [exact Hended|]. exists real, ai. repeat split; assumption.
  - split; [|congruence]. intros _. cbn. split; [reflexivity|].
    unfold effect_streak. case_match; exact Hshow.
Qed.

Lemma bonus_round_skipped_iff_pool_empty_witness :
  showBonusRound
    (runEffects allReal rnd0
       (setEarnedBonus true (setTimeLeft (fun _ => 0) (initialState allReal)))) = true.
Proof.
  refine (proj1 (proj2 (proj2
    (bonus_round_skipped_iff_pool_empty allReal rnd0
       (setEarnedBonus true (setTimeLeft (fun _ => 0) (initialState allReal)))
       eq_refl _ eq_refl eq_refl eq_refl) _)));
    [cbn; lia | discriminate].
Defined.

(** C2 as the specification states it fails: a pool of five authentic items
    has no item that is not authentic; after five right answers the last
    timeout puts the clock at 0 with the bonus earned, and the session
    enters the bonus round instead of ending. *)
Lemma bonus_round_entered_without_ai_item :
  List.filter (fun i => negb (isReal i)) (items allReal) = [] /\
  exists s, run allReal rnd0 fiveRight = Ok s /\
    timeLeft s = 0 /\ earnedBonus s = true /\
    showBonusRound s = true /\ ended s = None /\
    bonusItems s = Some (photo "a" true, photo "a" true).
Proof.
  split; [reflexivity|]. eexists. split; [vm_compute; reflexivity|].
  repeat split.
Qed.

(** C3 (the bonus answer): once a bonus result is set, [handleBonusAnswer]
    changes nothing and no event changes the result; with no result yet, a
    selection succeeds exactly when the selected item is not authentic,
    adds 1000 to the score on success and nothing on failure, and appends
    exactly one record; the bonus clock reaching 0 with no result sets the
    result to failure and appends no record and adds no points. *)
Theorem bonus_answer_once :
  (forall item s, bonusResult s <> None -> handleBonusAnswer item s = s) /\
  (forall p ev rnd s s' r,
      bonusResult s = Some r -> step p ev rnd s = Ok s' -> bonusResult s' = Some r) /\
  (forall item s,
      bonusResult s = None ->
      let s' := handleBonusAnswer item s in
      let pts := if isReal item then 0 else 1000 in
      bonusResult s' = Some (if isReal item then fail else success) /\
      score s' = score s + pts /\
      answers s' = answers s ++ [mkUserAnswer (id item) false (negb (isReal item)) 0 pts]) /\
  (forall p rnd s,
      ended s = None -> showBonusRound s = true -> bonusResult s = None ->
      bonusTimer s <= 0 ->
      let s' := runEffects p rnd s in
      bonusResult s' = Some fail /\ answers s' = answers s /\ score s' = score s).
Proof.
  repeat split.
  - intros item s H. unfold handleBonusAnswer. destruct (bonusResult s); congruence.
  - intros p ev rnd s s' r Hr. unfold step.
    destruct (ended s); [intros [= <-]; exact Hr|].
    assert (Hh : forall s1, handle p ev s = Ok s1 -> bonusResult s1 = Some r).
    { destruct ev as [g| | | |k|]; cbn; intros s1.
      - destruct (showBonusRound s || isProcessing s); [intros [= <-]; exact Hr|].
        unfold handleAnswer. destruct (isProcessing s); [intros [= <-]; exact Hr|].
        destruct (currentItem p s); [|discriminate].
        destruct (Bool.eqb g (isReal m)); intros [= <-]; exact Hr.
      - case_match; intros [= <-]; exact Hr.
      - destruct (pending s); [intros [= <-]; exact Hr|].
        unfold answerTimeout. case_match; intros [= <-]; exact Hr.
      - case_match; intros [= <-]; exact Hr.
      - rewrite Hr. cbn. rewrite andb_false_r. intros [= <-]; exact Hr.
      - case_match; intros [= <-]; exact Hr. }
    destruct (handle p ev s) as [s1|]; [|discriminate]. cbn.
    destruct (renders p s1); [|discriminate]. intros [= <-].
    apply runEffects_bonusResult, Hh. reflexivity.
  - unfold handleBonusAnswer, handleBonusResult. rewrite H.
    destruct (isReal item); reflexivity.
  - unfold handleBonusAnswer, handleBonusResult. rewrite H.
    destruct (isReal item); cbn; [lia | reflexivity].
  - unfold handleBonusAnswer, handleBonusResult. rewrite H.
    destruct (isReal item); reflexivity.
  - unfold runEffects. rewrite H. unfold effect_timer, effect_bonusTimer.
    rewrite H0, H1. cbn. assert ((bonusTimer s <=? 0) = true) as -> by lia.
    unfold effect_streak. case_match; reflexivity.
  - destruct (runEffects_frame p rnd s) as (_ & _ & _ & _ & Fa & _). exact Fa.
  - destruct (runEffects_frame p rnd s) as (_ & _ & _ & Fs & _). exact Fs.
Qed.

Lemma bonus_answer_once_witness :
  score (handleBonusAnswer (photo "B" false) inBonus) = 1000 /\
  handleBonusAnswer (photo "A" true)
    (handleBonusAnswer (photo "B" false) inBonus) =
  handleBonusAnswer (photo "B" false) inBonus /\
  bonusResult (runEffects abc rnd0 (setBonusTimer (fun _ => 0) inBonus)) = Some fail.
Proof.
  destruct bonus_answer_once as (Honce & _ & Hsel & Htimeout).
  split; [|split].
  - exact (proj1 (proj2 (Hsel (photo "B" false) inBonus eq_refl))).
  - apply Honce. discriminate.
  - refine (proj1 (Htimeout abc rnd0 (setBonusTimer (fun _ => 0) inBonus)
                     eq_refl eq_refl eq_refl _)).
    cbn. lia.
Defined.






End GameScreenFacts.

Module DbFacts.
Import Db Samples.

(** *** Strings *)

Lemma append_cons c s t : String c s +:+ t = String c (s +:+ t).
Proof. reflexivity. Qed.

Lemma append_nil t : "" +:+ t = t.
Proof. reflexivity. Qed.

Lemma startsWith_append prefix s : startsWith (prefix +:+ s) prefix = true.
Proof.
  unfold startsWith. induction prefix as [|c prefix IH].
  - rewrite append_nil. destruct s; reflexivity.
  - rewrite append_cons. cbn. destruct (ascii_dec c c); [exact IH | congruence].
Qed.

(** A string without a full stop: every extension [getExtension] returns. *)
Fixpoint nodot (s : string) : bool :=
  match s with
  | EmptyString => true
  | String c s' => negb (Ascii.eqb c ".") && nodot s'
  end.

Lemma nodot_append_dot s t : nodot (s +:+ "." +:+ t) = false.
Proof.
  change ("." +:+ t) with (String "." t).
  induction s as [|c s IH].
  - reflexivity.
  - rewrite append_cons. cbn. rewrite IH. apply andb_false_r.
Qed.

Lemma filename_inj id1 id2 ext1 ext2 :
  nodot ext1 = true -> nodot ext2 = true ->
  id1 +:+ "." +:+ ext1 = id2 +:+ "." +:+ ext2 -> id1 = id2.
Proof.
  intros H1 H2. revert id2. induction id1 as [|c id1 IH]; intros [|c2 id2] E.
  - reflexivity.
  - change ("." +:+ ext1) with (String "." ext1) in E.
    rewrite append_nil, append_cons in E. injection E as _ E.
    rewrite E, nodot_append_dot in H1. discriminate.
  - change ("." +:+ ext2) with (String "." ext2) in E.
    rewrite append_nil, append_cons in E. injection E as _ E.
    rewrite <- E, nodot_append_dot in H2. discriminate.
  - rewrite !append_cons in E. injection E as -> E. f_equal. apply IH. exact E.
Qed.

Lemma getExtension_nodot mimeType u itemType :
  nodot (getExtension mimeType u itemType) = true.
Proof.
  unfold getExtension, MIME_TO_EXT, typeDefault.
  repeat case_match; simplify_eq; reflexivity.
Qed.

(** *** The JavaScript Map *)

Definition hasId (k : string) (item : MediaItem) : bool := String.eqb (id item) k.

Definition Map_get {V} (k : string) (m : list (string * V)) : option V :=
  match List.find (fun kv => String.eqb kv.1 k) m with
  | Some kv => Some kv.2
  | None => None
  end.

Lemma Map_get_set {V} k (v : V) m k' :
  Map_get k' (Map_set k v m) = if String.eqb k k' then Some v else Map_get k' m.
Proof.
  unfold Map_get. induction m as [|[k0 v0] m IH]; cbn.
  - destruct (String.eqb k k'); reflexivity.
  - destruct (String.eqb k k0) eqn:E0; cbn.
    + apply String.eqb_eq in E0. subst k0. destruct (String.eqb k k'); reflexivity.
    + destruct (String.eqb k0 k') eqn:E1.
      * apply String.eqb_eq in E1. subst k0. rewrite E0. reflexivity.
      * exact IH.
Qed.

Lemma Map_set_keys {V} k (v : V) m k' :
  k' ∈ (Map_set k v m).*1 <-> k' = k \/ k' ∈ m.*1.
Proof.
  induction m as [|[k0 v0] m IH]; cbn.
  - rewrite elem_of_cons. tauto.
  - destruct (String.eqb k k0) eqn:E0; cbn.
    + apply String.eqb_eq in E0. subst k0. rewrite !elem_of_cons. tauto.
    + rewrite !elem_of_cons, IH. tauto.
Qed.

Lemma Map_set_NoDup {V} k (v : V) m : NoDup m.*1 -> NoDup (Map_set k v m).*1.
Proof.
  induction m as [|[k0 v0] m IH]; cbn; intros Hnd.
  - apply NoDup_singleton.
  - apply NoDup_cons in Hnd as [Hk0 Hnd].
    destruct (String.eqb k k0) eqn:E0; cbn.
    + apply String.eqb_eq in E0. subst k0. apply NoDup_cons. split; assumption.
    + apply String.eqb_neq in E0. apply NoDup_cons. split; [|apply IH; exact Hnd].
      rewrite Map_set_keys. intros [-> | H]; [congruence | contradiction].
Qed.

(** The map of [getAllItems] holds every item under its own [id]. *)
Definition keyed_list (m : list (string * MediaItem)) : Prop :=
  Forall (fun kv => id kv.2 = kv.1) m.

Lemma Map_set_keyed item m : keyed_list m -> keyed_list (Map_set (id item) item m).
Proof.
  unfold keyed_list. induction m as [|[k0 v0] m IH]; cbn; intros H.
  - repeat constructor.
  - apply Forall_cons in H as [H0 H]. destruct (String.eqb (id item) k0).
    + constructor; [reflexivity | exact H].
    + constructor; [exact H0 | apply IH; exact H].
Qed.

Definition itemMap_of (l : list MediaItem) (m : list (string * MediaItem))
    : list (string * MediaItem) :=
  foldl (fun m item => Map_set (id item) item m) m l.

Lemma itemMap_of_snoc l a m :
  itemMap_of (l ++ [a]) m = Map_set (id a) a (itemMap_of l m).
Proof. unfold itemMap_of. rewrite foldl_app. reflexivity. Qed.

Lemma itemMap_of_wf l m :
  NoDup m.*1 -> keyed_list m ->
  NoDup (itemMap_of l m).*1 /\ keyed_list (itemMap_of l m).
Proof.
  intros Hnd Hk. induction l as [|a l IH] using rev_ind; [split; assumption|].
  rewrite itemMap_of_snoc. destruct IH as [IH1 IH2].
  split; [apply Map_set_NoDup; exact IH1 | apply Map_set_keyed; exact IH2].
Qed.

(** After the loop, the entry of an id is the last item of the list with
    that id, or else the entry it had before. *)
Lemma itemMap_of_get l m k :
  Map_get k (itemMap_of l m) =
  match List.find (hasId k) (rev l) with
  | Some item => Some item
  | None => Map_get k m
  end.
Proof.
  induction l as [|a l IH] using rev_ind; [reflexivity|].
  rewrite itemMap_of_snoc, Map_get_set, rev_app_distr. cbn. unfold hasId at 1.
  destruct (String.eqb (id a) k); [reflexivity | exact IH].
Qed.

Lemma keyed_values_ids m : keyed_list m -> map id (Map_values m) = m.*1.
Proof.
  unfold Map_values. induction 1 as [|[k v] m H _ IH]; cbn in *; [reflexivity|].
  rewrite H. f_equal. exact IH.
Qed.

Lemma keyed_values_find m k :
  keyed_list m -> List.find (hasId k) (Map_values m) = Map_get k m.
Proof.
  unfold Map_values, Map_get, hasId.
  induction 1 as [|[k0 v] m H _ IH]; cbn in *; [reflexivity|].
  rewrite H. destruct (String.eqb k0 k); [reflexivity | exact IH].
Qed.

Lemma find_filter_unique (l : list MediaItem) k item :
  NoDup (map id l) -> List.find (hasId k) l = Some item ->
  List.filter (hasId k) l = [item].
Proof.
  induction l as [|a l IH]; cbn; [discriminate|]. intros Hnd.
  apply NoDup_cons in Hnd as [Ha Hnd].
  destruct (hasId k a) eqn:E.
  - intros [= ->]. f_equal.
    unfold hasId in E. apply String.eqb_eq in E.
    clear IH. induction l as [|b l IHl]; [reflexivity|]. cbn in *.
    apply not_elem_of_cons in Ha as [Hb Ha]. apply NoDup_cons in Hnd as [_ Hnd].
    assert (hasId k b = false) as ->.
    { unfold hasId. apply String.eqb_neq. congruence. }
    apply IHl; assumption.
  - intros H. apply IH; assumption.
Qed.

(** *** The store *)

(** The key of a record of the store is its [id]. *)
Definition keyed (db : gmap string MediaItem) : Prop :=
  forall k item, db !! k = Some item -> id item = k.

Lemma keyed_empty : keyed ∅.
Proof. intros k item H. rewrite lookup_empty in H. discriminate. Qed.

Lemma saveItem_keyed item db : keyed db -> keyed (saveItem item db).
Proof.
  intros H k i. unfold saveItem. rewrite lookup_insert.
  case_decide; [intros [= <-]; assumption | apply H].
Qed.

Lemma deleteItem_keyed k db : keyed db -> keyed (deleteItem k db).
Proof.
  intros H k' i. unfold deleteItem. rewrite lookup_delete.
  case_decide; [discriminate | apply H].
Qed.

Lemma find_store db k :
  keyed db -> List.find (hasId k) (rev (map_to_list db).*2) = db !! k.
Proof.
  intros Hk.
  assert (Hin : forall x, In x (rev (map_to_list db).*2) <-> db !! id x = Some x).
  { intros x. rewrite <- in_rev, <- list_elem_of_In, list_elem_of_fmap. split.
    - intros ([k' x'] & -> & H). apply elem_of_map_to_list in H.
      cbn. rewrite (Hk _ _ H). exact H.
    - intros H. exists (id x, x). split; [reflexivity|].
      apply elem_of_map_to_list. exact H. }
  destruct (List.find (hasId k) (rev (map_to_list db).*2)) as [x|] eqn:E.
  - apply find_some in E as [Hx Hid]. unfold hasId in Hid.
    apply String.eqb_eq in Hid. apply Hin in Hx. rewrite Hid in Hx. congruence.
  - destruct (db !! k) as [x|] eqn:Ex; [|reflexivity].
    assert (Hx : In x (rev (map_to_list db).*2)).
    { apply Hin. rewrite (Hk _ _ Ex). exact Ex. }
    apply (find_none _ _ E) in Hx. unfold hasId in Hx.
    apply String.eqb_neq in Hx. rewrite (Hk _ _ Ex) in Hx. congruence.
Qed.

(** The merge of [getAllItems]: no id twice; under an id, the record of the
    store if it has one, else the last bundled item with that id. *)
Lemma getAllItems_NoDup db local : NoDup (map id (getAllItems db local)).
Proof.
  unfold getAllItems. fold (itemMap_of (loadLocalConfig local) []).
  fold (itemMap_of (map_to_list db).*2 (itemMap_of (loadLocalConfig local) [])).
  destruct (itemMap_of_wf (loadLocalConfig local) []) as [H1 H2];
    [constructor | constructor |].
  destruct (itemMap_of_wf (map_to_list db).*2 _ H1 H2) as [H3 H4].
  rewrite keyed_values_ids; assumption.
Qed.

Lemma getAllItems_find db local k :
  keyed db ->
  List.find (hasId k) (getAllItems db local) =
  match db !! k with
  | Some item => Some item
  | None => List.find (hasId k) (rev (loadLocalConfig local))
  end.
Proof.
  intros Hk. unfold getAllItems. fold (itemMap_of (loadLocalConfig local) []).
  fold (itemMap_of (map_to_list db).*2 (itemMap_of (loadLocalConfig local) [])).
  destruct (itemMap_of_wf (loadLocalConfig local) []) as [H1 H2];
    [constructor | constructor |].
  destruct (itemMap_of_wf (map_to_list db).*2 _ H1 H2) as [H3 H4].
  rewrite keyed_values_find by exact H4.
  rewrite itemMap_of_get, find_store by exact Hk.
  destruct (db !! k); [reflexivity|].
  rewrite itemMap_of_get. destruct (List.find _ _); reflexivity.
Qed.

(** *** Export and import *)

Section Codec.

Variable fetch : string -> option Blob.
Variable now : string.
Variable readAsDataURL : Blob -> string.

(** The name under which [exportGamePack] files the blob of an item. *)
Definition mediaPath (item : MediaItem) (blob : Blob) : string :=
  "media/" +:+ id item +:+ "." +:+ getExtension (Some (blob_type blob)) (url item) (type item).

(** The copy of an item that goes into the manifest. *)
Definition exportCopy (item : MediaItem) : MediaItem :=
  match fetchMedia fetch item with
  | Some blob => setUrl (mediaPath item blob) item
  | None => item
  end.

Definition addMedia (zip : gmap string ZipObject) (item : MediaItem) : gmap string ZipObject :=
  match fetchMedia fetch item with
  | Some blob => zip_add (mediaPath item blob) (blob_data blob) zip
  | None => zip
  end.

Lemma exportItem_split zip processed item :
  exportItem fetch (zip, processed) item = (addMedia zip item, processed ++ [exportCopy item]).
Proof.
  unfold exportItem, addMedia, exportCopy, mediaPath.
  destruct (fetchMedia fetch item); reflexivity.
Qed.

Lemma foldl_exportItem l zip processed :
  foldl (exportItem fetch) (zip, processed) l =
  (foldl addMedia zip l, processed ++ map exportCopy l).
Proof.
  revert zip processed. induction l as [|a l IH]; intros zip processed; cbn [foldl map].
  - rewrite app_nil_r. reflexivity.
  - rewrite exportItem_split, IH, <- app_assoc. reflexivity.
Qed.

Lemma exportCopy_id item : id (exportCopy item) = id item.
Proof. unfold exportCopy. destruct (fetchMedia fetch item); reflexivity. Qed.

Lemma mediaPath_inj item1 blob1 item2 blob2 :
  mediaPath item1 blob1 = mediaPath item2 blob2 -> id item1 = id item2.
Proof.
  unfold mediaPath. intros E. apply String.app_inj in E.
  eapply filename_inj; [| |exact E]; apply getExtension_nodot.
Qed.

Lemma mediaPath_startsWith item blob : startsWith (mediaPath item blob) "media/" = true.
Proof. apply startsWith_append. Qed.

Lemma addMedia_other l zip name :
  (forall x blob, x ∈ l -> fetchMedia fetch x = Some blob -> mediaPath x blob <> name) ->
  foldl addMedia zip l !! name = zip !! name.
Proof.
  revert zip. induction l as [|a l IH]; intros zip H; cbn [foldl]; [reflexivity|].
  rewrite IH.
  - unfold addMedia. destruct (fetchMedia fetch a) as [blob|] eqn:E; [|reflexivity].
    unfold zip_add. apply lookup_insert_ne. apply (H a blob); [left | exact E].
  - intros x blob Hx. apply H. right. exact Hx.
Qed.

(** The blob of an item is in the archive under the name of the item: no
    other item of the collection is filed under that name. *)
Lemma addMedia_lookup l zip item blob :
  NoDup (map id l) -> item ∈ l -> fetchMedia fetch item = Some blob ->
  foldl addMedia zip l !! mediaPath item blob = Some (File (blob_data blob)).
Proof.
  revert zip. induction l as [|a l IH]; intros zip Hnd Hin Hf; [inversion Hin|].
  cbn in Hnd. apply NoDup_cons in Hnd as [Ha Hnd]. cbn [foldl].
  apply elem_of_cons in Hin as [-> | Hin].
  - rewrite addMedia_other.
    + unfold addMedia. rewrite Hf. apply lookup_insert_eq.
    + intros x b Hx _ E. apply mediaPath_inj in E. apply Ha.
      rewrite <- E. apply list_elem_of_fmap. exists x. split; [reflexivity | exact Hx].
  - apply IH; assumption.
Qed.

(** What [importGamePack] stores for an item of the manifest, if anything. *)
Definition imported (zip : gmap string ZipObject) (item : MediaItem) : option MediaItem :=
  if startsWith (url item) "media/" then
    match zip_file (url item) zip with
    | Some data => Some (setUrl (readAsDataURL {| blob_type := ""; blob_data := data |}) item)
    | None => None
    end
  else if startsWith (url item) "data:" then Some item
  else None.

Lemma importItem_split zip db count item :
  importItem readAsDataURL zip (db, count) item =
  match imported zip item with
  | Some item' => (saveItem item' db, S count)
  | None => (db, count)
  end.
Proof.
  unfold importItem, imported.
  destruct (startsWith (url item) "media/").
  - destruct (zip_file (url item) zip); reflexivity.
  - destruct (startsWith (url item) "data:"); reflexivity.
Qed.

Lemma imported_id zip item item' : imported zip item = Some item' -> id item' = id item.
Proof.
  unfold imported. repeat case_match; intros [= <-]; reflexivity.
Qed.

(** The count returned: the items that are stored. *)
Lemma foldl_importItem_count zip l db count :
  (foldl (importItem readAsDataURL zip) (db, count) l).2 =
  (count + length (List.filter (fun item => nonNull (imported zip item)) l))%nat.
Proof.
  revert db count. induction l as [|a l IH]; intros db count; cbn [foldl List.filter]; [cbn; lia|].
  rewrite importItem_split. destruct (imported zip a); cbn [nonNull]; rewrite IH; cbn; lia.
Qed.

Lemma foldl_importItem_other zip l db count k :
  (forall x, x ∈ l -> id x <> k) ->
  (foldl (importItem readAsDataURL zip) (db, count) l).1 !! k = db !! k.
Proof.
  revert db count. induction l as [|a l IH]; intros db count H; cbn [foldl]; [reflexivity|].
  rewrite importItem_split.
  assert (Ha : id a <> k) by (apply H; left).
  assert (Hl : forall x, x ∈ l -> id x <> k) by (intros x Hx; apply H; right; exact Hx).
  destruct (imported zip a) as [a'|] eqn:E; rewrite IH by exact Hl; [|reflexivity].
  unfold saveItem. apply lookup_insert_ne. rewrite (imported_id _ _ _ E). exact Ha.
Qed.

(** An item of the manifest that is stored is in the store after the
    import, marked as custom, when no other item of the manifest has its
    id. *)
Lemma foldl_importItem_lookup zip l db count item item' :
  NoDup (map id l) -> item ∈ l -> imported zip item = Some item' ->
  (foldl (importItem readAsDataURL zip) (db, count) l).1 !! id item
  = Some (setIsCustom item').
Proof.
  revert db count. induction l as [|a l IH]; intros db count Hnd Hin Hi; [inversion Hin|].
  cbn in Hnd. apply NoDup_cons in Hnd as [Ha Hnd]. cbn [foldl].
  apply elem_of_cons in Hin as [-> | Hin].
  - rewrite importItem_split, Hi. rewrite foldl_importItem_other.
    + unfold saveItem. rewrite (imported_id _ _ _ Hi). apply lookup_insert_eq.
    + intros x Hx E. apply Ha. rewrite <- E.
      apply list_elem_of_fmap. exists x. split; [reflexivity | exact Hx].
  - rewrite importItem_split. destruct (imported zip a); apply IH; assumption.
Qed.

End Codec.

(** *** The claims about the store and the codec *)

Section CodecClaims.

Variable fetch : string -> option Blob.
Variable now : string.
Variable readAsDataURL : Blob -> string.

Lemma mediaPath_not_manifest item blob :
  mediaPath item blob <> "data.json" /\ mediaPath item blob <> "game_data.json".
Proof. unfold mediaPath. rewrite append_cons. split; discriminate. Qed.

(** C4 (round trip): the export of a non-empty collection succeeds, the
    import of the archive it hands over succeeds, and for every item of the
    collection whose media was fetched at export the archive holds the bytes
    fetched under [media/<id>.<ext>] and the store after the import holds,
    under the id of the item, an item with the same [id], [isReal] and
    [title] whose [url] is the data URL of those bytes. *)
Theorem export_import_roundtrip (db db0 : gmap string MediaItem) (local : option Payload)
    (Hne : getAllItems db local <> []) :
  exists pack,
    exportGamePack fetch now db local = Ok pack /\
    exists db' count,
      importGamePack readAsDataURL (content pack) db0 = Ok (db', count) /\
      forall item blob,
        item ∈ getAllItems db local -> fetchMedia fetch item = Some blob ->
        zip_file (mediaPath item blob) (content pack) = Some (blob_data blob) /\
        exists item',
          db' !! id item = Some item' /\
          id item' = id item /\ isReal item' = isReal item /\ title item' = title item /\
          url item' = readAsDataURL {| blob_type := ""; blob_data := blob_data blob |}.
Proof.
  unfold exportGamePack.
  destruct (getAllItems db local) as [|i0 rest] eqn:Eall; [congruence|].
  rewrite <- Eall. clear Hne.
  assert ((length (getAllItems db local) =? 0)%nat = false) as ->.
  { rewrite Eall. reflexivity. }
  rewrite foldl_exportItem. cbn [app].
  set (media := foldl (addMedia fetch) (zip_folder "media" ∅) (getAllItems db local)).
  set (processed := map (exportCopy fetch) (getAllItems db local)).
  set (manifest := {| version := 1; timestamp := now; items := processed |}).
  eexists; split; [reflexivity|]. cbn [content].
  set (zip := zip_add "data.json" _ (zip_add "game_data.json" _ media)).
  assert (Hzip : forall item blob,
             item ∈ getAllItems db local -> fetchMedia fetch item = Some blob ->
             zip_file (mediaPath item blob) zip = Some (blob_data blob)).
  { intros item blob Hin Hf. unfold zip_file, zip, zip_add.
    destruct (mediaPath_not_manifest item blob) as [N1 N2].
    rewrite !lookup_insert_ne by congruence.
    unfold media. rewrite (addMedia_lookup fetch _ _ item blob); auto.
    apply getAllItems_NoDup. }
  unfold importGamePack, importRun.
  assert (manifestFile zip = Some (JsonText (JManifest manifest))) as ->.
  { unfold manifestFile, zip_file, zip, zip_add. rewrite lookup_insert_eq. reflexivity. }
  cbn [JSON_parse]. change (items manifest) with processed.
  destruct (foldl (importItem readAsDataURL zip) (db0, 0%nat) processed)
    as [db' count] eqn:Eimp. cbn [bindR].
  exists db', count. split; [reflexivity|].
  intros item blob Hin Hf. split; [apply Hzip; assumption|].
  assert (Himp : imported readAsDataURL zip (exportCopy fetch item) =
                 Some (setUrl (readAsDataURL {| blob_type := ""; blob_data := blob_data blob |})
                         (setUrl (mediaPath item blob) item))).
  { unfold exportCopy. rewrite Hf. unfold imported.
    cbn [url setUrl]. rewrite mediaPath_startsWith, (Hzip item blob Hin Hf). reflexivity. }
  eexists. split.
  - replace db' with (foldl (importItem readAsDataURL zip) (db0, 0%nat) processed).1
      by (rewrite Eimp; reflexivity).
    rewrite <- (exportCopy_id fetch item).
    apply foldl_importItem_lookup; [| |exact Himp].
    + unfold processed. rewrite map_map.
      rewrite (map_ext _ id (exportCopy_id fetch)). apply getAllItems_NoDup.
    + unfold processed. apply list_elem_of_fmap. exists item. split; [reflexivity | exact Hin].
  - repeat split.
Qed.

(** C5 (the store wins over the bundled manifest): after [saveItem] of an
    item, [getAllItems] lists no id twice and exactly one item with the id
    of the saved item, namely the stored copy, whatever the bundled manifest
    holds; in general the item listed under an id is the record of the store
    when it has one, else the last bundled item with that id. *)
Theorem getAllItems_store_overrides_bundled (db : gmap string MediaItem)
    (local : option Payload) (item : MediaItem) (Hkeyed : keyed db) :
  let all := getAllItems (saveItem item db) local in
  NoDup (map id all) /\
  List.filter (hasId (id item)) all = [setIsCustom item] /\
  (forall k,
      List.find (hasId k) all =
      match saveItem item db !! k with
      | Some stored => Some stored
      | None => List.find (hasId k) (rev (loadLocalConfig local))
      end).
Proof.
  cbn zeta. pose proof (saveItem_keyed item db Hkeyed) as Hk.
  split; [apply getAllItems_NoDup|]. split.
  - apply find_filter_unique; [apply getAllItems_NoDup|].
    rewrite getAllItems_find by exact Hk.
    unfold saveItem. rewrite lookup_insert_eq. reflexivity.
  - intros k. apply getAllItems_find. exact Hk.
Qed.

(** C6 (nothing to export): on an empty collection [exportGamePack] throws
    "No items to export"; it returns no download, hence no archive. *)
Theorem export_of_nothing_throws (db : gmap string MediaItem) (local : option Payload)
    (Hempty : getAllItems db local = []) :
  exportGamePack fetch now db local = Throws NoItemsToExport /\
  forall pack, exportGamePack fetch now db local <> Ok pack.
Proof.
  unfold exportGamePack. rewrite Hempty. split; [reflexivity | discriminate].
Qed.

(** The caller of [importGamePack] sees the outcome of the call. *)
Lemma importGamePack_importRun (zip : gmap string ZipObject) (db : gmap string MediaItem) :
  importGamePack readAsDataURL zip db =
  bindR (importRun readAsDataURL zip db).2
        (fun count => Ok ((importRun readAsDataURL zip db).1, count)).
Proof.
  unfold importGamePack. destruct (importRun readAsDataURL zip db) as [db' r]. reflexivity.
Qed.

(** C7, as the code has it: [importGamePack] throws "Invalid Game Pack:
    missing ..." exactly when the archive has neither [data.json] nor
    [game_data.json]; [data.json] is read when both are there; a manifest
    that is not JSON makes it throw the SyntaxError of [JSON.parse], the
    manifest [null] a TypeError; a manifest whose [items] is absent or not an
    array makes it throw "Invalid Game Pack: corrupt data format"; in all
    these cases the store is left as it was.  When the elements of [items]
    are items, it returns the number of items stored, those with a [media/]
    url whose file is in the archive and those with a data url, and 0 is a
    result like any other.  When they are items up to an element of which
    [item.url.startsWith] cannot be read, it throws a TypeError and the
    store holds what the loop wrote for the items in front of that
    element. *)
Theorem importGamePack_outcomes (zip : gmap string ZipObject) (db : gmap string MediaItem) :
  (importGamePack readAsDataURL zip db = Throws InvalidGamePack <->
   zip_file "data.json" zip = None /\ zip_file "game_data.json" zip = None) /\
  (manifestFile zip = None -> (importRun readAsDataURL zip db).1 = db) /\
  (forall text, zip_file "data.json" zip = Some text -> manifestFile zip = Some text) /\
  (forall text,
      manifestFile zip = Some text ->
      match JSON_parse text with
      | Throws e =>
          importGamePack readAsDataURL zip db = Throws SyntaxError /\
          (importRun readAsDataURL zip db).1 = db
      | Ok JNull =>
          importGamePack readAsDataURL zip db = Throws TypeError /\
          (importRun readAsDataURL zip db).1 = db
      | Ok JNoItems | Ok JItemsNotArray =>
          importGamePack readAsDataURL zip db = Throws CorruptGamePack /\
          (importRun readAsDataURL zip db).1 = db
      | Ok (JManifest m) =>
          exists db',
            importGamePack readAsDataURL zip db =
              Ok (db', length (List.filter
                                 (fun item =>
                                    if startsWith (url item) "media/"
                                    then nonNull (zip_file (url item) zip)
                                    else startsWith (url item) "data:")
                                 (items m))) /\
            (importRun readAsDataURL zip db).1 = db' /\
            (items m = [] -> db' = db)
      | Ok (JItemsIllTyped before) =>
          importGamePack readAsDataURL zip db = Throws TypeError /\
          (importRun readAsDataURL zip db).1 =
            (foldl (importItem readAsDataURL zip) (db, 0%nat) before).1
      end).
Proof.
  split; [|split; [|split]].
  - unfold importGamePack, importRun, manifestFile. split.
    + destruct (zip_file "data.json" zip) as [text|].
      * destruct text as [bytes|[| | |m|before]]; cbn [JSON_parse bindR];
          try destruct (foldl _ _ _); discriminate.
      * destruct (zip_file "game_data.json" zip) as [text|]; [|auto].
        destruct text as [bytes|[| | |m|before]]; cbn [JSON_parse bindR];
          try destruct (foldl _ _ _); discriminate.
    + intros [-> ->]. reflexivity.
  - intros H. unfold importRun. rewrite H. reflexivity.
  - intros text H. unfold manifestFile. rewrite H. reflexivity.
  - intros text H. unfold importGamePack, importRun. rewrite H.
    destruct text as [bytes|[| | |m|before]]; cbn [JSON_parse bindR];
      try (split; reflexivity).
    + destruct (foldl (importItem readAsDataURL zip) (db, 0%nat) (items m))
        as [db' count] eqn:E.
      exists db'. split; [|split; [reflexivity|]].
      * cbn [bindR]. f_equal. f_equal.
        replace count with (foldl (importItem readAsDataURL zip) (db, 0%nat) (items m)).2
          by (rewrite E; reflexivity).
        rewrite foldl_importItem_count. cbn [Nat.add]. f_equal.
        apply filter_ext. intros item. unfold imported.
        destruct (startsWith (url item) "media/").
        -- destruct (zip_file (url item) zip); reflexivity.
        -- destruct (startsWith (url item) "data:"); reflexivity.
      * intros Em. rewrite Em in E. cbn in E. congruence.
    + destruct (foldl (importItem readAsDataURL zip) (db, 0%nat) before)
        as [db' count]. split; reflexivity.
Qed.

End CodecClaims.

Lemma export_import_roundtrip_witness :
  exists pack,
    exportGamePack fetchData today store bundled = Ok pack /\
    exists db' count,
      importGamePack dataUrlOf (content pack) ∅ = Ok (db', count) /\
      exists item',
        db' !! "x" = Some item' /\ isReal item' = true /\
        url item' = "data:application/octet-stream;base64,iVBORw==".
Proof.
  destruct (export_import_roundtrip fetchData today dataUrlOf store ∅ bundled)
    as (pack & Hexp & db' & count & Himp & Hitems); [vm_compute; discriminate|].
  exists pack. split; [exact Hexp|]. exists db', count. split; [exact Himp|].
  destruct (Hitems (setIsCustom (photo "x" true)) png) as (_ & item' & H1 & _ & H2 & _ & H3).
  - vm_compute. left.
  - reflexivity.
  - exists item'. split; [exact H1 | split; [exact H2 | exact H3]].
Defined.

Lemma getAllItems_store_overrides_bundled_witness :
  List.filter (hasId "x") (getAllItems (saveItem (photo "x" true) ∅) bundled)
  = [setIsCustom (photo "x" true)].
Proof.
  exact (proj1 (proj2
    (getAllItems_store_overrides_bundled ∅ bundled (photo "x" true) keyed_empty))).
Defined.

Lemma export_of_nothing_throws_witness :
  exportGamePack fetchData today ∅ None = Throws NoItemsToExport.
Proof.
  exact (proj1 (export_of_nothing_throws fetchData today ∅ None eq_refl)).
Defined.

Lemma importGamePack_outcomes_witness :
  (exists db', importGamePack dataUrlOf hollowPack ∅ = Ok (db', 0%nat)) /\
  importGamePack dataUrlOf ∅ ∅ = Throws InvalidGamePack /\
  importGamePack dataUrlOf raggedPack ∅ = Throws TypeError /\
  (importRun dataUrlOf raggedPack ∅).1 = saveItem (photo "x" true) ∅.
Proof.
  destruct (importGamePack_outcomes dataUrlOf hollowPack ∅) as (_ & _ & _ & Hcount).
  destruct (importGamePack_outcomes dataUrlOf ∅ ∅) as (Hinvalid & _).
  destruct (importGamePack_outcomes dataUrlOf raggedPack ∅) as (_ & _ & _ & Hragged).
  split; [|split].
  - specialize (Hcount _ eq_refl). cbn in Hcount.
    destruct Hcount as (db' & Hdb' & _). exists db'. exact Hdb'.
  - apply Hinvalid. split; reflexivity.
  - exact (Hragged _ eq_refl).
Defined.

(** C7 as the specification states it fails: an archive whose [data.json]
    is not JSON has a manifest alias, and the import gives neither of the
    two named errors nor a count; the same for the JSON text [null], and for
    a manifest whose [items] is a list with an element that has no [url],
    after the item in front of it was stored. *)
Lemma import_of_unparsable_manifest :
  zip_file "data.json" brokenPack <> None /\
  importGamePack dataUrlOf brokenPack ∅ = Throws SyntaxError /\
  zip_file "data.json" nullPack <> None /\
  importGamePack dataUrlOf nullPack ∅ = Throws TypeError /\
  zip_file "data.json" raggedPack <> None /\
  importGamePack dataUrlOf raggedPack ∅ = Throws TypeError /\
  (importRun dataUrlOf raggedPack ∅).1 !! "x" = Some (setIsCustom (photo "x" true)).
Proof. repeat split; discriminate. Qed.

End DbFacts.

Module ReviewScreenFacts.
Import ReviewScreen.

(** A pending timeout is the one its ref names, and its id is not 0. *)
Definition tracked (s : State) (t : Timer) : Prop :=
  (1 <= timerId t)%nat /\
  match callback t with
  | IdleCallback => idleTimerRef s = Some (timerId t)
  | ResetCallback => resetTimerRef s = Some (timerId t)
  end.

(** At most one timeout is pending, the one the refs track. *)
Definition pending_tracked (s : State) : Prop :=
  timers s = [] \/ exists t, timers s = [t] /\ tracked s t.

(** In every state of the screen: ids start at 1, the ref agrees with the
    state cell, and at most one timeout is pending, a tracked one. *)
Record Inv (s : State) : Prop := mkInv {
  inv_ids : (1 <= nextTimerId s)%nat;
  inv_ref : isWarningVisibleRef s = showIdleWarning s;
  inv_timers : pending_tracked s
}.

Lemma clearIfSet_eq ref s : clearIfSet ref s = setTimers (timers (clearIfSet ref s)) s.
Proof.
  unfold clearIfSet, clearTimeout. destruct s, ref as [tid|]; cbn; [|reflexivity].
  destruct (tid =? 0)%nat; reflexivity.
Qed.

Lemma clearIfSet_timers ref s :
  timers (clearIfSet ref s) =
  match ref with
  | Some tid =>
      if (tid =? 0)%nat then timers s
      else List.filter (fun t => negb (timerId t =? tid)%nat) (timers s)
  | None => timers s
  end.
Proof.
  unfold clearIfSet, clearTimeout. destruct ref as [tid|]; [|reflexivity].
  destruct (tid =? 0)%nat; reflexivity.
Qed.

Lemma clearIfSet_resetTimerRef ref s : resetTimerRef (clearIfSet ref s) = resetTimerRef s.
Proof. rewrite clearIfSet_eq. reflexivity. Qed.

Lemma clear_both_timers s :
  pending_tracked s ->
  timers (clearIfSet (resetTimerRef s) (clearIfSet (idleTimerRef s) s)) = [].
Proof.
  intros Ht. rewrite !clearIfSet_timers.
  destruct Ht as [-> | (t & -> & Hid & Hcb)].
  - repeat case_match; reflexivity.
  - assert (Hz : (timerId t =? 0)%nat = false) by (apply Nat.eqb_neq; lia).
    destruct (callback t).
    + rewrite Hcb, Hz. cbn. rewrite Nat.eqb_refl. cbn.
      repeat case_match; reflexivity.
    + rewrite Hcb, Hz. destruct (idleTimerRef s) as [i|]; cbn.
      * destruct (i =? 0)%nat; cbn; [rewrite Nat.eqb_refl; reflexivity|].
        destruct (timerId t =? i)%nat; cbn; [reflexivity|].
        rewrite Nat.eqb_refl. reflexivity.
      * rewrite Nat.eqb_refl. reflexivity.
Qed.

Lemma clear_both s :
  pending_tracked s ->
  clearIfSet (resetTimerRef (clearIfSet (idleTimerRef s) s)) (clearIfSet (idleTimerRef s) s)
  = setTimers [] s.
Proof.
  intros H. rewrite clearIfSet_resetTimerRef.
  etransitivity; [apply clearIfSet_eq|].
  rewrite (clear_both_timers s H).
  etransitivity; [apply f_equal, clearIfSet_eq|].
  destruct s; reflexivity.
Qed.

(** [startIdleTimer] leaves exactly one timeout pending: the new idle
    timeout, due [IDLE_TIMEOUT] from now. *)
Lemma startIdleTimer_eq s :
  pending_tracked s ->
  startIdleTimer s =
  setIdleTimerRef (Some (nextTimerId s))
    (setNextTimerId (S (nextTimerId s))
      (setTimers [mkTimer (nextTimerId s) (clock s + IDLE_TIMEOUT) IdleCallback] s)).
Proof.
  intros H. unfold startIdleTimer. rewrite (clear_both s H).
  destruct s; reflexivity.
Qed.

Lemma startIdleTimer_Inv s :
  (1 <= nextTimerId s)%nat -> pending_tracked s ->
  Inv (commit (startIdleTimer s)).
Proof.
  intros Hid Ht. rewrite (startIdleTimer_eq s Ht). split; cbn.
  - lia.
  - reflexivity.
  - right. eexists; split; [reflexivity|]. split; [exact Hid | reflexivity].
Qed.

Lemma watchdog_mount_Inv t0 tid0 : (1 <= tid0)%nat -> Inv (mount t0 tid0).
Proof.
  intros H. unfold mount. apply startIdleTimer_Inv; [exact H | left; reflexivity].
Qed.

Lemma runCallback_Inv t s :
  (1 <= nextTimerId s)%nat -> timers s = [] -> Inv (commit (runCallback t s)).
Proof.
  intros Hid Ht. destruct t; cbn; split; unfold pending_tracked; cbn;
    rewrite ?Ht; try lia; try reflexivity.
  - right. eexists; split; [reflexivity|]. split; [exact Hid | reflexivity].
  - left. reflexivity.
Qed.

Lemma runTimers_Inv fuel target s : Inv s -> Inv (runTimers fuel target s).
Proof.
  revert s. induction fuel as [|fuel IH]; intros s H; [exact H|]. cbn [runTimers].
  destruct H as [Hid Href [Ht | (t & Ht & Htr)]]; rewrite Ht; cbn [earliest].
  - split; [exact Hid | exact Href | left; exact Ht].
  - destruct (due t <=? target); [|split; [exact Hid | exact Href | right; eauto]].
    apply IH. apply runCallback_Inv.
    + exact Hid.
    + cbn. rewrite Ht. cbn. rewrite Nat.eqb_refl. reflexivity.
Qed.

Lemma commit_id s : isWarningVisibleRef s = showIdleWarning s -> commit s = s.
Proof. destruct s; cbn. intros ->. reflexivity. Qed.

Lemma watchdog_step_Inv s ev : Inv s -> Inv (step s ev).
Proof.
  intros H. pose proof H as [Hid Href Ht]. destruct ev as [| |dt]; cbn [step].
  - unfold throttledHandler, handleUserActivity.
    destruct (1000 <? clock s - lastRun s); [|rewrite commit_id; assumption].
    destruct (isWarningVisibleRef s) eqn:E.
    + split; [exact Hid | reflexivity | exact Ht].
    + rewrite (startIdleTimer_eq s Ht). split; unfold pending_tracked; cbn.
      * lia.
      * reflexivity.
      * right. eexists; split; [reflexivity|]. split; [exact Hid | reflexivity].
  - destruct (showIdleWarning s); [|exact H].
    unfold handleResumeGame. apply startIdleTimer_Inv; [exact Hid | exact Ht].
  - unfold advance.
    destruct (runTimers_Inv (weight (timers s)) (clock s + dt) s H) as [Hid' Href' Ht'].
    split; [exact Hid' | exact Href' | exact Ht'].
Qed.

Lemma watchdog_run_Inv t0 tid0 evs : (1 <= tid0)%nat -> Inv (run t0 tid0 evs).
Proof.
  intros H. unfold run. generalize (watchdog_mount_Inv t0 tid0 H). generalize (mount t0 tid0).
  induction evs as [|ev evs IH]; intros s Hs; cbn; [exact Hs|].
  apply IH, watchdog_step_Inv, Hs.
Qed.

(** From a state whose only pending timeout is an idle timeout due
    [IDLE_TIMEOUT] from now, with the warning off: the warning is on after
    [dt] milliseconds exactly when [dt] is at least 60000, and
    [onBackToHome] has been called, once, exactly when [dt] is at least
    75000; the clock has moved by [dt] and no timeout due by then is left. *)
Lemma advance_from_restart s tid dt :
  timers s = [mkTimer tid (clock s + IDLE_TIMEOUT) IdleCallback] ->
  showIdleWarning s = false -> 0 <= dt ->
  showIdleWarning (advance dt s) = (60000 <=? dt) /\
  backToHome (advance dt s) = (if 75000 <=? dt then S (backToHome s) else backToHome s) /\
  clock (advance dt s) = clock s + dt /\
  timers (advance dt s) =
    (if 75000 <=? dt then []
     else if 60000 <=? dt
          then [mkTimer (nextTimerId s) (clock s + 75000) ResetCallback]
          else [mkTimer tid (clock s + 60000) IdleCallback]).
Proof.
  intros Ht Hw Hdt. unfold advance. rewrite Ht.
  cbn [weight foldr callback Nat.add]. cbn [runTimers]. rewrite Ht.
  cbn [earliest due timerId callback]. unfold IDLE_TIMEOUT.
  destruct (Z.leb_spec (clock s + 60000) (clock s + dt)) as [H60 | H60].
  - assert ((60000 <=? dt) = true) as -> by lia.
    cbn. rewrite Ht. cbn. rewrite Nat.eqb_refl. cbn.
    unfold COUNTDOWN_DURATION.
    replace (Z.max (clock s) (clock s + 60000) + 15000) with (clock s + 75000) by lia.
    destruct (Z.leb_spec (clock s + 75000) (clock s + dt)) as [H75 | H75].
    + assert ((75000 <=? dt) = true) as -> by lia.
      cbn. rewrite Nat.eqb_refl. cbn. repeat split; lia.
    + assert ((75000 <=? dt) = false) as -> by lia.
      cbn. repeat split; lia.
  - assert ((60000 <=? dt) = false) as -> by lia.
    assert ((75000 <=? dt) = false) as -> by lia.
    cbn. rewrite Ht, Hw. repeat split; lia.
Qed.

(** *** Time passes in steps as it passes at once *)

(** The state after the pending timeout [t] has fired. *)
Definition fired (t : Timer) (s : State) : State :=
  commit (runCallback (callback t)
            (clearTimeout (timerId t) (setClock (Z.max (clock s) (due t)) s))).

Lemma fired_clock t s : clock (fired t s) = Z.max (clock s) (due t).
Proof. unfold fired. destruct (callback t); reflexivity. Qed.

Lemma fired_weight t s :
  timers s = [t] -> S (weight (timers (fired t s))) = weight (timers s).
Proof.
  intros Ht. unfold fired. rewrite Ht.
  destruct t as [n d [|]]; cbn; rewrite Ht; cbn; rewrite Nat.eqb_refl; reflexivity.
Qed.

Lemma fired_Inv t s : Inv s -> timers s = [t] -> Inv (fired t s).
Proof.
  intros [Hid _ _] Ht. apply runCallback_Inv; [exact Hid|].
  cbn. rewrite Ht. cbn. rewrite Nat.eqb_refl. reflexivity.
Qed.

Lemma advance_nil s dt :
  timers s = [] -> advance dt s = setClock (Z.max (clock s) (clock s + dt)) s.
Proof. intros Ht. unfold advance. rewrite Ht. reflexivity. Qed.

Lemma advance_wait s t dt :
  timers s = [t] -> clock s + dt < due t ->
  advance dt s = setClock (Z.max (clock s) (clock s + dt)) s.
Proof.
  intros Ht Hlt. unfold advance. rewrite Ht.
  assert (Hs : forall fuel, runTimers fuel (clock s + dt) s = s).
  { intros [|fuel]; [reflexivity|]. cbn [runTimers]. rewrite Ht. cbn [earliest].
    assert ((due t <=? clock s + dt) = false) as -> by lia. reflexivity. }
  rewrite Hs. reflexivity.
Qed.

Lemma advance_fire s t dt :
  timers s = [t] -> due t <= clock s + dt ->
  advance dt s = advance (clock s + dt - Z.max (clock s) (due t)) (fired t s).
Proof.
  intros Ht Hle. unfold advance at 1 2.
  rewrite <- (fired_weight t s Ht). cbn [runTimers]. rewrite Ht. cbn [earliest].
  assert ((due t <=? clock s + dt) = true) as -> by lia.
  fold (fired t s). rewrite fired_clock.
  replace (Z.max (clock s) (due t) + (clock s + dt - Z.max (clock s) (due t)))
    with (clock s + dt) by lia.
  reflexivity.
Qed.

Lemma setClock_setClock c c' s : setClock c (setClock c' s) = setClock c s.
Proof. reflexivity. Qed.

Lemma advance_add_weight w s a b :
  weight (timers s) = w -> Inv s -> 0 <= a -> 0 <= b ->
  advance b (advance a s) = advance (a + b) s.
Proof.
  revert s a b. induction w as [|w IH]; intros s a b Hw HI Ha Hb;
    pose proof HI as [_ _ [Ht | (t & Ht & _)]].
  - rewrite (advance_nil s a Ht), (advance_nil s (a + b) Ht).
    rewrite advance_nil by exact Ht. cbn [clock setClock]. rewrite setClock_setClock.
    f_equal. lia.
  - rewrite Ht in Hw. destruct t as [n d [|]]; discriminate.
  - rewrite Ht in Hw. discriminate.
  - destruct (Z.le_gt_cases (due t) (clock s + a)) as [Hdue | Hdue].
    + rewrite (advance_fire s t a Ht Hdue).
      rewrite (advance_fire s t (a + b) Ht) by lia.
      rewrite IH.
      * f_equal. lia.
      * pose proof (fired_weight t s Ht). lia.
      * apply fired_Inv; assumption.
      * lia.
      * exact Hb.
    + rewrite (advance_wait s t a Ht) by lia.
      replace (Z.max (clock s) (clock s + a)) with (clock s + a) by lia.
      destruct (Z.le_gt_cases (due t) (clock s + a + b)) as [Hdue' | Hdue'].
      * rewrite (advance_fire (setClock (clock s + a) s) t b Ht) by (cbn; lia).
        rewrite (advance_fire s t (a + b) Ht) by lia.
        cbn [clock setClock]. unfold fired. cbn [clock setClock].
        rewrite setClock_setClock.
        replace (Z.max (clock s + a) (due t)) with (Z.max (clock s) (due t)) by lia.
        f_equal. lia.
      * rewrite (advance_wait (setClock (clock s + a) s) t b Ht) by (cbn; lia).
        rewrite (advance_wait s t (a + b) Ht) by lia.
        cbn [clock setClock]. rewrite setClock_setClock. f_equal. lia.
Qed.

Lemma advance_add s a b :
  Inv s -> 0 <= a -> 0 <= b -> advance b (advance a s) = advance (a + b) s.
Proof. apply (advance_add_weight (weight (timers s))). reflexivity. Qed.

(** After [dt] milliseconds the clock has moved by [dt] and no timeout due
    by then is left pending: the fuel of [advance] is enough. *)
Lemma advance_complete_weight w s dt :
  weight (timers s) = w -> Inv s -> 0 <= dt ->
  clock (advance dt s) = clock s + dt /\
  Forall (fun t => clock s + dt < due t) (timers (advance dt s)).
Proof.
  revert s dt. induction w as [|w IH]; intros s dt Hw HI Hdt;
    pose proof HI as [_ _ [Ht | (t & Ht & _)]].
  - rewrite (advance_nil s dt Ht). cbn. rewrite Ht. split; [lia | constructor].
  - rewrite Ht in Hw. destruct t as [n d [|]]; discriminate.
  - rewrite (advance_nil s dt Ht). cbn. rewrite Ht. split; [lia | constructor].
  - destruct (Z.le_gt_cases (due t) (clock s + dt)) as [Hdue | Hdue].
    + rewrite (advance_fire s t dt Ht Hdue).
      destruct (IH (fired t s) (clock s + dt - Z.max (clock s) (due t))) as [Hc Hf].
      * pose proof (fired_weight t s Ht). lia.
      * apply fired_Inv; assumption.
      * lia.
      * rewrite fired_clock in Hc, Hf. split; [lia|].
        eapply Forall_impl; [exact Hf|]. cbn. intros. lia.
    + rewrite (advance_wait s t dt Ht) by lia. cbn. rewrite Ht.
      split; [lia | repeat constructor; lia].
Qed.

Lemma advance_complete s dt :
  Inv s -> 0 <= dt ->
  clock (advance dt s) = clock s + dt /\
  Forall (fun t => clock s + dt < due t) (timers (advance dt s)).
Proof. apply (advance_complete_weight (weight (timers s))). reflexivity. Qed.

(** *** The claim about the idle timers *)

(** The idle countdown was started from zero at time [t]: the warning is
    off and the only pending timeout is an idle timeout due [IDLE_TIMEOUT]
    after [t]; no expiry is pending. *)
Definition counting_from (t : Z) (s : State) : Prop :=
  showIdleWarning s = false /\ clock s = t /\
  exists tid, timers s = [mkTimer tid (t + IDLE_TIMEOUT) IdleCallback].

Lemma restart_counting s :
  pending_tracked s -> counting_from (clock s) (commit (handleResumeGame s)).
Proof.
  intros Ht. unfold handleResumeGame.
  rewrite startIdleTimer_eq by exact Ht.
  split; [reflexivity|]. split; [reflexivity|]. eexists. reflexivity.
Qed.

(** C8 (the idle timers).  In every state [s] the screen reaches:
    mounting starts the countdown from zero, and so does the resume action,
    whatever was pending, the expiry included, and so does an activity event
    while the warning is off, unless throttled; an activity event while the
    warning is on changes nothing but [lastRun]; from a countdown started
    from zero, with no activity, the warning is on after [dt] milliseconds
    exactly when [dt] is at least 60000 and [onBackToHome] has been called,
    once, exactly when [dt] is at least 75000; and waiting in two steps is
    waiting once. *)
Theorem idle_watchdog_timing (t0 : Z) (tid0 : nat) (evs : list Event)
    (Htid : (1 <= tid0)%nat) :
  let s := run t0 tid0 evs in
  counting_from t0 (mount t0 tid0) /\
  counting_from (clock s) (commit (handleResumeGame s)) /\
  (showIdleWarning s = true -> step s Resume = commit (handleResumeGame s)) /\
  (showIdleWarning s = false -> 1000 < clock s - lastRun s ->
   counting_from (clock s) (step s Activity)) /\
  (showIdleWarning s = true ->
   step s Activity = setLastRun (lastRun (step s Activity)) s) /\
  (forall s' t dt,
      counting_from t s' -> 0 <= dt ->
      showIdleWarning (advance dt s') = (60000 <=? dt) /\
      backToHome (advance dt s') =
        (if 75000 <=? dt then S (backToHome s') else backToHome s')) /\
  (forall a b, 0 <= a -> 0 <= b -> step (step s (Wait a)) (Wait b) = step s (Wait (a + b))).
Proof.
  cbn zeta. pose proof (watchdog_run_Inv t0 tid0 evs Htid) as HI.
  set (s := run t0 tid0 evs) in *. pose proof HI as [Hid Href Ht].
  assert (P1 : counting_from t0 (mount t0 tid0)).
  { unfold mount. rewrite startIdleTimer_eq by (left; reflexivity).
    split; [reflexivity|]. split; [reflexivity|]. eexists. reflexivity. }
  assert (P2 : counting_from (clock s) (commit (handleResumeGame s))).
  { apply restart_counting. exact Ht. }
  assert (P3 : showIdleWarning s = true -> step s Resume = commit (handleResumeGame s)).
  { intros Hw. cbn [step]. rewrite Hw. reflexivity. }
  assert (P4 : showIdleWarning s = false -> 1000 < clock s - lastRun s ->
               counting_from (clock s) (step s Activity)).
  { intros Hw Hthr. cbn [step]. unfold throttledHandler, handleUserActivity.
    assert ((1000 <? clock s - lastRun s) = true) as -> by lia.
    rewrite Href, Hw. rewrite startIdleTimer_eq by exact Ht.
    split; [exact Hw|]. split; [reflexivity|]. eexists. reflexivity. }
  assert (P5 : showIdleWarning s = true ->
               step s Activity = setLastRun (lastRun (step s Activity)) s).
  { intros Hw. cbn [step]. unfold throttledHandler, handleUserActivity.
    rewrite Href, Hw. destruct (1000 <? clock s - lastRun s).
    - destruct s; cbn in *; subst; reflexivity.
    - rewrite commit_id by exact Href. destruct s; reflexivity. }
  assert (P6 : forall s' t dt,
             counting_from t s' -> 0 <= dt ->
             showIdleWarning (advance dt s') = (60000 <=? dt) /\
             backToHome (advance dt s') =
               (if 75000 <=? dt then S (backToHome s') else backToHome s')).
  { intros s' t dt (Hw & Hc & tid & Htm) Hdt. subst t.
    destruct (advance_from_restart s' tid dt Htm Hw Hdt) as (Q1 & Q2 & _).
    split; assumption. }
  assert (P7 : forall a b, 0 <= a -> 0 <= b ->
               step (step s (Wait a)) (Wait b) = step s (Wait (a + b))).
  { intros a b Ha Hb. cbn [step]. apply advance_add; assumption. }
  exact (conj P1 (conj P2 (conj P3 (conj P4 (conj P5 (conj P6 P7)))))).
Qed.

Lemma idle_watchdog_timing_witness :
  showIdleWarning (advance 59999 (mount 0 1)) = false /\
  showIdleWarning (advance 60000 (mount 0 1)) = true /\
  backToHome (advance 74999 (mount 0 1)) = 0%nat /\
  backToHome (advance 75000 (mount 0 1)) = 1%nat.
Proof.
  destruct (idle_watchdog_timing 0 1 [] (le_n 1)) as (Hm & _ & _ & _ & _ & Hadv & _).
  split; [|split; [|split]].
  - exact (proj1 (Hadv (mount 0 1) 0 59999 Hm ltac:(lia))).
  - exact (proj1 (Hadv (mount 0 1) 0 60000 Hm ltac:(lia))).
  - exact (proj2 (Hadv (mount 0 1) 0 74999 Hm ltac:(lia))).
  - exact (proj2 (Hadv (mount 0 1) 0 75000 Hm ltac:(lia))).
Defined.

End ReviewScreenFacts.

(** ** Every session of the game screen *)

Module SessionFacts.
Import GameScreen GameScreenFacts Samples Scenarios.

(** *** The shape of a step *)

Lemma step_cases p ev rnd s s' :
  step p ev rnd s = Ok s' ->
  (ended s <> None /\ s' = s) \/
  (ended s = None /\ exists sh, handle p ev s = Ok sh /\ s' = runEffects p rnd sh).
Proof.
  unfold step. destruct (ended s) eqn:He.
  - intros [= <-]. left. split; [discriminate | reflexivity].
  - destruct (handle p ev s) as [sh|]; [|discriminate]. cbn.
    destruct (renders p sh); [|discriminate]. intros [= <-].
    right. split; [reflexivity|]. exists sh. split; reflexivity.
Qed.

(** What the handler of an event does to the state, event by event. *)
Inductive handled (p : Props) (s : State) : State -> Prop :=
  | handled_ignored : handled p s s
  | handled_answer g item sh :
      showBonusRound s = false -> isProcessing s = false ->
      currentItem p s = Some item -> handleAnswer p g s = Ok sh ->
      handled p s sh
  | handled_tick :
      showBonusRound s = false -> 0 < timeLeft s ->
      handled p s (setTimeLeft (fun prev => prev - 1) s)
  | handled_timeout idx rest :
      pending s = idx :: rest ->
      handled p s (answerTimeout p idx (setPending (fun _ => rest) s))
  | handled_bonusTick :
      showBonusRound s = true -> bonusResult s = None -> 0 < bonusTimer s ->
      handled p s (setBonusTimer (fun prev => prev - 1) s)
  | handled_bonusAnswer item :
      showBonusRound s = true -> bonusResult s = None ->
      item ∈ bonusDisplayItems s ->
      handled p s (handleBonusAnswer item s)
  | handled_next :
      showBonusRound s = true -> bonusResult s <> None ->
      handled p s (onEndGame (answers s) s).

Lemma handle_handled p ev s sh : handle p ev s = Ok sh -> handled p s sh.
Proof.
  destruct ev as [g| | | |k|]; cbn.
  - destruct (showBonusRound s) eqn:Eb; cbn; [intros [= <-]; constructor|].
    destruct (isProcessing s) eqn:Ep; [intros [= <-]; constructor|].
    intros H. destruct (currentItem p s) as [item|] eqn:Ei.
    + eapply handled_answer; eauto.
    + unfold handleAnswer in H. rewrite Ep, Ei in H. discriminate.
  - destruct (showBonusRound s) eqn:Eb; cbn; [intros [= <-]; constructor|].
    destruct (0 <? timeLeft s) eqn:Et; intros [= <-]; [|constructor].
    apply handled_tick; [exact Eb | lia].
  - destruct (pending s) as [|idx rest] eqn:Ep; intros [= <-]; [constructor|].
    apply handled_timeout. exact Ep.
  - destruct (showBonusRound s) eqn:Eb; cbn; [|intros [= <-]; constructor].
    destruct (bonusResult s) eqn:Er; cbn; [intros [= <-]; constructor|].
    destruct (0 <? bonusTimer s) eqn:Et; intros [= <-]; [|constructor].
    apply handled_bonusTick; [exact Eb | exact Er | lia].
  - destruct (showBonusRound s) eqn:Eb; cbn; [|intros [= <-]; constructor].
    destruct (bonusResult s) eqn:Er; cbn; [intros [= <-]; constructor|].
    destruct (bonusDisplayItems s !! k) as [item|] eqn:Ek; intros [= <-]; [|constructor].
    apply handled_bonusAnswer; [exact Eb | exact Er |].
    eapply list_elem_of_lookup_2. exact Ek.
  - destruct (showBonusRound s) eqn:Eb; cbn; [|intros [= <-]; constructor].
    destruct (bonusResult s) eqn:Er; cbn; intros [= <-]; [|constructor].
    apply handled_next; [exact Eb | congruence].
Qed.

(** What a commit does to the cells the effects write. *)
Lemma runEffects_fields p rnd s :
  ended s = None ->
  let s' := runEffects p rnd s in
  earnedBonus s' = earnedBonus s || (5 <=? streak s) /\
  ((showBonusRound s' = showBonusRound s /\ bonusItems s' = bonusItems s /\
    bonusDisplayItems s' = bonusDisplayItems s /\ bonusTimer s' = bonusTimer s /\
    (bonusResult s' = bonusResult s \/
     (showBonusRound s = true /\ bonusResult s = None /\ bonusTimer s <= 0 /\
      bonusResult s' = Some fail)) /\
    ((ended s' = None /\ (showBonusRound s = true \/ 0 < timeLeft s)) \/
     (ended s' = Some (answers s) /\ showBonusRound s = false /\ timeLeft s <= 0)))
   \/
   (showBonusRound s = false /\ timeLeft s <= 0 /\ earnedBonus s = true /\
    bonusResult s = None /\ ended s' = None /\ showBonusRound s' = true /\
    bonusTimer s' = 10 /\ bonusResult s' = None /\
    exists real ai,
      (real ∈ items p) /\ (ai ∈ items p) /\
      (isReal ai = false \/ List.filter (fun i => negb (isReal i)) (items p) = []) /\
      bonusItems s' = Some (real, ai) /\
      bonusDisplayItems s' = if swapPair rnd then [ai; real] else [real; ai])).
Proof.
  intros He. cbn zeta. unfold runEffects. rewrite He.
  unfold effect_bonusTimer, effect_timer, effect_streak, handleBonusResult,
    BONUS_ROUND_QUALIFIER.
  destruct (5 <=? streak s) eqn:Estreak, (showBonusRound s) eqn:Eshow,
    (timeLeft s <=? 0) eqn:Etime, (earnedBonus s) eqn:Eearned,
    (bonusResult s) eqn:Eresult, (bonusTimer s <=? 0) eqn:Ebonus; cbn;
  try (destruct (startBonusRound_cases p rnd s (setEarnedBonus true s))
         as [(real & ai & Hr & Ha & _ & Hk & ->) | (_ & ->)]);
  try (destruct (startBonusRound_cases p rnd s s)
         as [(real & ai & Hr & Ha & _ & Hk & ->) | (_ & ->)]);
  cbn; rewrite ?Eshow, ?Eearned, ?Eresult, ?He; (split; [reflexivity|]);
  first
    [ right; repeat (split; [first [reflexivity | lia]|]);
      exists real, ai; repeat (split; [assumption|]);
      split; [tauto | split; reflexivity]
    | left; repeat (split; [reflexivity|]);
      split;
      [ first [left; reflexivity
              | right; repeat (split; [first [reflexivity | lia]|]); reflexivity]
      | first [left; split; [reflexivity | first [left; reflexivity | right; lia]]
              | right; split; [reflexivity | split; [reflexivity | lia]]] ] ].
Qed.


(** *** Replaying the log *)

(** [debugConfig?.initialStreak || 0], the streak of the first render. *)
Definition startStreak (p : Props) : Z := streak (initialState p).

(** [debugConfig?.forceBonusRound] is set. *)
Definition forced (p : Props) : bool :=
  match debugConfig p with
  | Some c => match forceBonusRound c with Some true => true | _ => false end
  | None => false
  end.

(** The streak after the records of [log], from the streak [init]: one more
    for a correct record, back to 0 for a wrong one. *)
Definition streakAfter (init : Z) (log : list UserAnswer) : Z :=
  foldl (fun st a => if isCorrect a then st + 1 else 0) init log.

(** Whether the streak is at least 5 at some point of the replay. *)
Fixpoint qualifies (st : Z) (log : list UserAnswer) : bool :=
  (5 <=? st) ||
  match log with
  | [] => false
  | a :: l => qualifies (if isCorrect a then st + 1 else 0) l
  end.

(** The record [handleBonusAnswer] appends for the item clicked. *)
Definition bonusRecord (item : MediaItem) : UserAnswer :=
  {| itemId := id item; guessedReal := false; isCorrect := negb (isReal item);
     timeTaken := 0;
     pointsEarned := if negb (isReal item) then BONUS_POINTS else 0 |}.

Lemma streakAfter_snoc init log a :
  streakAfter init (log ++ [a]) = if isCorrect a then streakAfter init log + 1 else 0.
Proof. unfold streakAfter. rewrite foldl_app. reflexivity. Qed.

Lemma qualifies_snoc st log a :
  qualifies st (log ++ [a]) = qualifies st log || (5 <=? streakAfter st (log ++ [a])).
Proof.
  revert st. induction log as [|b log IH]; intros st; cbn [qualifies app].
  - unfold streakAfter. cbn [foldl]. rewrite !orb_false_r. reflexivity.
  - rewrite IH. unfold streakAfter. cbn [foldl app].
    destruct (5 <=? st); reflexivity.
Qed.

Lemma qualifies_app st log log' :
  qualifies st log = true -> qualifies st (log ++ log') = true.
Proof.
  revert st. induction log as [|b log IH]; intros st; cbn [qualifies app].
  - rewrite orb_false_r. intros E. destruct log'; cbn [qualifies]; rewrite E; reflexivity.
  - destruct (5 <=? st); cbn [orb]; [reflexivity | apply IH].
Qed.

Lemma qualifies_streak st log :
  5 <= streakAfter st log -> qualifies st log = true.
Proof.
  induction log as [|a log IH] using rev_ind; intros H.
  - unfold streakAfter in H. cbn [foldl qualifies] in *. rewrite orb_false_r. lia.
  - rewrite qualifies_snoc. apply orb_true_iff. right. lia.
Qed.

(** *** The first commit *)

Lemma mount_fields p rnd s :
  mount p rnd = Ok s ->
  items p <> [] /\
  s = (if duration p <=? 0 then onEndGame [] else fun x => x)
        (setEarnedBonus ((5 <=? startStreak p) || forced p) (initialState p)).
Proof.
  unfold mount, renders, currentItem. cbn [showBonusRound currentIndex initialState orb].
  destruct (items p) as [|i l] eqn:Ei; [discriminate|]. cbn [lookup nonNull].
  intros [= <-]. split; [discriminate|].
  unfold effect_bonusTimer, effect_timer, effect_debug, effect_streak, forced,
    startStreak, BONUS_ROUND_QUALIFIER.
  cbn [showBonusRound timeLeft earnedBonus initialState negb orb andb].
  destruct (duration p <=? 0), (5 <=? streak (initialState p)),
    (debugConfig p) as [[i0 [[|]|]]|]; reflexivity.
Qed.

(** *** States after a commit *)

(** What holds once the effects have run: the qualification is recorded, and
    while the game runs neither clock stands at zero. *)
Definition settled (s : State) : Prop :=
  (streak s < 5 \/ earnedBonus s = true) /\
  (ended s = None ->
   (showBonusRound s = true \/ 0 < timeLeft s) /\
   (showBonusRound s = false \/ bonusResult s <> None \/ 0 < bonusTimer s)).

Lemma runEffects_settled p rnd s : ended s = None -> settled (runEffects p rnd s).
Proof.
  intros He. destruct (runEffects_fields p rnd s He) as [Hearn _].
  destruct (runEffects_frame p rnd s) as (_ & _ & _ & _ & _ & Hst & _).
  split.
  - rewrite Hst, Hearn. destruct (5 <=? streak s) eqn:E.
    + right. apply orb_true_r.
    + left. lia.
  - intros He'. destruct (runEffects_quiescent p rnd s) as [Q | (_ & Q)];
      [congruence | exact Q].
Qed.

Lemma mount_settled p rnd s : mount p rnd = Ok s -> settled s.
Proof.
  intros H. apply mount_fields in H as [_ ->]. split.
  - destruct (5 <=? startStreak p) eqn:E.
    + right. destruct (duration p <=? 0); reflexivity.
    + left. assert (forall b, streak ((if duration p <=? 0 then onEndGame [] else fun x => x)
                (setEarnedBonus b (initialState p))) = startStreak p) as ->
        by (intros b; destruct (duration p <=? 0); reflexivity).
      lia.
  - destruct (duration p <=? 0) eqn:Ed; cbn; [discriminate|].
    intros _. split; [right; lia | left; reflexivity].
Qed.


(** *** The shape of the log and of the bonus round *)

(** The [k]-th record of the main round [main] is the answer to [item]. *)
Definition mainRecord (init : Z) (main : list UserAnswer) (k : nat) (a : UserAnswer)
    (item : MediaItem) : Prop :=
  itemId a = id item /\
  isCorrect a = Bool.eqb (guessedReal a) (isReal item) /\
  timeTaken a = 0 /\
  pointsEarned a =
    if isCorrect a
    then BASE_POINTS * multiplier (streakAfter init (take (S k) main))
    else 0.

(** The log is the records [main] of the main round, one per item of the
    queue in order, then the records [bonus] of the bonus round: none, or the
    one of the item clicked. *)
Definition logShape (p : Props) (s : State) (main bonus : list UserAnswer) : Prop :=
  answers s = main ++ bonus /\
  streak s = streakAfter (startStreak p) main /\
  (forall k a, main !! k = Some a ->
     exists item, items p !! k = Some item /\ mainRecord (startStreak p) main k a item) /\
  ((bonus = [] /\ bonusResult s <> Some success) \/
   exists item, bonus = [bonusRecord item] /\ (item ∈ bonusDisplayItems s) /\
     showBonusRound s = true /\
     bonusResult s = Some (if isReal item then fail else success)).

Record Stable (p : Props) (s : State) : Prop := mkStable {
  st_time : Z.min 0 (duration p) <= timeLeft s <= Z.max 0 (duration p);
  st_earned :
    earnedBonus s || (5 <=? streak s) =
    forced p || qualifies (startStreak p) (answers s);
  st_log : exists main bonus, logShape p s main bonus;
  st_show :
    showBonusRound s = true ->
    earnedBonus s = true /\ timeLeft s <= 0 /\ 0 <= bonusTimer s <= 10 /\
    exists real ai,
      bonusItems s = Some (real, ai) /\ (real ∈ items p) /\ (ai ∈ items p) /\
      (isReal ai = false \/ List.filter (fun i => negb (isReal i)) (items p) = []) /\
      (bonusDisplayItems s = [real; ai] \/ bonusDisplayItems s = [ai; real]);
  st_noshow :
    showBonusRound s = false ->
    bonusResult s = None /\ bonusItems s = None /\ bonusDisplayItems s = []
}.

Lemma mount_Stable p rnd s : mount p rnd = Ok s -> Stable p s.
Proof.
  intros H. apply mount_fields in H as [_ ->].
  set (b := (5 <=? startStreak p) || forced p).
  assert (Hsame : forall s0,
            Stable p s0 -> Stable p ((if duration p <=? 0 then onEndGame [] else fun x => x) s0)).
  { intros s0 H0. destruct (duration p <=? 0); [|exact H0].
    destruct H0 as [A B C D E]. split; assumption. }
  apply Hsame. split.
  - cbn. lia.
  - change (b || (5 <=? startStreak p) = forced p || ((5 <=? startStreak p) || false)).
    unfold b. destruct (5 <=? startStreak p), (forced p); reflexivity.
  - exists [], []. split; [reflexivity|]. split; [reflexivity|].
    split; [intros k a Hk; discriminate|].
    left. split; [reflexivity | discriminate].
  - discriminate.
  - intros _. repeat split; reflexivity.
Qed.


Lemma handleAnswer_accepted p g s item sh :
  isProcessing s = false -> currentItem p s = Some item ->
  handleAnswer p g s = Ok sh ->
  let ok := Bool.eqb g (isReal item) in
  let pts := if ok then BASE_POINTS * multiplier (streak s + 1) else 0 in
  answers sh = answers s ++
    [{| itemId := id item; guessedReal := g; isCorrect := ok; timeTaken := 0;
        pointsEarned := pts |}] /\
  streak sh = (if ok then streak s + 1 else 0) /\
  score sh = score s + pts /\
  timeLeft sh = timeLeft s /\ earnedBonus sh = earnedBonus s /\
  showBonusRound sh = showBonusRound s /\ bonusTimer sh = bonusTimer s /\
  bonusItems sh = bonusItems s /\ bonusDisplayItems sh = bonusDisplayItems s /\
  bonusResult sh = bonusResult s /\ ended sh = ended s.
Proof.
  intros Ep Ei. unfold handleAnswer. rewrite Ep, Ei. intros [= <-].
  destruct (Bool.eqb g (isReal item)); cbn; repeat split; lia.
Qed.

Lemma logShape_no_bonus p s main bonus :
  logShape p s main bonus -> bonusResult s = None -> bonus = [] /\ main = answers s.
Proof.
  intros (Ha & _ & _ & [[-> _] | (item & _ & _ & _ & Hr)]) Hn.
  - split; [reflexivity|]. rewrite Ha, app_nil_r. reflexivity.
  - congruence.
Qed.

Lemma handled_Stable p s sh :
  Inv p s -> settled s -> Stable p s -> ended s = None ->
  handled p s sh -> Stable p sh.
Proof.
  intros HI [Hq Hs] HS Hlive H. pose proof HS as [Ht Hearn (main & bonus & Hlog) Hshow Hno].
  destruct (Hs Hlive) as [Hclock Hbclock].
  destruct H as [|g item sh Eb Ep Ei H| Eb Hpos | idx rest Epend | Eb Er Hpos
                 | item Eb Er Hin | Eb Er].
  - exact HS.
  - destruct (handleAnswer_accepted _ _ _ _ _ Ep Ei H)
      as (Ea & Est & _ & Etl & Eearn & Eshow & Ebt & Ebi & Ebd & Ebr & _).
    destruct (Hno Eb) as (Hr0 & Hi0 & Hd0).
    destruct (logShape_no_bonus _ _ _ _ Hlog Hr0) as [-> ->].
    destruct Hlog as (_ & Hstreak & Hmain & _).
    assert (Hlen : length (answers s) = currentIndex s).
    { destruct HI as [_ _ _ _ Hr]. rewrite Hr; [rewrite Ep; lia | exact Hlive | exact Eb |].
      destruct Hclock as [C | C]; [congruence | exact C]. }
    set (a := {| itemId := id item; guessedReal := g;
                 isCorrect := Bool.eqb g (isReal item); timeTaken := 0;
                 pointsEarned := if Bool.eqb g (isReal item)
                                 then BASE_POINTS * multiplier (streak s + 1) else 0 |}) in *.
    assert (Hst' : streak sh = streakAfter (startStreak p) (answers s ++ [a])).
    { rewrite Est, streakAfter_snoc, <- Hstreak. reflexivity. }
    split.
    + rewrite Etl. exact Ht.
    + rewrite Eearn, Ea, qualifies_snoc, <- Hst'.
      assert (E : earnedBonus s = forced p || qualifies (startStreak p) (answers s)).
      { rewrite <- Hearn. destruct Hq as [Hq | ->]; [|reflexivity].
        assert ((5 <=? streak s) = false) as -> by lia. rewrite orb_false_r. reflexivity. }
      rewrite E, orb_assoc. reflexivity.
    + exists (answers s ++ [a]), []. split; [rewrite Ea, app_nil_r; reflexivity|].
      split; [exact Hst'|]. split.
      * intros k r Hk. apply lookup_snoc_Some in Hk as [[Hlt Hk] | [Hk <-]].
        -- destruct (Hmain k r Hk) as (it & Hit & H1 & H2 & H3 & H4).
           exists it. split; [exact Hit|]. repeat split; try assumption.
           rewrite take_app_le by lia. exact H4.
        -- exists item. split; [unfold currentItem in Ei; rewrite Hk, Hlen; exact Ei|].
           repeat split.
           rewrite Hk, take_ge by (rewrite length_app; cbn; lia).
           rewrite <- Hst', Est. cbn. destruct (Bool.eqb g (isReal item)); reflexivity.
      * left. split; [reflexivity | congruence].
    + rewrite Eshow. congruence.
    + rewrite Eshow, Ebr, Ebi, Ebd. exact Hno.
  - split; cbn; try assumption; try lia; try congruence.
    exists main, bonus. exact Hlog.
  - unfold answerTimeout.
    destruct (Z.of_nat idx <? Z.of_nat (length (items p)) - 1); split; cbn;
      try assumption; try lia; try (exists main, bonus; exact Hlog).
    intros E. destruct (Hshow E) as (A & B & C). repeat split; try tauto; lia.
  - split; cbn; try assumption; try (exists main, bonus; exact Hlog).
    intros E. destruct (Hshow E) as (A & B & C & D). repeat split; try tauto; lia.
  - destruct (Hshow Eb) as (Hearned & Htl & Hbt & Hpair).
    destruct (logShape_no_bonus _ _ _ _ Hlog Er) as [-> ->].
    destruct Hlog as (_ & Hstreak & Hmain & _).
    unfold handleBonusAnswer, handleBonusResult. rewrite Er.
    assert (Hq' : forall l, earnedBonus s || (5 <=? streak s) =
                forced p || qualifies (startStreak p) (answers s ++ l)).
    { intros l. rewrite Hearned in *. cbn [orb] in *. symmetry. symmetry in Hearn.
      apply orb_true_iff in Hearn as [-> | Hq2]; [reflexivity|].
      rewrite (qualifies_app _ _ l Hq2). apply orb_true_r. }
    destruct (isReal item) eqn:Ereal; cbn [negb]; (split; cbn; try assumption).
    all: try apply Hq'.
    all: try (intros; exact (conj Hearned (conj Htl (conj Hbt Hpair)))).
    all: try congruence.
    all: exists (answers s), [bonusRecord item];
      (split; [unfold bonusRecord; rewrite Ereal; reflexivity|]);
      (split; [exact Hstreak|]); (split; [exact Hmain|]);
      right; exists item; rewrite Ereal; repeat split; assumption.
  - split; cbn; try assumption. exists main, bonus. exact Hlog.
Qed.


Lemma runEffects_Stable p rnd s :
  ended s = None -> Stable p s -> Stable p (runEffects p rnd s).
Proof.
  intros Hlive [Ht Hearn (main & bonus & Ha & Hst & Hmain & Hbonus) Hshow Hno].
  destruct (runEffects_frame p rnd s) as (_ & _ & _ & _ & Fa & Fst & Ftl).
  destruct (runEffects_fields p rnd s Hlive) as [Fearn Hcases].
  set (s' := runEffects p rnd s) in *.
  split.
  - rewrite Ftl. exact Ht.
  - rewrite Fearn, Fst, Fa, <- Hearn. rewrite <- orb_assoc, orb_diag. reflexivity.
  - exists main, bonus. split; [rewrite Fa; exact Ha|]. split; [rewrite Fst; exact Hst|].
    split; [exact Hmain|].
    destruct Hcases as [(Fshow & _ & Fd & _ & Fres & _)
                       | (Eshow & _ & _ & Eres & _ & _ & _ & Eres' & _)].
    + destruct Hbonus as [[-> Hns] | (item & -> & Hin & Hsh & Hr)].
      * left. split; [reflexivity|].
        destruct Fres as [-> | (_ & _ & _ & ->)]; [exact Hns | discriminate].
      * right. exists item. rewrite Fd, Fshow. repeat split; try assumption.
        destruct Fres as [-> | (_ & Hn & _)]; [exact Hr | congruence].
    + left. destruct Hbonus as [[-> _] | (item & _ & _ & Hsh & _)]; [|congruence].
      split; [reflexivity | congruence].
  - intros E.
    destruct Hcases as [(Fshow & Fi & Fd & Ft & _)
                       | (Eshow & Htl & Eearn & _ & _ & _ & Ebt & _ & real & ai & Hr & Hai & Hk & Ei & Ed)].
    + rewrite Fshow in E. destruct (Hshow E) as (A & B & C & D).
      rewrite Fearn, A, Ftl, Ft, Fi, Fd. repeat split; try tauto; lia.
    + rewrite Fearn, Eearn, Ftl, Ebt. repeat split; try lia.
      exists real, ai. rewrite Ei, Ed. repeat split; try assumption.
      destruct (swapPair rnd); [right | left]; reflexivity.
  - intros E.
    destruct Hcases as [(Fshow & Fi & Fd & _ & Fres & _) | (_ & _ & _ & _ & _ & E' & _)];
      [|congruence].
    rewrite Fshow in E. destruct (Hno E) as (A & B & C).
    rewrite Fi, Fd. repeat split; try assumption.
    destruct Fres as [-> | (Hsh & _)]; [exact A | congruence].
Qed.

(** What holds in every state of a session. *)
Definition reach (p : Props) (s : State) : Prop := Inv p s /\ settled s /\ Stable p s.

Lemma mount_reach p rnd s : mount p rnd = Ok s -> reach p s.
Proof.
  intros H. split; [|split].
  - destruct (mount_fields p rnd s H) as [Hne _].
    destruct (mount_Inv p rnd Hne) as (s' & E & HI). congruence.
  - eapply mount_settled. exact H.
  - eapply mount_Stable. exact H.
Qed.

Lemma handled_ended p s sh :
  handled p s sh -> ended s = None ->
  ended sh = None \/
  (sh = onEndGame (answers s) s /\ showBonusRound s = true /\ bonusResult s <> None).
Proof.
  intros H Hlive. destruct H; auto.
  - left. destruct (handleAnswer_accepted _ _ _ _ _ H0 H1 H2)
      as (_ & _ & _ & _ & _ & _ & _ & _ & _ & _ & E). congruence.
  - left. unfold answerTimeout. case_match; exact Hlive.
  - left. unfold handleBonusAnswer, handleBonusResult. repeat case_match; exact Hlive.
Qed.

Lemma step_reach p ev rnd s s' : reach p s -> step p ev rnd s = Ok s' -> reach p s'.
Proof.
  intros (HI & Hq & HS) H.
  destruct (step_cases _ _ _ _ _ H) as [[_ ->] | (Hlive & sh & Hh & ->)];
    [split; [|split]; assumption|].
  destruct (handle_Inv p ev s Hlive HI) as (sh' & Hh' & HI').
  assert (sh' = sh) as -> by congruence.
  pose proof (handle_handled _ _ _ _ Hh) as Hd.
  pose proof (handled_Stable _ _ _ HI Hq HS Hlive Hd) as HS'.
  split; [apply runEffects_Inv; exact HI'|].
  destruct (handled_ended _ _ _ Hd Hlive) as [E | [E _]].
  - split; [apply runEffects_settled; exact E | apply runEffects_Stable; assumption].
  - assert (Hid : runEffects p rnd sh = sh) by (rewrite E; reflexivity).
    rewrite Hid. split; [|exact HS'].
    rewrite E. destruct Hq as [Hq1 _]. split; [exact Hq1 | discriminate].
Qed.

Lemma run_snoc p rnd0 evs e :
  run p rnd0 (evs ++ [e]) = bindR (run p rnd0 evs) (step p e.1 e.2).
Proof. unfold run. rewrite foldl_app. reflexivity. Qed.

Lemma run_reach p rnd0 evs s : run p rnd0 evs = Ok s -> reach p s.
Proof.
  revert s. induction evs as [|e evs IH] using rev_ind; intros s.
  - apply mount_reach.
  - rewrite run_snoc. destruct (run p rnd0 evs) as [s0|]; [|discriminate].
    cbn. apply step_reach. apply IH. reflexivity.
Qed.


(** *** Why a game ends *)

Lemma runEffects_ends p rnd s :
  ended s = None -> ended (runEffects p rnd s) <> None ->
  showBonusRound s = false /\ timeLeft s <= 0 /\
  (earnedBonus s = false \/ bonusResult s <> None \/ items p = []).
Proof.
  intros He. unfold runEffects. rewrite He.
  unfold effect_bonusTimer, effect_timer, effect_streak, handleBonusResult,
    BONUS_ROUND_QUALIFIER.
  destruct (5 <=? streak s) eqn:Estreak, (showBonusRound s) eqn:Eshow,
    (timeLeft s <=? 0) eqn:Etime, (earnedBonus s) eqn:Eearned,
    (bonusResult s) eqn:Eresult, (bonusTimer s <=? 0) eqn:Ebonus; cbn;
  try (destruct (startBonusRound_cases p rnd s (setEarnedBonus true s))
         as [(? & ? & _ & _ & _ & _ & ->) | (Hnil & ->)]);
  try (destruct (startBonusRound_cases p rnd s s)
         as [(? & ? & _ & _ & _ & _ & ->) | (Hnil & ->)]);
  cbn; rewrite ?Eshow, ?Eearned, ?Eresult, ?He; intros H; try congruence;
  (split; [reflexivity|]); (split; [lia|]);
  first [left; reflexivity | right; left; discriminate | right; right; assumption].
Qed.

Lemma handled_precommit p s sh :
  handled p s sh -> ended s = None -> settled s ->
  showBonusRound sh = false -> timeLeft sh <= 0 -> earnedBonus sh = false ->
  streak sh < 5.
Proof.
  intros H Hlive [Hq Hs]. destruct (Hs Hlive) as [Hclock _].
  destruct H as [|g item sh Eb Ep Ei H| Eb Hpos | idx rest Epend | Eb Er Hpos
                 | item Eb Er Hin | Eb Er].
  - intros A B C. destruct Hclock; [congruence | lia].
  - destruct (handleAnswer_accepted _ _ _ _ _ Ep Ei H)
      as (_ & _ & _ & Etl & _ & Eshow & _).
    rewrite Etl. intros A B C. destruct Hclock; [congruence | lia].
  - cbn. intros A B C. destruct Hq; [assumption | congruence].
  - unfold answerTimeout. case_match; cbn; intros A B C;
      (destruct Hq; [assumption | congruence]).
  - cbn. congruence.
  - unfold handleBonusAnswer, handleBonusResult. repeat case_match; cbn; congruence.
  - cbn. congruence.
Qed.

(** A game that has ended for a player who qualified went through the bonus
    round. *)
Definition endedOk (s : State) : Prop :=
  ended s <> None -> earnedBonus s = true ->
  showBonusRound s = true /\ bonusResult s <> None.

Lemma step_endedOk p ev rnd s s' :
  reach p s -> endedOk s -> step p ev rnd s = Ok s' -> endedOk s'.
Proof.
  intros (HI & Hq & HS) Hok H.
  destruct (step_cases _ _ _ _ _ H) as [[_ ->] | (Hlive & sh & Hh & ->)];
    [exact Hok|].
  destruct (handle_Inv p ev s Hlive HI) as (sh' & Hh' & HI').
  assert (sh' = sh) as -> by congruence.
  pose proof (handle_handled _ _ _ _ Hh) as Hd.
  pose proof (handled_Stable _ _ _ HI Hq HS Hlive Hd) as HS'.
  destruct (handled_ended _ _ _ Hd Hlive) as [E | (E & Hshow & Hres)].
  - intros Hend Hearn.
    destruct (runEffects_ends p rnd sh E Hend) as (A & B & C).
    destruct (st_noshow _ _ HS' A) as (Hr & _).
    assert (Hne : items p <> []).
    { destruct HI' as [Hi _ _ _ _]. intros Hnil. rewrite Hnil in Hi. cbn in Hi. lia. }
    assert (Hf : earnedBonus sh = false) by (destruct C as [C | [C | C]]; congruence).
    pose proof (handled_precommit _ _ _ Hd Hlive Hq A B Hf) as Hlt.
    destruct (runEffects_fields p rnd sh E) as [Fearn _].
    rewrite Fearn, Hf in Hearn. cbn in Hearn. lia.
  - assert (Hid : runEffects p rnd sh = sh) by (rewrite E; reflexivity).
    rewrite Hid, E. intros _ _. cbn. split; assumption.
Qed.

Lemma run_endedOk p rnd0 evs s :
  0 < duration p -> run p rnd0 evs = Ok s -> endedOk s.
Proof.
  intros Hd. revert s. induction evs as [|e evs IH] using rev_ind; intros s.
  - intros H. apply mount_fields in H as [_ ->].
    assert ((duration p <=? 0) = false) as -> by lia. intros E. cbn in E. congruence.
  - rewrite run_snoc. destruct (run p rnd0 evs) as [s0|] eqn:E0; [|discriminate].
    cbn. apply step_endedOk; [eapply run_reach; exact E0 | apply IH; reflexivity].
Qed.


(** *** Runs of correct answers *)

Lemma streakAfter_nonneg st log : 0 <= st -> 0 <= streakAfter st log.
Proof.
  intros H. induction log as [|a log IH] using rev_ind; [exact H|].
  rewrite streakAfter_snoc. destruct (isCorrect a); lia.
Qed.

Lemma streakAfter_run st log l2 :
  Forall (fun a => isCorrect a = true) l2 ->
  streakAfter st (log ++ l2) = streakAfter st log + Z.of_nat (length l2).
Proof.
  induction l2 as [|a l2 IH] using rev_ind; intros H.
  - rewrite app_nil_r. cbn. lia.
  - apply Forall_app in H as [H1 H2]. rewrite Forall_singleton in H2.
    rewrite app_assoc, streakAfter_snoc, H2, (IH H1).
    rewrite length_app. cbn. lia.
Qed.

Lemma streakAfter_tail log (n : nat) :
  Z.of_nat n <= streakAfter 0 log ->
  exists l0 l2, log = l0 ++ l2 /\ length l2 = n /\
                Forall (fun a => isCorrect a = true) l2.
Proof.
  revert n. induction log as [|a log IH] using rev_ind; intros n H.
  - exists [], []. unfold streakAfter in H. cbn in H.
    repeat split; [|constructor]. cbn. lia.
  - destruct n as [|m].
    + exists (log ++ [a]), []. rewrite app_nil_r. repeat split. constructor.
    + rewrite streakAfter_snoc in H. destruct (isCorrect a) eqn:Ea; [|lia].
      destruct (IH m) as (l0 & l2 & -> & Hlen & Hall); [lia|].
      exists l0, (l2 ++ [a]). rewrite app_assoc. repeat split.
      * rewrite length_app. cbn. lia.
      * apply Forall_app. split; [exact Hall|]. rewrite Forall_singleton. exact Ea.
Qed.

Lemma qualifies_prefix st log :
  qualifies st log = true -> exists l1 l3, log = l1 ++ l3 /\ 5 <= streakAfter st l1.
Proof.
  revert st. induction log as [|a log IH]; intros st; cbn [qualifies].
  - rewrite orb_false_r. intros H. exists [], []. split; [reflexivity|].
    unfold streakAfter. cbn. lia.
  - destruct (5 <=? st) eqn:E; cbn [orb].
    + intros _. exists [], (a :: log). split; [reflexivity|].
      unfold streakAfter. cbn. lia.
    + intros H. destruct (IH _ H) as (l1 & l3 & -> & Hs).
      exists (a :: l1), l3. split; [reflexivity | exact Hs].
Qed.

Lemma qualifies_five log :
  qualifies 0 log = true <->
  exists l1 l2 l3, log = l1 ++ l2 ++ l3 /\ length l2 = 5%nat /\
                   Forall (fun a => isCorrect a = true) l2.
Proof.
  split.
  - intros H. destruct (qualifies_prefix _ _ H) as (l1 & l3 & -> & Hs).
    destruct (streakAfter_tail l1 5 Hs) as (l0 & l2 & -> & Hlen & Hall).
    exists l0, l2, l3. rewrite app_assoc. repeat split; assumption.
  - intros (l1 & l2 & l3 & -> & Hlen & Hall).
    rewrite app_assoc. apply qualifies_app, qualifies_streak.
    rewrite streakAfter_run by exact Hall.
    pose proof (streakAfter_nonneg 0 l1). lia.
Qed.

Lemma handled_grows p s sh :
  handled p s sh -> answers s `prefix_of` answers sh /\ score s <= score sh.
Proof.
  intros H. destruct H as [|g item sh Eb Ep Ei H| Eb Hpos | idx rest Epend | Eb Er Hpos
                           | item Eb Er Hin | Eb Er].
  - split; [reflexivity | lia].
  - destruct (handleAnswer_accepted _ _ _ _ _ Ep Ei H) as (Ea & _ & Es & _).
    rewrite Ea, Es. split; [apply prefix_app_r; reflexivity|].
    unfold multiplier, BASE_POINTS. repeat case_match; lia.
  - split; [reflexivity | cbn; lia].
  - unfold answerTimeout. case_match; (split; [reflexivity | cbn; lia]).
  - split; [reflexivity | cbn; lia].
  - unfold handleBonusAnswer, handleBonusResult, BONUS_POINTS. rewrite Er.
    destruct (isReal item); cbn; (split; [apply prefix_app_r; reflexivity | lia]).
  - split; [reflexivity | cbn; lia].
Qed.

Lemma step_grows p ev rnd s s' :
  step p ev rnd s = Ok s' -> answers s `prefix_of` answers s' /\ score s <= score s'.
Proof.
  intros H.
  destruct (step_cases _ _ _ _ _ H) as [[_ ->] | (Hlive & sh & Hh & ->)];
    [split; [reflexivity | lia]|].
  destruct (runEffects_frame p rnd sh) as (_ & _ & _ & Fs & Fa & _).
  rewrite Fs, Fa. apply (handled_grows p). apply (handle_handled _ ev). exact Hh.
Qed.

Lemma run_app p rnd0 evs evs' :
  run p rnd0 (evs ++ evs') =
  foldl (fun r e => bindR r (step p e.1 e.2)) (run p rnd0 evs) evs'.
Proof. unfold run. apply foldl_app. Qed.

Lemma foldl_step_throws p e evs :
  foldl (fun r ev => bindR r (step p ev.1 ev.2)) (Throws e) evs = Throws e.
Proof. induction evs as [|ev evs IH]; [reflexivity | exact IH]. Qed.


(** Every record of the log is the verdict on an item of the pool. *)
Lemma reach_log_items p s :
  reach p s ->
  Forall (fun a => exists item, (item ∈ items p) /\ id item = itemId a /\
                     isCorrect a = Bool.eqb (guessedReal a) (isReal item))
    (answers s).
Proof.
  intros (_ & _ & HS).
  destruct (st_log _ _ HS) as (main & bonus & -> & _ & Hmain & Hbonus).
  apply Forall_app. split.
  - apply Forall_lookup. intros k a Hk.
    destruct (Hmain k a Hk) as (item & Hi & H1 & H2 & _).
    exists item. split; [eapply list_elem_of_lookup_2; exact Hi|]. auto.
  - destruct Hbonus as [[-> _] | (item & -> & Hin & Hshow & _)]; [constructor|].
    rewrite Forall_singleton. exists item. split; [|split; reflexivity].
    destruct (st_show _ _ HS Hshow) as (_ & _ & _ & real & ai & _ & Hr & Hai & _ & Hd).
    destruct Hd as [Hd | Hd]; rewrite Hd in Hin; apply list_elem_of_In in Hin;
      cbn in Hin; intuition congruence.
Qed.

(** *** Properties of every session *)

(** X1 (the streak is the replay of the log): in every state of a session
    in which the bonus round has no result yet, the streak counter is what
    replaying the log gives from the initial streak: one more for each
    correct record, back to 0 at each wrong one. *)
Theorem streak_replays_log (p : Props) (rnd0 : Random) (evs : list (Event * Random))
    (s : State) (Hrun : run p rnd0 evs = Ok s) (Hres : bonusResult s = None) :
  streak s = streakAfter (startStreak p) (answers s).
Proof.
  destruct (run_reach _ _ _ _ Hrun) as (_ & _ & HS).
  destruct (st_log _ _ HS) as (main & bonus & Hlog).
  destruct (logShape_no_bonus _ _ _ _ Hlog Hres) as [_ ->].
  apply Hlog.
Qed.

Lemma streak_replays_log_witness :
  exists s, run abc rnd0 twoRight = Ok s /\
            streak s = streakAfter 0 (answers s) /\ streak s = 2.
Proof.
  destruct (run abc rnd0 twoRight) as [s|e] eqn:Hrun; [|vm_compute in Hrun; discriminate].
  exists s. split; [reflexivity|]. split.
  - apply (streak_replays_log abc rnd0 twoRight s Hrun).
    vm_compute in Hrun. injection Hrun as <-. reflexivity.
  - vm_compute in Hrun. injection Hrun as <-. reflexivity.
Defined.

(** X2 (qualifying for the bonus round): in every state of a session
    [earnedBonus] is set exactly when the debug configuration forces the bonus
    round or the streak, replayed over the log, has been at least 5 at some
    point; without a debug configuration, exactly when the log holds five
    correct records in a row. *)
Theorem bonus_qualification (p : Props) (rnd0 : Random) (evs : list (Event * Random))
    (s : State) (Hrun : run p rnd0 evs = Ok s) :
  earnedBonus s = forced p || qualifies (startStreak p) (answers s) /\
  (debugConfig p = None ->
   (earnedBonus s = true <->
    exists l1 l2 l3, answers s = l1 ++ l2 ++ l3 /\ length l2 = 5%nat /\
                     Forall (fun a => isCorrect a = true) l2)).
Proof.
  destruct (run_reach _ _ _ _ Hrun) as (_ & [Hq _] & HS).
  assert (E : earnedBonus s = forced p || qualifies (startStreak p) (answers s)).
  { rewrite <- (st_earned _ _ HS). destruct Hq as [Hq | ->]; [|reflexivity].
    assert ((5 <=? streak s) = false) as -> by lia. rewrite orb_false_r. reflexivity. }
  split; [exact E|].
  intros Hd. rewrite E. unfold forced, startStreak. cbn. rewrite Hd. cbn.
  apply qualifies_five.
Qed.

Lemma bonus_qualification_witness :
  exists s, run allReal rnd0 fiveRight = Ok s /\ earnedBonus s = true /\
            qualifies 0 (answers s) = true.
Proof.
  destruct (run allReal rnd0 fiveRight) as [s|e] eqn:Hrun;
    [|vm_compute in Hrun; discriminate].
  exists s. split; [reflexivity|].
  pose proof (proj1 (bonus_qualification allReal rnd0 fiveRight s Hrun)) as H.
  vm_compute in Hrun. injection Hrun as <-. split; [reflexivity|].
  symmetry. exact H.
Defined.

(** X3 (the log only grows): the log of a session is a prefix of its log
    after any further events, and the score never goes down. *)
Theorem log_only_grows (p : Props) (rnd0 : Random) (evs evs' : list (Event * Random))
    (s' : State) (Hrun : run p rnd0 (evs ++ evs') = Ok s') :
  exists s, run p rnd0 evs = Ok s /\
            answers s `prefix_of` answers s' /\ score s <= score s'.
Proof.
  rewrite run_app in Hrun.
  destruct (run p rnd0 evs) as [s|e]; [|rewrite foldl_step_throws in Hrun; discriminate].
  exists s. split; [reflexivity|].
  revert s s' Hrun. induction evs' as [|ev evs' IH]; intros s s' Hrun.
  - injection Hrun as <-. split; [reflexivity | lia].
  - cbn in Hrun. destruct (step p ev.1 ev.2 s) as [s1|e] eqn:E1;
      [|rewrite foldl_step_throws in Hrun; discriminate].
    destruct (step_grows _ _ _ _ _ E1) as [A B].
    destruct (IH s1 s' Hrun) as [C D].
    split; [etrans; eassumption | lia].
Qed.

Lemma log_only_grows_witness :
  exists s s', run abc rnd0 [(ClickAnswer true, rnd0)] = Ok s /\
               run abc rnd0 twoRight = Ok s' /\
               answers s `prefix_of` answers s' /\ score s <= score s'.
Proof.
  destruct (run abc rnd0 twoRight) as [s'|e] eqn:Hrun;
    [|vm_compute in Hrun; discriminate].
  destruct (log_only_grows abc rnd0 [(ClickAnswer true, rnd0)]
              [(AnswerTimeout, rnd0); (ClickAnswer false, rnd0)] s' Hrun)
    as (s & Hs & Hp & Hsc).
  exists s, s'. split; [exact Hs|]. split; [reflexivity|]. split; assumption.
Defined.


(** X4 (the log follows the queue): for as long as the screen is mounted,
    in every state in which [onEndGame] has not been called, and in the
    state in which it is called for the first time, the log is the records
    of the main round followed by at most one record of the bonus round.
    The [k]-th record of the main round is the answer to the [k]-th item of
    the queue: it carries its id, is correct exactly when the guess is the
    item's [isReal], and carries 100 times the multiplier of the streak
    reached with it when correct, else 0.  The bonus record is that of an
    item of the pool.  The log handed over at the first call of [onEndGame]
    is that log. *)
Theorem log_follows_queue (p : Props) (rnd0 : Random)
    (evs : list (LiveScreen.Event * Random)) (s : State)
    (Hrun : LiveScreen.run p rnd0 evs = Ok s)
    (Hfirst : LiveScreen.endedBefore p rnd0 evs = false) :
  (exists main bonus,
     answers s = main ++ bonus /\
     (length main <= length (items p))%nat /\
     (forall k a, main !! k = Some a ->
        exists item, items p !! k = Some item /\
          itemId a = id item /\
          isCorrect a = Bool.eqb (guessedReal a) (isReal item) /\
          pointsEarned a =
            if isCorrect a
            then 100 * multiplier (streakAfter (startStreak p) (take (S k) main))
            else 0) /\
     (bonus = [] \/ exists item, (item ∈ items p) /\ bonus = [bonusRecord item])) /\
  (forall log, ended s = Some log -> log = answers s).
Proof.
  apply live_run_first in Hrun; [|exact Hfirst].
  destruct (run_reach _ _ _ _ Hrun) as (HI & _ & HS).
  split; [|apply HI].
  destruct (st_log _ _ HS) as (main & bonus & Ha & _ & Hmain & Hbonus).
  exists main, bonus. split; [exact Ha|]. split; [|split].
  - destruct (length main) as [|n] eqn:En; [lia|].
    destruct (lookup_lt_is_Some_2 main n) as [a Hk]; [lia|].
    destruct (Hmain n a Hk) as (item & Hi & _).
    apply lookup_lt_Some in Hi. lia.
  - intros k a Hk. destruct (Hmain k a Hk) as (item & Hi & H1 & H2 & _ & H4).
    exists item. repeat split; assumption.
  - destruct Hbonus as [[-> _] | (item & -> & Hin & Hshow & _)]; [left; reflexivity|].
    right. exists item. split; [|reflexivity].
    destruct (st_show _ _ HS Hshow) as (_ & _ & _ & real & ai & _ & Hr & Hai & _ & Hd).
    destruct Hd as [Hd | Hd]; rewrite Hd in Hin; apply list_elem_of_In in Hin;
      cbn in Hin; intuition congruence.
Qed.

Lemma log_follows_queue_witness :
  exists s main bonus,
    LiveScreen.run abc rnd0 playedOut = Ok s /\ answers s = main ++ bonus /\
    (length main <= 3)%nat /\ map itemId (answers s) = ["A"; "B"; "C"] /\
    ended s = Some (answers s).
Proof.
  destruct (LiveScreen.run abc rnd0 playedOut) as [s|e] eqn:Hrun;
    [|vm_compute in Hrun; discriminate].
  destruct (log_follows_queue abc rnd0 playedOut s Hrun)
    as ((main & bonus & Ha & Hlen & _ & _) & _); [vm_compute; reflexivity|].
  exists s, main, bonus. split; [reflexivity|]. split; [exact Ha|].
  split; [exact Hlen|].
  vm_compute in Hrun. injection Hrun as <-. split; reflexivity.
Defined.


(** X5 (what a record is worth): in every state of a session each record of
    the log carries 0 points when it is wrong and 100, 200, 400 or 1000
    points when it is correct. *)
Theorem points_of_records (p : Props) (rnd0 : Random) (evs : list (Event * Random))
    (s : State) (Hrun : run p rnd0 evs = Ok s) :
  Forall (fun a =>
            (isCorrect a = false /\ pointsEarned a = 0) \/
            (isCorrect a = true /\
             (pointsEarned a = 100 \/ pointsEarned a = 200 \/ pointsEarned a = 400 \/
              pointsEarned a = 1000)))
    (answers s).
Proof.
  destruct (run_reach _ _ _ _ Hrun) as (_ & _ & HS).
  destruct (st_log _ _ HS) as (main & bonus & -> & _ & Hmain & Hbonus).
  apply Forall_app. split.
  - apply Forall_lookup. intros k a Hk.
    destruct (Hmain k a Hk) as (item & _ & _ & _ & _ & Hp).
    rewrite Hp. unfold multiplier, BASE_POINTS. destruct (isCorrect a); [right | left; auto].
    split; [reflexivity|]. repeat case_match; auto.
  - destruct Hbonus as [[-> _] | (item & -> & _)]; [constructor|].
    rewrite Forall_singleton. unfold bonusRecord, BONUS_POINTS. cbn.
    destruct (isReal item); cbn; [left; auto | right; auto 6].
Qed.

Lemma points_of_records_witness :
  exists s, run bonusTest rnd0 winBonus = Ok s /\
            map pointsEarned (answers s) = [1000] /\
            Forall (fun a => (isCorrect a = false /\ pointsEarned a = 0) \/
                             (isCorrect a = true /\
                              (pointsEarned a = 100 \/ pointsEarned a = 200 \/
                               pointsEarned a = 400 \/ pointsEarned a = 1000)))
              (answers s).
Proof.
  destruct (run bonusTest rnd0 winBonus) as [s|e] eqn:Hrun;
    [|vm_compute in Hrun; discriminate].
  exists s. split; [reflexivity|].
  split; [|exact (points_of_records bonusTest rnd0 winBonus s Hrun)].
  vm_compute in Hrun. injection Hrun as <-. reflexivity.
Defined.

(** X6 (the main clock): with a duration that is not negative, in every
    state of a session the time left is between 0 and the duration, and it is
    above 0 as long as the game has neither ended nor entered the bonus
    round. *)
Theorem clock_bounds (p : Props) (rnd0 : Random) (evs : list (Event * Random))
    (s : State) (Hdur : 0 <= duration p) (Hrun : run p rnd0 evs = Ok s) :
  0 <= timeLeft s <= duration p /\
  (ended s = None -> showBonusRound s = false -> 0 < timeLeft s).
Proof.
  destruct (run_reach _ _ _ _ Hrun) as (_ & [_ Hs] & HS).
  split; [pose proof (st_time _ _ HS); lia|].
  intros Hlive Hshow. destruct (Hs Hlive) as [[C | C] _]; [congruence | exact C].
Qed.

Lemma clock_bounds_witness :
  exists s, run bonusTest rnd0 (take 3 winBonus) = Ok s /\
            0 <= timeLeft s <= 5 /\ timeLeft s = 2.
Proof.
  destruct (run bonusTest rnd0 (take 3 winBonus)) as [s|e] eqn:Hrun;
    [|vm_compute in Hrun; discriminate].
  exists s. split; [reflexivity|]. split.
  - refine (proj1 (clock_bounds bonusTest rnd0 (take 3 winBonus) s _ Hrun)).
    cbn. lia.
  - vm_compute in Hrun. injection Hrun as <-. reflexivity.
Defined.

(** X7 (the bonus round): in every state of a session that shows the bonus
    round, the player has qualified, the main clock has run out, the bonus
    clock is between 0 and 10 and above 0 while the game runs with no result
    yet, and the two items displayed are the pair picked from the pool, in
    one order or the other. *)
Theorem bonus_round_shape (p : Props) (rnd0 : Random) (evs : list (Event * Random))
    (s : State) (Hrun : run p rnd0 evs = Ok s) (Hshow : showBonusRound s = true) :
  earnedBonus s = true /\ timeLeft s <= 0 /\ 0 <= bonusTimer s <= 10 /\
  (ended s = None -> bonusResult s = None -> 0 < bonusTimer s) /\
  exists real ai,
    bonusItems s = Some (real, ai) /\ (real ∈ items p) /\ (ai ∈ items p) /\
    (isReal ai = false \/ List.filter (fun i => negb (isReal i)) (items p) = []) /\
    (bonusDisplayItems s = [real; ai] \/ bonusDisplayItems s = [ai; real]).
Proof.
  destruct (run_reach _ _ _ _ Hrun) as (_ & [_ Hs] & HS).
  destruct (st_show _ _ HS Hshow) as (A & B & C & D).
  split; [exact A|]. split; [exact B|]. split; [exact C|]. split; [|exact D].
  intros Hlive Hres. destruct (Hs Hlive) as [_ [E | [E | E]]]; [congruence.. | exact E].
Qed.

Lemma bonus_round_shape_witness :
  exists s, run bonusTest rnd0 (take 5 winBonus) = Ok s /\
            showBonusRound s = true /\ earnedBonus s = true /\
            bonusDisplayItems s = [photo "A" true; photo "B" false].
Proof.
  destruct (run bonusTest rnd0 (take 5 winBonus)) as [s|e] eqn:Hrun;
    [|vm_compute in Hrun; discriminate].
  assert (Hshow : showBonusRound s = true).
  { vm_compute in Hrun. injection Hrun as <-. reflexivity. }
  exists s. split; [reflexivity|]. split; [exact Hshow|].
  split; [exact (proj1 (bonus_round_shape bonusTest rnd0 _ s Hrun Hshow))|].
  vm_compute in Hrun. injection Hrun as <-. reflexivity.
Defined.

(** X8 (winning the bonus round): in every state of a session whose bonus
    result is a success, the last record of the log is the 1000-point record
    of an item of the pool that is not authentic; so on a pool with authentic
    items only the bonus round is never won. *)
Theorem bonus_success_means_fake_clicked (p : Props) (rnd0 : Random)
    (evs : list (Event * Random)) (s : State)
    (Hrun : run p rnd0 evs = Ok s) (Hres : bonusResult s = Some success) :
  exists item, (item ∈ items p) /\ isReal item = false /\
               last (answers s) = Some (bonusRecord item) /\
               pointsEarned (bonusRecord item) = 1000.
Proof.
  destruct (run_reach _ _ _ _ Hrun) as (_ & _ & HS).
  destruct (st_log _ _ HS) as (main & bonus & -> & _ & _ & Hbonus).
  destruct Hbonus as [[_ Hn] | (item & -> & Hin & Hshow & Hr)]; [congruence|].
  assert (Hfake : isReal item = false).
  { destruct (isReal item); [congruence | reflexivity]. }
  exists item. split; [|split; [exact Hfake|split]].
  - destruct (st_show _ _ HS Hshow) as (_ & _ & _ & real & ai & _ & Hr' & Hai & _ & Hd).
    destruct Hd as [Hd | Hd]; rewrite Hd in Hin; apply list_elem_of_In in Hin;
      cbn in Hin; intuition congruence.
  - apply last_snoc.
  - unfold bonusRecord. cbn. rewrite Hfake. reflexivity.
Qed.

Lemma bonus_success_means_fake_clicked_witness :
  exists s item, run bonusTest rnd0 winBonus = Ok s /\ (item ∈ items bonusTest) /\
                 isReal item = false /\ last (answers s) = Some (bonusRecord item) /\
                 score s = 1000.
Proof.
  destruct (run bonusTest rnd0 winBonus) as [s|e] eqn:Hrun;
    [|vm_compute in Hrun; discriminate].
  assert (Hres : bonusResult s = Some success /\ score s = 1000).
  { vm_compute in Hrun. injection Hrun as <-. split; reflexivity. }
  destruct (bonus_success_means_fake_clicked bonusTest rnd0 winBonus s Hrun (proj1 Hres))
    as (item & Hin & Hfake & Hlast & _).
  exists s, item. split; [reflexivity|]. split; [exact Hin|]. split; [exact Hfake|].
  split; [exact Hlast | exact (proj2 Hres)].
Defined.

(** X9 (no results without the bonus round): with a positive duration,
    when [onEndGame] is called for the first time and the player has
    qualified, the bonus round has been shown and has a result: the first
    call never sends a qualified player to the results without the bonus
    round. *)
Theorem qualified_player_plays_bonus (p : Props) (rnd0 : Random)
    (evs : list (LiveScreen.Event * Random)) (s : State) (log : list UserAnswer)
    (Hdur : 0 < duration p) (Hrun : LiveScreen.run p rnd0 evs = Ok s)
    (Hfirst : LiveScreen.endedBefore p rnd0 evs = false)
    (Hend : ended s = Some log) (Hearn : earnedBonus s = true) :
  showBonusRound s = true /\ bonusResult s <> None.
Proof.
  apply live_run_first in Hrun; [|exact Hfirst].
  apply (run_endedOk p rnd0 _ s Hdur Hrun); [congruence | exact Hearn].
Qed.

Lemma qualified_player_plays_bonus_witness :
  exists s, LiveScreen.run bonusTest rnd0 winBonusLive = Ok s /\ ended s <> None /\
            showBonusRound s = true /\ bonusResult s <> None.
Proof.
  destruct (LiveScreen.run bonusTest rnd0 winBonusLive) as [s|e] eqn:Hrun;
    [|vm_compute in Hrun; discriminate].
  assert (H : ended s = Some (answers s) /\ earnedBonus s = true).
  { vm_compute in Hrun. injection Hrun as <-. split; reflexivity. }
  exists s. split; [reflexivity|]. split; [destruct H as [-> _]; discriminate|].
  refine (qualified_player_plays_bonus bonusTest rnd0 winBonusLive s _ _ Hrun _
            (proj1 H) (proj2 H)).
  - cbn. lia.
  - vm_compute. reflexivity.
Defined.

End SessionFacts.

(** ** The review screen *)

Module ReviewDataFacts.
Import ReviewData ReviewSamples Samples.

Definition corr (x : Entry) : bool := isCorrect (answer x).

Lemma insert_correct x cs ws :
  corr x = true -> Forall (fun y => corr y = true) cs ->
  Forall (fun y => corr y = false) ws ->
  insert sortFn x (cs ++ ws) = cs ++ x :: ws.
Proof.
  intros Hx Hcs Hws. induction Hcs as [|y cs Hy Hcs IH]; cbn.
  - destruct Hws as [|w ws Hw Hws]; [reflexivity|]. cbn. unfold sortFn.
    unfold corr in *. rewrite Hx, Hw. reflexivity.
  - unfold sortFn at 1. unfold corr in *. rewrite Hx, Hy. cbn. rewrite IH. reflexivity.
Qed.

Lemma insert_incorrect x l : corr x = false -> insert sortFn x l = l ++ [x].
Proof.
  intros Hx. induction l as [|y l IH]; [reflexivity|]. cbn. unfold sortFn at 1.
  unfold corr in *. rewrite Hx. destruct (isCorrect (answer y)); cbn; rewrite IH; reflexivity.
Qed.

(** Sorting with [sortFn]: the correct entries in their order, then the
    others in theirs. *)
Lemma Array_sort_sortFn l :
  Array_sort sortFn l = List.filter corr l ++ List.filter (fun x => negb (corr x)) l.
Proof.
  unfold Array_sort. induction l as [|x l IH] using rev_ind; [reflexivity|].
  rewrite foldl_app. cbn [foldl]. rewrite IH, !List.filter_app. cbn [List.filter].
  destruct (corr x) eqn:Hx; cbn [negb]; rewrite !app_nil_r.
  - rewrite insert_correct.
    + rewrite <- app_assoc. reflexivity.
    + exact Hx.
    + apply Forall_forall. intros y Hy. apply list_elem_of_In, filter_In in Hy. tauto.
    + apply Forall_forall. intros y Hy. apply list_elem_of_In, filter_In in Hy.
      destruct (corr y); [cbn in Hy; destruct Hy; discriminate | reflexivity].
  - rewrite insert_incorrect by exact Hx. rewrite <- app_assoc. reflexivity.
Qed.


(** [itemData.isReal] where the item was found. *)
Definition realOf (x : Entry) : bool :=
  match itemData x with Some i => isReal i | None => false end.

(** The entries of [m] of one kind and one outcome, in the order of [m]. *)
Definition pick (real correct : bool) (m : list Entry) : list Entry :=
  List.filter (fun x => Bool.eqb (realOf x) real && Bool.eqb (corr x) correct) m.

Lemma Array_filter_found (g : bool -> bool) m :
  Forall (fun x => is_Some (itemData x)) m ->
  Array_filter (fun x => bindR (isRealOf x) (fun r => Ok (g r))) m =
  Ok (List.filter (fun x => g (realOf x)) m).
Proof.
  induction 1 as [|x m [i Hi] Hm IH]; [reflexivity|].
  cbn [Array_filter List.filter]. unfold isRealOf at 1, realOf at 1. rewrite Hi, IH.
  cbn. destruct (g (isReal i)); reflexivity.
Qed.

Lemma Array_filter_missing (g : bool -> bool) m :
  Exists (fun x => itemData x = None) m ->
  Array_filter (fun x => bindR (isRealOf x) (fun r => Ok (g r))) m = Throws TypeError.
Proof.
  induction 1 as [x m Hx | x m Hm IH]; cbn [Array_filter]; unfold isRealOf at 1.
  - rewrite Hx. reflexivity.
  - rewrite IH. destruct (itemData x); reflexivity.
Qed.

Lemma Array_filter_isRealOf m :
  Array_filter isRealOf m = Array_filter (fun x => bindR (isRealOf x) (fun r => Ok r)) m.
Proof.
  induction m as [|x m IH]; [reflexivity|]. cbn [Array_filter]. rewrite IH.
  destruct (isRealOf x); reflexivity.
Qed.

Lemma filter_twice {A} (f g : A -> bool) l :
  List.filter f (List.filter g l) = List.filter (fun x => g x && f x) l.
Proof.
  induction l as [|x l IH]; [reflexivity|]. cbn. destruct (g x); cbn; [|exact IH].
  destruct (f x); rewrite IH; reflexivity.
Qed.

Lemma filter_split {A} (f : A -> bool) l :
  List.filter f l ++ List.filter (fun x => negb (f x)) l ≡ₚ l.
Proof.
  induction l as [|x l IH]; [reflexivity|]. cbn. destruct (f x); cbn.
  - rewrite IH. reflexivity.
  - rewrite <- Permutation_middle, IH. reflexivity.
Qed.

Lemma filter_ext_eq {A} (f g : A -> bool) l :
  (forall x, f x = g x) -> List.filter f l = List.filter g l.
Proof.
  intros H. induction l as [|x l IH]; [reflexivity|]. cbn. rewrite H, IH. reflexivity.
Qed.

Lemma sorted_kind (real : bool) m :
  Array_sort sortFn (List.filter (fun x => Bool.eqb (realOf x) real) m) =
  pick real true m ++ pick real false m.
Proof.
  rewrite Array_sort_sortFn, !filter_twice. unfold pick. f_equal; apply filter_ext_eq;
    intros x; destruct (corr x), (Bool.eqb (realOf x) real); reflexivity.
Qed.

(** Whether every answer has its item, and what [merged] holds then. *)
Lemma merged_found answers items :
  Forall (fun a => exists i, (i ∈ items) /\ id i = itemId a) answers ->
  Forall (fun x => is_Some (itemData x)) (merged answers items).
Proof.
  unfold merged. intros H. apply Forall_map. eapply Forall_impl; [exact H|].
  cbn. intros a (i & Hin & Hid).
  destruct (List.find (fun i0 => String.eqb (id i0) (itemId a)) items) eqn:E; [eauto|].
  apply list_elem_of_In in Hin.
  pose proof (find_none _ _ E i Hin) as Hn. cbn in Hn.
  rewrite Hid, String.eqb_refl in Hn. discriminate.
Qed.

Lemma merged_missing answers items :
  Exists (fun a => forall i, (i ∈ items) -> id i <> itemId a) answers ->
  Exists (fun x => itemData x = None) (merged answers items).
Proof.
  unfold merged. intros H. apply Exists_exists in H as (a & Ha & Hno).
  apply Exists_exists.
  exists (mkEntry a (List.find (fun i => String.eqb (id i) (itemId a)) items)).
  split; [apply list_elem_of_In;
    apply (in_map (fun a => mkEntry a (List.find (fun i => String.eqb (id i) (itemId a)) items)));
    apply list_elem_of_In; exact Ha|].
  cbn. destruct (List.find (fun i0 => String.eqb (id i0) (itemId a)) items) eqn:E;
    [|reflexivity].
  apply find_some in E as [Hin Heq]. apply String.eqb_eq in Heq.
  apply list_elem_of_In in Hin. destruct (Hno _ Hin Heq).
Qed.

Lemma useMemo_found answers items :
  Forall (fun x => is_Some (itemData x)) (merged answers items) ->
  useMemo answers items =
  Ok (let m := merged answers items in
      let ai := pick false true m ++ pick false false m in
      let real := pick true true m ++ pick true false m in
      {| aiItems := ai; realItems := real; flatList := ai ++ real;
         correctCount := length (List.filter (fun a => isCorrect a) answers);
         totalScore := GameScreen.totalScore answers |}).
Proof.
  intros H. unfold useMemo.
  rewrite (Array_filter_found negb _ H), Array_filter_isRealOf,
    (Array_filter_found (fun r => r) _ H).
  cbn [bindR].
  rewrite (filter_ext_eq (fun x => negb (realOf x)) (fun x => Bool.eqb (realOf x) false))
    by (intros x; destruct (realOf x); reflexivity).
  rewrite (filter_ext_eq (fun x => realOf x) (fun x => Bool.eqb (realOf x) true))
    by (intros x; destruct (realOf x); reflexivity).
  rewrite !sorted_kind. reflexivity.
Qed.


Lemma useMemo_missing answers items :
  Exists (fun x => itemData x = None) (merged answers items) ->
  useMemo answers items = Throws TypeError.
Proof.
  intros H. unfold useMemo. rewrite (Array_filter_missing negb _ H). reflexivity.
Qed.

Lemma answers_found_or_missing (answers : list UserAnswer) (items : list MediaItem) :
  Forall (fun a => exists i, (i ∈ items) /\ id i = itemId a) answers \/
  Exists (fun a => forall i, (i ∈ items) -> id i <> itemId a) answers.
Proof.
  induction answers as [|a answers [IH | IH]].
  - left. constructor.
  - destruct (List.find (fun i => String.eqb (id i) (itemId a)) items) as [i|] eqn:E.
    + left. constructor; [|exact IH]. apply find_some in E as [Hin Heq].
      exists i. split; [apply list_elem_of_In; exact Hin | apply String.eqb_eq; exact Heq].
    + right. apply Exists_cons_hd. intros i Hin Heq. apply list_elem_of_In in Hin.
      pose proof (find_none _ _ E i Hin) as Hn. cbn in Hn.
      rewrite Heq, String.eqb_refl in Hn. discriminate.
  - right. apply Exists_cons_tl. exact IH.
Qed.

Lemma pick_perm m :
  (pick false true m ++ pick false false m) ++ (pick true true m ++ pick true false m) ≡ₚ m.
Proof.
  rewrite <- !sorted_kind, !Array_sort_sortFn, !filter_split.
  rewrite (filter_ext_eq (fun x => Bool.eqb (realOf x) false)
             (fun x => negb (Bool.eqb (realOf x) true)))
    by (intros x; destruct (realOf x); reflexivity).
  rewrite Permutation_app_comm. apply filter_split.
Qed.

Lemma useMemo_Ok answers items d :
  useMemo answers items = Ok d ->
  Forall (fun x => is_Some (itemData x)) (merged answers items) /\
  d = (let m := merged answers items in
       let ai := pick false true m ++ pick false false m in
       let real := pick true true m ++ pick true false m in
       {| aiItems := ai; realItems := real; flatList := ai ++ real;
          correctCount := length (List.filter (fun a => isCorrect a) answers);
          totalScore := GameScreen.totalScore answers |}).
Proof.
  intros H. destruct (answers_found_or_missing answers items) as [Hf | Hm].
  - pose proof (merged_found _ _ Hf) as Hf'. split; [exact Hf'|].
    rewrite (useMemo_found _ _ Hf') in H. injection H as <-. reflexivity.
  - rewrite (useMemo_missing _ _ (merged_missing _ _ Hm)) in H. discriminate.
Qed.

Lemma flatList_found answers items d :
  useMemo answers items = Ok d ->
  Forall (fun x => is_Some (itemData x)) (flatList d).
Proof.
  intros H. destruct (useMemo_Ok _ _ _ H) as [Hf ->]. cbn.
  eapply Permutation_Forall; [symmetry; apply pick_perm | exact Hf].
Qed.

Lemma flatList_app answers items d :
  useMemo answers items = Ok d -> flatList d = aiItems d ++ realItems d.
Proof. intros H. destruct (useMemo_Ok _ _ _ H) as [_ ->]. reflexivity. Qed.

Lemma flatList_length answers items d :
  useMemo answers items = Ok d -> length (flatList d) = length answers.
Proof.
  intros H. destruct (useMemo_Ok _ _ _ H) as [_ ->]. cbn.
  rewrite (Permutation_length (pick_perm _)). unfold merged. apply length_map.
Qed.

Lemma useMemo_covered answers items :
  Forall (fun a => exists i, (i ∈ items) /\ id i = itemId a) answers ->
  exists d, useMemo answers items = Ok d.
Proof.
  intros H. rewrite (useMemo_found _ _ (merged_found _ _ H)). eauto.
Qed.

(** X10 (the order of the review): when the lists of the review screen are
    built, the AI grid holds the answers to the items that are not authentic
    and the other grid those to the authentic ones, in each the correct
    answers first and otherwise in the order of the log; the list the modal
    walks is the first grid followed by the second, a rearrangement of the
    log, one entry per answer. *)
Theorem review_lists_order (answers : list UserAnswer) (items : list MediaItem) (d : Lists)
    (Hd : useMemo answers items = Ok d) :
  let m := merged answers items in
  aiItems d = pick false true m ++ pick false false m /\
  realItems d = pick true true m ++ pick true false m /\
  flatList d = aiItems d ++ realItems d /\
  flatList d ≡ₚ m /\
  map answer m = answers /\
  length (flatList d) = length answers.
Proof.
  destruct (useMemo_Ok _ _ _ Hd) as [_ ->]. cbn.
  assert (Hm : map answer (merged answers items) = answers).
  { unfold merged. rewrite map_map. cbn. apply map_id. }
  repeat split; try exact Hm.
  - apply pick_perm.
  - rewrite (Permutation_length (pick_perm _)). unfold merged. apply length_map.
Qed.


Lemma review_lists_order_witness :
  exists d, useMemo abcLog (GameScreen.items abc) = Ok d /\
            map (fun x => itemId (answer x)) (aiItems d) = ["B"] /\
            map (fun x => itemId (answer x)) (realItems d) = ["C"; "A"] /\
            length (flatList d) = 3%nat.
Proof.
  destruct (useMemo abcLog (GameScreen.items abc)) as [d|e] eqn:Hd;
    [|vm_compute in Hd; discriminate].
  exists d.
  destruct (review_lists_order _ _ d Hd) as (Hai & Hreal & _ & _ & _ & Hlen).
  split; [reflexivity|]. split; [rewrite Hai; reflexivity|].
  split; [rewrite Hreal; reflexivity | exact Hlen].
Defined.

(** X11 (a log the pool does not cover): building the lists of the review
    screen succeeds when every answer of the log names the id of an item of
    the pool; when some answer does not, it throws a TypeError. *)
Theorem review_needs_every_item (answers : list UserAnswer) (items : list MediaItem) :
  match useMemo answers items with
  | Ok _ => Forall (fun a => exists i, (i ∈ items) /\ id i = itemId a) answers
  | Throws e =>
      e = TypeError /\
      Exists (fun a => forall i, (i ∈ items) -> id i <> itemId a) answers
  end.
Proof.
  destruct (answers_found_or_missing answers items) as [Hf | Hm].
  - rewrite (useMemo_found _ _ (merged_found _ _ Hf)). exact Hf.
  - rewrite (useMemo_missing _ _ (merged_missing _ _ Hm)). split; [reflexivity | exact Hm].
Qed.

(** *** The modal stays on the list *)

Lemma handle_in_bounds d ev sel :
  flatList d = aiItems d ++ realItems d ->
  (forall i, sel = Some i -> (i < length (flatList d))%nat) ->
  forall i, handle d ev sel = Some i -> (i < length (flatList d))%nat.
Proof.
  intros Hflat Hsel i. rewrite Hflat, length_app in *.
  destruct ev as [k|k| | |]; cbn [handle].
  - destruct (Nat.ltb_spec k (length (aiItems d))) as [E | E]; [|apply Hsel].
    intros [= <-]. lia.
  - destruct (Nat.ltb_spec k (length (realItems d))) as [E | E]; [|apply Hsel].
    intros [= <-]. lia.
  - unfold handleNext. destruct sel as [j|]; [|discriminate].
    rewrite Hflat, length_app. specialize (Hsel j eq_refl).
    destruct (Z.ltb_spec (Z.of_nat j)
                (Z.of_nat (length (aiItems d) + length (realItems d)) - 1)) as [E | E];
      intros [= <-]; lia.
  - unfold handlePrev. destruct sel as [j|]; [|discriminate].
    specialize (Hsel j eq_refl).
    destruct (Z.ltb_spec 0 (Z.of_nat j)) as [E | E]; intros [= <-]; lia.
  - discriminate.
Qed.

Lemma modalData_in_bounds d sel :
  Forall (fun x => is_Some (itemData x)) (flatList d) ->
  (forall i, sel = Some i -> (i < length (flatList d))%nat) ->
  exists shown, modalData d sel = Ok shown.
Proof.
  intros Hf Hsel. destruct sel as [i|]; cbn; [|eauto].
  destruct (lookup_lt_is_Some_2 (flatList d) i (Hsel i eq_refl)) as [e He].
  rewrite He. rewrite Forall_lookup in Hf. destruct (Hf i e He) as [it ->]. cbn. eauto.
Qed.

(** X12 (browsing the review never leaves the list): once the lists are
    built, every sequence of clicks on the cells of the two grids and on the
    next, previous and close buttons of the modal runs without an exception,
    and whenever the modal is open afterwards it shows an entry of the list
    whose item is known. *)
Theorem browse_stays_on_list (answers : list UserAnswer) (items : list MediaItem)
    (d : Lists) (evs : list Click) (Hd : useMemo answers items = Ok d) :
  exists sel, browse d evs = Ok sel /\
    forall i, sel = Some i ->
      exists e item, flatList d !! i = Some e /\ itemData e = Some item /\
                     modalData d sel = Ok (Some e).
Proof.
  pose proof (flatList_found _ _ _ Hd) as Hf.
  assert (Hflat : flatList d = aiItems d ++ realItems d).
  { destruct (useMemo_Ok _ _ _ Hd) as [_ ->]. reflexivity. }
  assert (H : exists sel, browse d evs = Ok sel /\
                forall i, sel = Some i -> (i < length (flatList d))%nat).
  { unfold browse. induction evs as [|ev evs IH] using rev_ind.
    - exists None. split; [reflexivity | discriminate].
    - destruct IH as (sel & Hb & Hsel). rewrite foldl_app. cbn [foldl]. rewrite Hb.
      cbn [bindR]. unfold step.
      pose proof (handle_in_bounds d ev sel Hflat Hsel) as Hsel'.
      destruct (modalData_in_bounds d _ Hf Hsel') as [shown ->].
      eexists. split; [reflexivity | exact Hsel']. }
  destruct H as (sel & Hb & Hsel). exists sel. split; [exact Hb|].
  intros i ->. destruct (lookup_lt_is_Some_2 (flatList d) i (Hsel i eq_refl)) as [e He].
  rewrite Forall_lookup in Hf. destruct (Hf i e He) as [it Hit].
  exists e, it. split; [exact He|]. split; [exact Hit|].
  cbn. rewrite He, Hit. reflexivity.
Qed.

Lemma browse_stays_on_list_witness :
  exists d sel, useMemo abcLog (GameScreen.items abc) = Ok d /\
                browse d [ClickReal 1; Next; Next; Prev; Prev; Prev; Prev] = Ok sel /\
                sel = Some 0%nat.
Proof.
  destruct (useMemo abcLog (GameScreen.items abc)) as [d|e] eqn:Hd;
    [|vm_compute in Hd; discriminate].
  destruct (browse_stays_on_list _ _ d [ClickReal 1; Next; Next; Prev; Prev; Prev; Prev] Hd)
    as (sel & Hb & _).
  exists d, sel. split; [reflexivity|]. split; [exact Hb|].
  vm_compute in Hd. injection Hd as <-. vm_compute in Hb. injection Hb as <-. reflexivity.
Defined.

(** X13 (a cell opens its own entry): once the lists are built, a click on
    the [i]-th cell of the AI grid opens the modal on the entry of that cell,
    and so does a click on the [i]-th cell of the other grid; from an entry
    that is not the last, next then previous comes back to it. *)
Theorem grid_click_opens_cell (answers : list UserAnswer) (items : list MediaItem)
    (d : Lists) (sel : option nat) (Hd : useMemo answers items = Ok d) :
  (forall i e, aiItems d !! i = Some e ->
     exists sel', step d sel (ClickAI i) = Ok sel' /\ modalData d sel' = Ok (Some e)) /\
  (forall i e, realItems d !! i = Some e ->
     exists sel', step d sel (ClickReal i) = Ok sel' /\ modalData d sel' = Ok (Some e)) /\
  (forall i, (i + 1 < length (flatList d))%nat ->
     handlePrev (handleNext d (Some i)) = Some i).
Proof.
  pose proof (flatList_found _ _ _ Hd) as Hf.
  assert (Hflat : flatList d = aiItems d ++ realItems d).
  { destruct (useMemo_Ok _ _ _ Hd) as [_ ->]. reflexivity. }
  rewrite Forall_lookup in Hf. split; [|split].
  - intros i e He. pose proof (lookup_lt_Some _ _ _ He) as Hlt.
    assert (Hfl : flatList d !! i = Some e).
    { rewrite Hflat. apply lookup_app_l_Some. exact He. }
    destruct (Hf i e Hfl) as [it Hit].
    assert (Hm : modalData d (Some i) = Ok (Some e)) by (cbn; rewrite Hfl, Hit; reflexivity).
    exists (Some i). split; [|exact Hm]. unfold step. cbn [handle].
    assert ((i <? length (aiItems d))%nat = true) as -> by (apply Nat.ltb_lt; exact Hlt).
    unfold handleItemClick. rewrite Hm. reflexivity.
  - intros i e He. pose proof (lookup_lt_Some _ _ _ He) as Hlt.
    assert (Hfl : flatList d !! (length (aiItems d) + i)%nat = Some e).
    { rewrite Hflat, lookup_app_r by lia.
      replace (length (aiItems d) + i - length (aiItems d))%nat with i by lia. exact He. }
    destruct (Hf _ e Hfl) as [it Hit].
    assert (Hm : modalData d (Some (length (aiItems d) + i)%nat) = Ok (Some e))
      by (cbn; rewrite Hfl, Hit; reflexivity).
    exists (Some (length (aiItems d) + i)%nat). split; [|exact Hm]. unfold step. cbn [handle].
    assert ((i <? length (realItems d))%nat = true) as -> by (apply Nat.ltb_lt; exact Hlt).
    unfold handleItemClick. rewrite Hm. reflexivity.
  - intros i Hi. unfold handleNext.
    assert ((Z.of_nat i <? Z.of_nat (length (flatList d)) - 1) = true) as -> by lia.
    unfold handlePrev.
    assert ((0 <? Z.of_nat (i + 1)) = true) as -> by (apply Z.ltb_lt; lia).
    f_equal. lia.
Qed.

Lemma grid_click_opens_cell_witness :
  exists d sel, useMemo abcLog (GameScreen.items abc) = Ok d /\
                step d None (ClickReal 0) = Ok sel /\ sel = Some 1%nat /\
                (itemId ∘ answer <$> realItems d !! 0%nat) = Some "C".
Proof.
  destruct (useMemo abcLog (GameScreen.items abc)) as [d|e] eqn:Hd;
    [|vm_compute in Hd; discriminate].
  destruct (realItems d !! 0%nat) as [e|] eqn:He;
    [|vm_compute in Hd; injection Hd as <-; discriminate].
  destruct (proj1 (proj2 (grid_click_opens_cell _ _ d None Hd)) 0%nat e He)
    as (sel & Hs & _).
  exists d, sel. split; [reflexivity|]. split; [exact Hs|].
  vm_compute in Hd. injection Hd as <-. vm_compute in Hs. injection Hs as <-.
  vm_compute in He. injection He as <-. split; reflexivity.
Defined.

End ReviewDataFacts.

Module WatchdogFacts.
Import ReviewScreen ReviewScreenFacts.

(** Where the watchdog stands: an idle timeout is pending, due within
    [IDLE_TIMEOUT], and the warning is off; or the expiry is pending, due
    within [COUNTDOWN_DURATION], and the warning is on; or nothing is pending
    and [onBackToHome] has been called. *)
Definition phase (s : State) : Prop :=
  (exists tid d, timers s = [mkTimer tid d IdleCallback] /\
                 d <= clock s + IDLE_TIMEOUT /\ showIdleWarning s = false) \/
  (exists tid d, timers s = [mkTimer tid d ResetCallback] /\
                 d <= clock s + COUNTDOWN_DURATION /\ showIdleWarning s = true) \/
  (timers s = [] /\ (1 <= backToHome s)%nat).

Lemma fired_idle s tid d :
  timers s = [mkTimer tid d IdleCallback] ->
  timers (fired (mkTimer tid d IdleCallback) s) =
    [mkTimer (nextTimerId s) (Z.max (clock s) d + COUNTDOWN_DURATION) ResetCallback] /\
  showIdleWarning (fired (mkTimer tid d IdleCallback) s) = true /\
  backToHome (fired (mkTimer tid d IdleCallback) s) = backToHome s.
Proof.
  intros Ht. unfold fired. cbn. rewrite Ht. cbn. rewrite Nat.eqb_refl. cbn.
  repeat split.
Qed.

Lemma fired_reset s tid d :
  timers s = [mkTimer tid d ResetCallback] ->
  timers (fired (mkTimer tid d ResetCallback) s) = [] /\
  showIdleWarning (fired (mkTimer tid d ResetCallback) s) = showIdleWarning s /\
  backToHome (fired (mkTimer tid d ResetCallback) s) = S (backToHome s).
Proof.
  intros Ht. unfold fired. cbn. rewrite Ht. cbn. rewrite Nat.eqb_refl. cbn.
  repeat split.
Qed.

Lemma phase_setClock s c : clock s <= c -> phase s -> phase (setClock c s).
Proof.
  intros Hc [(tid & d & Ht & Hd & Hw) | [(tid & d & Ht & Hd & Hw) | [Ht Hb]]].
  - left. exists tid, d. cbn. repeat split; try assumption. lia.
  - right; left. exists tid, d. cbn. repeat split; try assumption. lia.
  - right; right. split; assumption.
Qed.

Lemma advance_phase_weight w s dt :
  weight (timers s) = w -> Inv s -> phase s -> phase (advance dt s).
Proof.
  revert s dt. induction w as [|w IH]; intros s dt Hw HI Hp;
    pose proof HI as [_ _ [Ht | (t & Ht & _)]].
  - rewrite (advance_nil s dt Ht). apply phase_setClock; [lia | exact Hp].
  - rewrite Ht in Hw. destruct t as [n d [|]]; discriminate.
  - rewrite (advance_nil s dt Ht). apply phase_setClock; [lia | exact Hp].
  - destruct (Z.le_gt_cases (due t) (clock s + dt)) as [Hdue | Hdue].
    + rewrite (advance_fire s t dt Ht Hdue). apply IH.
      * pose proof (fired_weight t s Ht). lia.
      * apply fired_Inv; assumption.
      * destruct t as [tid d [|]].
        -- destruct (fired_idle s tid d Ht) as (Ft & Fw & _).
           right; left. eexists _, _. split; [exact Ft|]. rewrite fired_clock. cbn.
           split; [lia | exact Fw].
        -- destruct (fired_reset s tid d Ht) as (Ft & _ & Fb).
           right; right. split; [exact Ft | lia].
    + rewrite (advance_wait s t dt Ht) by lia. apply phase_setClock; [lia | exact Hp].
Qed.

Lemma step_phase s ev : Inv s -> phase s -> phase (step s ev).
Proof.
  intros HI Hp. pose proof HI as [Hid Href Ht]. destruct ev as [| |dt]; cbn [step].
  - unfold throttledHandler, handleUserActivity.
    destruct (1000 <? clock s - lastRun s); [|rewrite commit_id; assumption].
    destruct (isWarningVisibleRef s) eqn:E.
    + exact Hp.
    + rewrite (startIdleTimer_eq s Ht). left. eexists _, _. cbn.
      split; [reflexivity|]. split; [lia | congruence].
  - destruct (showIdleWarning s); [|exact Hp].
    unfold handleResumeGame. rewrite startIdleTimer_eq by exact Ht.
    left. eexists _, _. cbn. split; [reflexivity|]. split; [lia | reflexivity].
  - apply (advance_phase_weight (weight (timers s))); [reflexivity | exact HI | exact Hp].
Qed.

Lemma run_phase t0 tid0 evs : (1 <= tid0)%nat -> phase (run t0 tid0 evs).
Proof.
  intros H. unfold run.
  assert (H0 : Inv (mount t0 tid0) /\ phase (mount t0 tid0)).
  { split; [apply watchdog_mount_Inv; exact H|].
    unfold mount. rewrite startIdleTimer_eq by (left; reflexivity).
    left. eexists _, _. cbn. split; [reflexivity|]. split; [lia | reflexivity]. }
  revert H0. generalize (mount t0 tid0).
  induction evs as [|ev evs IH]; intros s [HI Hp]; cbn; [exact Hp|].
  apply IH. split; [apply watchdog_step_Inv; exact HI | apply step_phase; assumption].
Qed.

(** X14 (75 seconds without input lead home): in every state the screen
    reaches before [onBackToHome] was called, whatever the user did so far,
    once 75 seconds or more pass with no further event [onBackToHome] has
    been called exactly once, the warning is on and no timeout is left
    pending. *)
Theorem idle_always_leads_home (t0 : Z) (tid0 : nat) (evs : list Event) (dt : Z)
    (Htid : (1 <= tid0)%nat) (Hhome : backToHome (run t0 tid0 evs) = 0%nat)
    (Hdt : 75000 <= dt) :
  let s := advance dt (run t0 tid0 evs) in
  backToHome s = 1%nat /\ showIdleWarning s = true /\ timers s = [].
Proof.
  cbn zeta. pose proof (watchdog_run_Inv t0 tid0 evs Htid) as HI.
  pose proof (run_phase t0 tid0 evs Htid) as Hp.
  set (s := run t0 tid0 evs) in *.
  unfold phase, IDLE_TIMEOUT, COUNTDOWN_DURATION in Hp.
  assert (Hreset : forall s1 tid d dt1,
            timers s1 = [mkTimer tid d ResetCallback] -> d <= clock s1 + dt1 ->
            showIdleWarning s1 = true ->
            backToHome (advance dt1 s1) = S (backToHome s1) /\
            showIdleWarning (advance dt1 s1) = true /\ timers (advance dt1 s1) = []).
  { intros s1 tid d dt1 Ht Hd Hw.
    rewrite (advance_fire s1 _ dt1 Ht) by exact Hd.
    destruct (fired_reset s1 tid d Ht) as (Ft & Fw & Fb).
    rewrite (advance_nil _ _ Ft). unfold setClock.
    cbn [backToHome showIdleWarning timers]. rewrite Ft, Fw, Fb, Hw. repeat split. }
  destruct Hp as [(tid & d & Ht & Hd & Hw) | [(tid & d & Ht & Hd & Hw) | [_ Hb]]].
  - rewrite (advance_fire s _ dt Ht) by (cbn; lia).
    destruct (fired_idle s tid d Ht) as (Ft & Fw & Fb).
    destruct (Hreset _ _ _ (clock s + dt - Z.max (clock s) (due (mkTimer tid d IdleCallback)))
                Ft) as (A & B & C).
    + rewrite fired_clock. unfold COUNTDOWN_DURATION. cbn. lia.
    + exact Fw.
    + rewrite A, Fb, Hhome. repeat split; assumption.
  - destruct (Hreset s tid d dt Ht) as (A & B & C); [lia | exact Hw|].
    rewrite A, Hhome. repeat split; assumption.
  - lia.
Qed.

Lemma idle_always_leads_home_witness :
  backToHome (advance 75000 (run 0 1 [Wait 30000; Activity; Wait 59000; Activity])) = 1%nat.
Proof.
  refine (proj1 (idle_always_leads_home 0 1 [Wait 30000; Activity; Wait 59000; Activity]
                   75000 _ _ _)).
  - lia.
  - reflexivity.
  - lia.
Defined.

(** X15 (leaving cancels the watchdog): in every state the screen reaches,
    the cleanup of the effect leaves no timeout pending, so that however much
    time passes afterwards [onBackToHome] is not called and the warning does
    not change. *)
Theorem unmount_cancels_timers (t0 : Z) (tid0 : nat) (evs : list Event) (dt : Z)
    (Htid : (1 <= tid0)%nat) :
  let s := run t0 tid0 evs in
  timers (unmount s) = [] /\
  backToHome (advance dt (unmount s)) = backToHome s /\
  showIdleWarning (advance dt (unmount s)) = showIdleWarning s.
Proof.
  cbn zeta. destruct (watchdog_run_Inv t0 tid0 evs Htid) as [_ _ Ht].
  set (s := run t0 tid0 evs) in *.
  assert (E : timers (unmount s) = []) by (apply clear_both_timers; exact Ht).
  split; [exact E|]. rewrite (advance_nil _ dt E). unfold setClock.
  cbn [backToHome showIdleWarning]. unfold unmount.
  rewrite clearIfSet_eq. cbn [backToHome showIdleWarning setTimers].
  rewrite clearIfSet_eq. split; reflexivity.
Qed.

Lemma unmount_cancels_timers_witness :
  timers (unmount (run 0 1 [Wait 60000])) = [] /\
  backToHome (advance 15000 (unmount (run 0 1 [Wait 60000]))) = 0%nat /\
  backToHome (advance 15000 (run 0 1 [Wait 60000])) = 1%nat.
Proof.
  destruct (unmount_cancels_timers 0 1 [Wait 60000] 15000 (le_n 1)) as (A & B & _).
  split; [exact A|]. split; [exact B | reflexivity].
Defined.

End WatchdogFacts.

(** ** The store and the packs *)

Module StoreFacts.
Import Db DbFacts Store Samples StoreSamples.

(** *** File extensions *)

Fixpoint nosemi (s : string) : bool :=
  match s with
  | EmptyString => true
  | String c s' => negb (Ascii.eqb c (";")%char) && nosemi s'
  end.

Lemma beforeSemicolon_append m rest :
  nosemi m = true -> beforeSemicolon (m +:+ ";" +:+ rest) = m.
Proof.
  induction m as [|c m IH]; intros H.
  - reflexivity.
  - cbn in H. apply andb_true_iff in H as [Hc Hm].
    rewrite append_cons. cbn [beforeSemicolon].
    destruct (Ascii.eqb c ";"); [discriminate|]. rewrite (IH Hm). reflexivity.
Qed.

Lemma beforeSemicolon_nosemi m : nosemi m = true -> beforeSemicolon m = m.
Proof.
  induction m as [|c m IH]; intros H; [reflexivity|].
  cbn in H. apply andb_true_iff in H as [Hc Hm]. cbn [beforeSemicolon].
  destruct (Ascii.eqb c ";"); [discriminate|]. rewrite (IH Hm). reflexivity.
Qed.

(** A MIME type on which [getExtension] is what the source computes: none,
    or one in ASCII that does not come down to a key [MIME_TO_EXT]
    inherits. *)
Definition plainMime (mimeType : option string) : bool :=
  match mimeType with
  | None => true
  | Some m => isAscii m && negb (inheritedKey (toLowerCase (trim (beforeSemicolon m))))
  end.

(** X16 (file extensions): for no MIME type, and for a MIME type in ASCII
    that does not come down to [constructor] or [__proto__], [getExtension]
    answers with one of the six extensions jpg, png, gif, webp, mp4 and
    webm; and the parameters that follow a semicolon in the MIME type do not
    change its answer. *)
Theorem getExtension_known (mimeType : option string) (u : string) (itemType : MediaType)
    (Hplain : plainMime mimeType = true) :
  (getExtension mimeType u itemType ∈ ["jpg"; "png"; "gif"; "webp"; "mp4"; "webm"]) /\
  (forall m rest, nosemi m = true ->
     getExtension (Some (m +:+ ";" +:+ rest)) u itemType = getExtension (Some m) u itemType).
Proof.
  split.
  - unfold getExtension, MIME_TO_EXT, typeDefault.
    repeat case_match; simplify_eq; set_solver.
  - intros m rest Hm. destruct m as [|c m].
    + rewrite append_nil. reflexivity.
    + unfold getExtension. rewrite append_cons.
      rewrite <- append_cons, (beforeSemicolon_append _ rest Hm), (beforeSemicolon_nosemi _ Hm).
      reflexivity.
Qed.

Lemma getExtension_known_witness :
  getExtension (Some "image/png; charset=binary") "" image = "png" /\
  (getExtension (Some "application/zip") "" video ∈ ["jpg"; "png"; "gif"; "webp"; "mp4"; "webm"]).
Proof.
  split.
  - exact (proj2 (getExtension_known None "" image eq_refl) "image/png" " charset=binary" eq_refl).
  - exact (proj1 (getExtension_known (Some "application/zip") "" video eq_refl)).
Defined.

(** *** The stores the admin screen can reach *)

(** Every record of the store is marked as custom. *)
Definition flagged (db : gmap string MediaItem) : Prop :=
  forall k item, db !! k = Some item -> isCustom item = Some true.

Section Histories.

Variable readAsDataURL : Blob -> string.

(** The store after the loop of [importGamePack]. *)
Definition importAll (zip : gmap string ZipObject) (l : list MediaItem)
    (db : gmap string MediaItem) : gmap string MediaItem :=
  foldl (fun db item =>
           match imported readAsDataURL zip item with
           | Some item' => saveItem item' db
           | None => db
           end) db l.

Lemma foldl_importItem_store zip l db count :
  (foldl (importItem readAsDataURL zip) (db, count) l).1 = importAll zip l db.
Proof.
  unfold importAll. revert db count.
  induction l as [|a l IH]; intros db count; cbn [foldl]; [reflexivity|].
  rewrite importItem_split. destruct (imported readAsDataURL zip a); apply IH.
Qed.

(** A successful import read a manifest and ran the loop over its items. *)
Lemma importGamePack_Ok zip db db' count :
  importGamePack readAsDataURL zip db = Ok (db', count) ->
  exists m, manifestFile zip = Some (JsonText (JManifest m)) /\
            db' = importAll zip (items m) db /\
            count = length (List.filter (fun item => nonNull (imported readAsDataURL zip item))
                              (items m)).
Proof.
  unfold importGamePack, importRun.
  destruct (manifestFile zip) as [text|]; [|discriminate].
  destruct text as [bytes|[| | |m|before]]; cbn [JSON_parse bindR]; try discriminate.
  - destruct (foldl (importItem readAsDataURL zip) (db, 0%nat) (items m))
      as [db1 count1] eqn:E.
    cbn [bindR]. intros [= <- <-]. exists m. split; [reflexivity|].
    pose proof (foldl_importItem_store zip (items m) db 0) as H1.
    pose proof (foldl_importItem_count readAsDataURL zip (items m) db 0) as H2.
    rewrite E in H1, H2. cbn in H1, H2. split; [exact H1 | exact H2].
  - destruct (foldl (importItem readAsDataURL zip) (db, 0%nat) before). discriminate.
Qed.

(** The store a call of [importGamePack] leaves is the one the loop leaves
    on the items it went through. *)
Lemma importRun_store zip db :
  exists l, (importRun readAsDataURL zip db).1 = importAll zip l db.
Proof.
  unfold importRun. destruct (manifestFile zip) as [text|]; [|exists []; reflexivity].
  destruct text as [bytes|[| | |m|before]]; cbn [JSON_parse];
    try (exists []; reflexivity).
  - exists (items m). rewrite <- (foldl_importItem_store zip (items m) db 0).
    destruct (foldl _ _ _). reflexivity.
  - exists before. rewrite <- (foldl_importItem_store zip before db 0).
    destruct (foldl _ _ _). reflexivity.
Qed.

Lemma saveItem_flagged item db : flagged db -> flagged (saveItem item db).
Proof.
  intros H k i. unfold saveItem. rewrite lookup_insert.
  case_decide; [intros [= <-]; reflexivity | apply H].
Qed.

Lemma importAll_keyed_flagged zip l db :
  keyed db /\ flagged db -> keyed (importAll zip l db) /\ flagged (importAll zip l db).
Proof.
  unfold importAll. revert db. induction l as [|a l IH]; intros db H; cbn [foldl]; [exact H|].
  apply IH. destruct (imported readAsDataURL zip a); [|exact H].
  destruct H as [Hk Hf]. split; [apply saveItem_keyed | apply saveItem_flagged]; assumption.
Qed.

Lemma applyOp_keyed_flagged db op :
  keyed db /\ flagged db ->
  keyed (applyOp readAsDataURL db op) /\ flagged (applyOp readAsDataURL db op).
Proof.
  intros [Hk Hf]. destruct op as [item|k|zip]; cbn [applyOp].
  - split; [apply saveItem_keyed | apply saveItem_flagged]; assumption.
  - split; [apply deleteItem_keyed; assumption|].
    intros k' i. unfold deleteItem. rewrite lookup_delete.
    case_decide; [discriminate | apply Hf].
  - destruct (importRun_store zip db) as [l ->].
    apply importAll_keyed_flagged. split; assumption.
Qed.

Lemma history_keyed_flagged ops :
  keyed (history readAsDataURL ops) /\ flagged (history readAsDataURL ops).
Proof.
  unfold history. induction ops as [|op ops IH] using rev_ind.
  - split; [apply keyed_empty|]. intros k i H. cbn [foldl] in H.
    rewrite lookup_empty in H. discriminate.
  - rewrite foldl_app. cbn [foldl]. apply applyOp_keyed_flagged. exact IH.
Qed.

Lemma find_NoDup_elem (l : list MediaItem) x :
  NoDup (map id l) -> x ∈ l -> List.find (hasId (id x)) l = Some x.
Proof.
  induction l as [|a l IH]; intros Hnd Hin; [inversion Hin|].
  cbn in Hnd. apply NoDup_cons in Hnd as [Ha Hnd]. cbn [List.find]. unfold hasId at 1.
  apply elem_of_cons in Hin as [-> | Hin].
  - rewrite String.eqb_refl. reflexivity.
  - destruct (String.eqb (id a) (id x)) eqn:E.
    + apply String.eqb_eq in E. exfalso. apply Ha. rewrite E.
      apply list_elem_of_fmap. exists x. split; [reflexivity | exact Hin].
    + apply IH; assumption.
Qed.

Lemma loadLocalConfig_flagged local x :
  x ∈ loadLocalConfig local -> isCustom x = Some true.
Proof.
  unfold loadLocalConfig. destruct local as [body|]; [|intros H; inversion H].
  destruct (JSON_parse body) as [[| | |m|before]|e]; try (intros H; inversion H; fail).
  intros H. apply list_elem_of_fmap in H as (y & -> & _). reflexivity.
Qed.

(** X17 (the stores the admin screen can reach): after any sequence of
    saves, deletions and imports on a fresh store, every record is filed
    under its own id and marked as custom; and what [getAllItems] then gives
    the game lists no id twice, holds only items marked as custom, and shows
    under each id the record of the store when there is one, else the last
    bundled item with that id. *)
Theorem reachable_store_is_sound (ops : list StoreOp) (local : option Payload) :
  let db := history readAsDataURL ops in
  let all := getAllItems db local in
  (forall k item, db !! k = Some item -> id item = k /\ isCustom item = Some true) /\
  NoDup (map id all) /\
  Forall (fun item => isCustom item = Some true) all /\
  (forall k,
     List.find (hasId k) all =
     match db !! k with
     | Some stored => Some stored
     | None => List.find (hasId k) (rev (loadLocalConfig local))
     end).
Proof.
  cbn zeta. destruct (history_keyed_flagged ops) as [Hk Hf].
  set (db := history readAsDataURL ops) in *.
  split; [intros k item H; split; [exact (Hk _ _ H) | exact (Hf _ _ H)]|].
  split; [apply getAllItems_NoDup|]. split; [|intros k; apply getAllItems_find; exact Hk].
  apply Forall_forall. intros x Hx.
  pose proof (find_NoDup_elem _ x (getAllItems_NoDup db local) Hx) as Hfind.
  rewrite (getAllItems_find db local _ Hk) in Hfind.
  destruct (db !! id x) as [y|] eqn:E.
  - injection Hfind as ->. exact (Hf _ _ E).
  - apply find_some in Hfind as [Hin _]. apply in_rev, list_elem_of_In in Hin.
    exact (loadLocalConfig_flagged _ _ Hin).
Qed.

(** X18 (deleting an item): on a store whose records are filed under their
    ids, after [deleteItem] of an id [getAllItems] shows under that id the
    last bundled item with it, if any, and under every other id what it
    showed before; deleting an id the store does not hold changes
    nothing. *)
Theorem deleteItem_reveals_bundled (db : gmap string MediaItem) (local : option Payload)
    (k : string) (Hkeyed : keyed db) :
  let all := getAllItems (deleteItem k db) local in
  List.find (hasId k) all = List.find (hasId k) (rev (loadLocalConfig local)) /\
  (forall k', k' <> k ->
     List.find (hasId k') all = List.find (hasId k') (getAllItems db local)) /\
  (db !! k = None -> deleteItem k db = db).
Proof.
  cbn zeta. pose proof (deleteItem_keyed k db Hkeyed) as Hk'.
  split; [|split].
  - rewrite (getAllItems_find _ local k Hk'). unfold deleteItem.
    rewrite lookup_delete_eq. reflexivity.
  - intros k' Hne. rewrite (getAllItems_find _ local k' Hk'), (getAllItems_find _ local k' Hkeyed).
    unfold deleteItem. rewrite lookup_delete_ne by congruence. reflexivity.
  - intros H. apply delete_id. exact H.
Qed.

(** *** Importing a pack *)

(** What the loop of [importGamePack] leaves under the id [k]: the copy of
    the last item of the list stored under it, else what was there. *)
Definition lastStored (zip : gmap string ZipObject) (k : string) (l : list MediaItem)
    (before : option MediaItem) : option MediaItem :=
  foldl (fun acc item =>
           match imported readAsDataURL zip item with
           | Some item' => if String.eqb (id item') k then Some (setIsCustom item') else acc
           | None => acc
           end) before l.

Lemma importAll_lookup zip l db k :
  importAll zip l db !! k = lastStored zip k l (db !! k).
Proof.
  unfold importAll, lastStored. revert db.
  induction l as [|a l IH]; intros db; cbn [foldl]; [reflexivity|].
  rewrite IH. f_equal. destruct (imported readAsDataURL zip a) as [a'|]; [|reflexivity].
  unfold saveItem. rewrite lookup_insert. case_decide as E.
  - rewrite E, String.eqb_refl. reflexivity.
  - apply String.eqb_neq in E. rewrite E. reflexivity.
Qed.

Lemma lastStored_cases zip k l before :
  lastStored zip k l before =
  match lastStored zip k l None with Some v => Some v | None => before end.
Proof.
  unfold lastStored. revert before.
  induction l as [|a l IH] using rev_ind; intros before; [reflexivity|].
  rewrite !foldl_app. cbn [foldl].
  destruct (imported readAsDataURL zip a) as [a'|]; [|apply IH].
  destruct (String.eqb (id a') k); [reflexivity | apply IH].
Qed.

Lemma importAll_twice zip l db : importAll zip l (importAll zip l db) = importAll zip l db.
Proof.
  apply map_eq. intros k. rewrite !importAll_lookup.
  rewrite (lastStored_cases zip k l (lastStored zip k l (db !! k))).
  rewrite (lastStored_cases zip k l (db !! k)).
  destruct (lastStored zip k l None); reflexivity.
Qed.

Lemma importGamePack_run zip db m :
  manifestFile zip = Some (JsonText (JManifest m)) ->
  importGamePack readAsDataURL zip db =
  Ok (importAll zip (items m) db,
      length (List.filter (fun item => nonNull (imported readAsDataURL zip item)) (items m))).
Proof.
  intros H. unfold importGamePack, importRun. rewrite H. cbn [JSON_parse].
  destruct (foldl (importItem readAsDataURL zip) (db, 0%nat) (items m))
    as [db1 count1] eqn:E. cbn [bindR]. f_equal.
  pose proof (foldl_importItem_store zip (items m) db 0) as H1.
  pose proof (foldl_importItem_count readAsDataURL zip (items m) db 0) as H2.
  rewrite E in H1, H2. cbn in H1, H2. rewrite H1, H2. reflexivity.
Qed.

(** X19 (importing twice): importing a pack into the store its import gave
    stores the same records again: the store does not change and the count
    returned is the same. *)
Theorem import_twice_is_import_once (zip : gmap string ZipObject)
    (db db' : gmap string MediaItem) (count : nat)
    (Himp : importGamePack readAsDataURL zip db = Ok (db', count)) :
  importGamePack readAsDataURL zip db' = Ok (db', count).
Proof.
  destruct (importGamePack_Ok _ _ _ _ Himp) as (m & Hm & -> & ->).
  rewrite (importGamePack_run _ _ m Hm), importAll_twice. reflexivity.
Qed.

(** X20 (what an import touches): a successful import changes the store
    only under the ids of the items of the manifest, removes no record,
    stores under an id only an item with that id, marked as custom, and
    counts at most the items of the manifest. *)
Theorem import_touches_manifest_ids_only (zip : gmap string ZipObject)
    (db db' : gmap string MediaItem) (count : nat)
    (Himp : importGamePack readAsDataURL zip db = Ok (db', count)) :
  exists m,
    manifestFile zip = Some (JsonText (JManifest m)) /\
    (count <= length (items m))%nat /\
    (forall k, (forall item, item ∈ items m -> id item <> k) -> db' !! k = db !! k) /\
    (forall k, is_Some (db !! k) -> is_Some (db' !! k)) /\
    (forall k stored, db' !! k = Some stored -> db !! k <> Some stored ->
       id stored = k /\ isCustom stored = Some true /\
       exists item, (item ∈ items m) /\ id item = k).
Proof.
  destruct (importGamePack_Ok _ _ _ _ Himp) as (m & Hm & -> & ->).
  exists m. split; [exact Hm|]. split; [apply List.filter_length_le|].
  assert (Hlook : forall l k,
            lastStored zip k l (db !! k) = db !! k \/
            exists item item', (item ∈ l) /\ imported readAsDataURL zip item = Some item' /\
              id item' = k /\ lastStored zip k l (db !! k) = Some (setIsCustom item')).
  { intros l k. unfold lastStored.
    induction l as [|a l IH] using rev_ind; [left; reflexivity|].
    rewrite foldl_app. cbn [foldl].
    destruct (imported readAsDataURL zip a) as [a'|] eqn:Ea.
    - destruct (String.eqb (id a') k) eqn:Ek.
      + right. exists a, a'. split; [apply elem_of_app; right; left|].
        split; [exact Ea|]. split; [apply String.eqb_eq; exact Ek | reflexivity].
      + destruct IH as [IH | (x & x' & Hx & Hi & Hid & IH)]; [left; exact IH|].
        right. exists x, x'. split; [apply elem_of_app; left; exact Hx|]. auto.
    - destruct IH as [IH | (x & x' & Hx & Hi & Hid & IH)]; [left; exact IH|].
      right. exists x, x'. split; [apply elem_of_app; left; exact Hx|]. auto. }
  split; [|split].
  - intros k Hk. rewrite importAll_lookup.
    destruct (Hlook (items m) k) as [E | (x & x' & Hx & Hi & Hid & _)]; [exact E|].
    destruct (Hk x Hx). rewrite <- (imported_id _ _ _ _ Hi). exact Hid.
  - intros k [v Hv]. rewrite importAll_lookup.
    destruct (Hlook (items m) k) as [E | (x & x' & _ & _ & _ & E)]; rewrite E; eauto.
  - intros k stored. rewrite importAll_lookup.
    destruct (Hlook (items m) k) as [E | (x & x' & Hx & Hi & Hid & E)]; rewrite E;
      [congruence|].
    intros [= <-] _. split; [exact Hid|]. split; [reflexivity|].
    exists x. split; [exact Hx|]. rewrite <- (imported_id _ _ _ _ Hi). exact Hid.
Qed.

End Histories.

Lemma import_twice_is_import_once_witness :
  exists db', importGamePack dataUrlOf dataPack ∅ = Ok (db', 1%nat) /\
              importGamePack dataUrlOf dataPack db' = Ok (db', 1%nat).
Proof.
  destruct (importGamePack dataUrlOf dataPack ∅) as [[db' n]|e] eqn:H;
    [|vm_compute in H; discriminate].
  assert (n = 1%nat) as -> by (vm_compute in H; congruence).
  exists db'. split; [reflexivity|].
  exact (import_twice_is_import_once dataUrlOf dataPack ∅ db' 1 H).
Defined.

Lemma import_touches_manifest_ids_only_witness :
  exists db', importGamePack dataUrlOf dataPack store = Ok (db', 1%nat) /\
              db' !! "y" = None /\ is_Some (db' !! "x").
Proof.
  destruct (importGamePack dataUrlOf dataPack store) as [[db' n]|e] eqn:H;
    [|vm_compute in H; discriminate].
  assert (n = 1%nat) as -> by (vm_compute in H; congruence).
  destruct (import_touches_manifest_ids_only dataUrlOf dataPack store db' 1 H)
    as (m & Hm & _ & Hother & Hkeep & _).
  exists db'. split; [reflexivity|]. split.
  - rewrite Hother; [reflexivity|]. intros item Hin.
    vm_compute in Hm. injection Hm as <-. cbn in Hin.
    apply list_elem_of_In in Hin. destruct Hin as [<- | []]. discriminate.
  - apply Hkeep. eexists. reflexivity.
Defined.

Lemma deleteItem_reveals_bundled_witness :
  List.find (hasId "x") (getAllItems (deleteItem "x" store) bundled)
  = Some (setIsCustom (photo "x" false)) /\
  List.find (hasId "x") (getAllItems store bundled) = Some (setIsCustom (photo "x" true)).
Proof.
  assert (Hk : keyed store) by (apply saveItem_keyed, keyed_empty).
  split.
  - rewrite (proj1 (deleteItem_reveals_bundled store bundled "x" Hk)). reflexivity.
  - vm_compute. reflexivity.
Defined.


(** *** The archive of an export *)

Section Archives.

Variable fetch : string -> option Blob.
Variable now : string.

Lemma addMedia_dom l zip name obj :
  foldl (addMedia fetch) zip l !! name = Some obj ->
  zip !! name = Some obj \/
  exists item blob, (item ∈ l) /\ fetchMedia fetch item = Some blob /\
                    name = mediaPath item blob.
Proof.
  induction l as [|a l IH] using rev_ind; [left; assumption|].
  rewrite foldl_app. cbn [foldl]. unfold addMedia at 1.
  destruct (fetchMedia fetch a) as [blob|] eqn:E.
  - unfold zip_add. rewrite lookup_insert. case_decide as En.
    + intros _. right. exists a, blob. split; [apply elem_of_app; right; left|]. auto.
    + intros H. destruct (IH H) as [H' | (x & b & Hx & Hf & Hn)]; [left; exact H'|].
      right. exists x, b. split; [apply elem_of_app; left; exact Hx|]. auto.
  - intros H. destruct (IH H) as [H' | (x & b & Hx & Hf & Hn)]; [left; exact H'|].
    right. exists x, b. split; [apply elem_of_app; left; exact Hx|]. auto.
Qed.

(** X21 (the archive of an export): a successful export writes the same
    manifest under [data.json] and [game_data.json], of version 1, with the
    time of the export and one item per item of the collection, in order and
    with the same ids; every other file of the archive lies under [media/]
    and is the [url] of an item of the manifest; an item whose media was not
    fetched is in the manifest unchanged. *)
Theorem export_manifest_matches_archive (db : gmap string MediaItem)
    (local : option Payload) (pack : Download)
    (Hexp : exportGamePack fetch now db local = Ok pack) :
  exists m,
    zip_file "data.json" (content pack) = Some (JsonText (JManifest m)) /\
    zip_file "game_data.json" (content pack) = Some (JsonText (JManifest m)) /\
    version m = 1 /\ timestamp m = now /\
    map id (items m) = map id (getAllItems db local) /\
    (forall name data,
       zip_file name (content pack) = Some data ->
       name = "data.json" \/ name = "game_data.json" \/
       (startsWith name "media/" = true /\
        exists item, (item ∈ items m) /\ url item = name)) /\
    (forall item,
       item ∈ getAllItems db local -> fetchMedia fetch item = None -> item ∈ items m).
Proof.
  unfold exportGamePack in Hexp.
  destruct (length (getAllItems db local) =? 0)%nat; [discriminate|].
  rewrite foldl_exportItem in Hexp. cbn [app] in Hexp. injection Hexp as <-.
  cbn [content].
  set (all := getAllItems db local).
  set (m := {| version := 1; timestamp := now; items := map (exportCopy fetch) all |}).
  exists m. unfold zip_file, zip_add.
  split; [rewrite lookup_insert_eq; reflexivity|].
  split; [rewrite lookup_insert_ne by discriminate; rewrite lookup_insert_eq; reflexivity|].
  split; [reflexivity|]. split; [reflexivity|]. split; [|split].
  - cbn [items m]. rewrite map_map. apply map_ext. apply exportCopy_id.
  - intros name data.
    destruct (decide (name = "data.json")) as [-> | N1]; [auto|].
    destruct (decide (name = "game_data.json")) as [-> | N2]; [auto|].
    rewrite !lookup_insert_ne by congruence.
    destruct (foldl (addMedia fetch) (zip_folder "media" ∅) all !! name) as [obj|] eqn:E;
      [|discriminate].
    destruct (addMedia_dom _ _ _ _ E) as [H0 | (item & blob & Hin & Hf & ->)].
    + unfold zip_folder in H0. rewrite lookup_empty in H0.
      rewrite lookup_insert in H0. case_decide; [|rewrite lookup_empty in H0; discriminate].
      injection H0 as <-. discriminate.
    + intros _. right; right. split; [apply mediaPath_startsWith|].
      exists (exportCopy fetch item). split.
      * cbn [items m]. apply list_elem_of_In, in_map, list_elem_of_In. exact Hin.
      * unfold exportCopy. rewrite Hf. reflexivity.
  - intros item Hin Hf. cbn [items m].
    replace item with (exportCopy fetch item) at 1 by (unfold exportCopy; rewrite Hf; reflexivity).
    apply list_elem_of_In, in_map, list_elem_of_In. exact Hin.
Qed.

End Archives.

Lemma export_manifest_matches_archive_witness :
  exists pack m,
    exportGamePack fetchData today store bundled = Ok pack /\
    zip_file "data.json" (content pack) = Some (JsonText (JManifest m)) /\
    map url (items m) = ["media/x.png"; "media/y.png"].
Proof.
  destruct (exportGamePack fetchData today store bundled) as [pack|e] eqn:H;
    [|vm_compute in H; discriminate].
  destruct (export_manifest_matches_archive fetchData today store bundled pack H)
    as (m & Hm & _).
  exists pack, m. split; [reflexivity|]. split; [exact Hm|].
  vm_compute in H. injection H as <-. vm_compute in Hm. injection Hm as <-. reflexivity.
Defined.

End StoreFacts.

(** ** The application *)

Module AppFacts.
Import App Db DbFacts SessionFacts ReviewData ReviewDataFacts Store StoreFacts.

(** *** The queue of a game *)

Lemma Map_set_fresh {V} k (v : V) m : k ∉ m.*1 -> Map_set k v m = m ++ [(k, v)].
Proof.
  induction m as [|[k0 v0] m IH]; cbn; intros H; [reflexivity|].
  apply not_elem_of_cons in H as [Hne H].
  assert (String.eqb k k0 = false) as -> by (apply String.eqb_neq; exact Hne).
  rewrite (IH H). reflexivity.
Qed.

Lemma keys_of_items (l : list MediaItem) :
  (map (fun item => (id item, item)) l).*1 = map id l.
Proof. induction l as [|a l IH]; [reflexivity|]. cbn. rewrite IH. reflexivity. Qed.

Lemma values_of_items (l : list MediaItem) :
  Map_values (map (fun item => (id item, item)) l) = l.
Proof.
  unfold Map_values. induction l as [|a l IH]; [reflexivity|]. cbn. rewrite IH. reflexivity.
Qed.

Lemma itemMap_of_NoDup (l : list MediaItem) :
  NoDup (map id l) -> itemMap_of l [] = map (fun item => (id item, item)) l.
Proof.
  induction l as [|a l IH] using rev_ind; intros Hnd; [reflexivity|].
  rewrite map_app in Hnd. apply NoDup_app in Hnd as (Hl & Hdis & _).
  rewrite itemMap_of_snoc, (IH Hl), map_app. cbn [map]. apply Map_set_fresh.
  rewrite keys_of_items. intros Hin. apply (Hdis (id a) Hin). left.
Qed.

(** The merge of [loadGameData] changes nothing: [getAllItems] has merged
    by id already. *)
Lemma loadGameData_getAllItems db local : loadGameData db local = getAllItems db local.
Proof.
  unfold loadGameData, GAME_DATA. cbn [foldl].
  fold (itemMap_of (getAllItems db local) []).
  rewrite (itemMap_of_NoDup _ (getAllItems_NoDup db local)).
  apply values_of_items.
Qed.


Section AppRuns.

Variable shuffle : list MediaItem -> list MediaItem.
Variable local : option Payload.

(** The comparator of the shuffle orders nothing, but [sort] only
    rearranges. *)
Hypothesis shuffle_perm : forall l, shuffle l ≡ₚ l.

Lemma shuffle_nonempty l : l <> [] -> shuffle l <> [].
Proof.
  intros Hne E. pose proof (Permutation_length (shuffle_perm l)) as H.
  rewrite E in H. destruct l; [congruence | discriminate].
Qed.

Lemma shuffle_NoDup l : NoDup (map id l) -> NoDup (map id (shuffle l)).
Proof.
  intros H.
  assert (P : map id (shuffle l) ≡ₚ map id l) by apply Permutation_map, shuffle_perm.
  rewrite P. exact H.
Qed.

Lemma startGame_cases db duration config s :
  let s' := startGame shuffle db local duration config s in
  gameDuration s' = duration /\ debugConfig s' = config /\
  ((getAllItems db local = [] /\ gameState s' = ADMIN /\
    gameItems s' = gameItems s /\ userAnswers s' = userAnswers s) \/
   (getAllItems db local <> [] /\ gameState s' = PLAYING /\
    gameItems s' = shuffle (getAllItems db local) /\ userAnswers s' = [])).
Proof.
  cbn zeta. unfold startGame. rewrite loadGameData_getAllItems.
  destruct (getAllItems db local) as [|i l] eqn:E; cbn.
  - split; [reflexivity|]. split; [reflexivity|]. left. repeat split.
  - split; [reflexivity|]. split; [reflexivity|]. right. repeat split. discriminate.
Qed.

(** X22 (the queue of a game): [startGame] records the duration and the
    debug configuration; with nothing to play it goes to the admin screen
    and leaves the queue and the log alone; else it goes to the game with an
    empty log and a queue that is a rearrangement of what [getAllItems]
    gives: not empty, no id twice, and holding every record of a store that
    files its records under their ids. *)
Theorem startGame_queue (db : gmap string MediaItem) (duration : Z)
    (config : option GameDebugConfig) (s : State) (Hkeyed : keyed db) :
  let s' := startGame shuffle db local duration config s in
  gameDuration s' = duration /\ debugConfig s' = config /\
  (getAllItems db local = [] ->
   gameState s' = ADMIN /\ gameItems s' = gameItems s /\ userAnswers s' = userAnswers s) /\
  (getAllItems db local <> [] ->
   gameState s' = PLAYING /\ userAnswers s' = [] /\
   gameItems s' ≡ₚ getAllItems db local /\ gameItems s' <> [] /\
   NoDup (map id (gameItems s')) /\
   forall k item, db !! k = Some item -> item ∈ gameItems s').
Proof.
  cbn zeta. destruct (startGame_cases db duration config s)
    as (Hd & Hc & [(He & Hg & Hi & Ha) | (Hne & Hg & Hi & Ha)]).
  - split; [exact Hd|]. split; [exact Hc|]. split; [auto | congruence].
  - split; [exact Hd|]. split; [exact Hc|]. split; [congruence|]. intros _.
    split; [exact Hg|]. split; [exact Ha|]. rewrite Hi.
    split; [apply shuffle_perm|]. split; [apply shuffle_nonempty; exact Hne|].
    split; [apply shuffle_NoDup, getAllItems_NoDup|].
    intros k item Hk. rewrite (shuffle_perm _).
    pose proof (getAllItems_find db local k Hkeyed) as Hf. rewrite Hk in Hf.
    apply find_some in Hf as [Hin _]. apply list_elem_of_In. exact Hin.
Qed.

(** Every answer of a log names an item of the queue. *)
Definition covered (items : list MediaItem) (log : list UserAnswer) : Prop :=
  Forall (fun a => exists i, (i ∈ items) /\ id i = itemId a) log.

Lemma reach_covered p gs : reach p gs -> covered (GameScreen.items p) (GameScreen.answers gs).
Proof.
  intros H. eapply Forall_impl; [apply reach_log_items; exact H|].
  cbn. intros a (item & Hin & Hid & _). eauto.
Qed.

End AppRuns.


Lemma startGame_queue_witness :
  let s' := startGame (fun l => l) Samples.store Samples.bundled 60 None App.initialState in
  gameState s' = PLAYING /\ map id (gameItems s') = ["x"; "y"] /\
  NoDup (map id (gameItems s')).
Proof.
  cbn zeta.
  destruct (startGame_queue (fun l => l) Samples.bundled (fun l => Permutation_refl l)
              Samples.store 60 None App.initialState)
    as (_ & _ & _ & H).
  - apply saveItem_keyed, keyed_empty.
  - destruct H as (Hg & _ & _ & _ & Hnd & _); [vm_compute; discriminate|].
    split; [exact Hg|]. split; [reflexivity | exact Hnd].
Defined.

(** *** The review of a session *)

(** X24 (the review of a session): for the log of any state of a session
    on a pool with no id twice, the lists of the review screen are built
    without an exception; the score they show is the score of the game; there
    is one entry per answer; and each entry pairs an answer with the item of
    the pool it was given on, the answer being marked correct exactly when
    its verdict is the item's [isReal]. *)
Theorem review_of_session (p : GameScreen.Props) (rnd0 : GameScreen.Random)
    (evs : list (GameScreen.Event * GameScreen.Random)) (s : GameScreen.State)
    (Hrun : GameScreen.run p rnd0 evs = Ok s)
    (Hnd : NoDup (map id (GameScreen.items p))) :
  exists d,
    useMemo (GameScreen.answers s) (GameScreen.items p) = Ok d /\
    totalScore d = GameScreen.score s /\
    length (flatList d) = length (GameScreen.answers s) /\
    Forall (fun e => exists item,
              itemData e = Some item /\ (item ∈ GameScreen.items p) /\
              id item = itemId (answer e) /\
              isCorrect (answer e) = Bool.eqb (guessedReal (answer e)) (isReal item))
      (flatList d).
Proof.
  pose proof (run_reach _ _ _ _ Hrun) as Hr.
  destruct (useMemo_covered _ _ (reach_covered _ _ Hr)) as [d Hd].
  exists d. split; [exact Hd|].
  destruct (useMemo_Ok _ _ _ Hd) as [_ Hdd]. split; [|split].
  - rewrite Hdd. cbn. symmetry. destruct Hr as ([_ _ Hscore _ _] & _). exact Hscore.
  - apply (flatList_length _ _ _ Hd).
  - assert (Hflat : flatList d ≡ₚ merged (GameScreen.answers s) (GameScreen.items p)).
    { rewrite Hdd. cbn. apply pick_perm. }
    rewrite Hflat. unfold merged. apply Forall_forall. intros e He.
    apply list_elem_of_In, in_map_iff in He as (a & <- & Ha). cbn.
    pose proof (reach_log_items _ _ Hr) as Hitems. rewrite Forall_forall in Hitems.
    destruct (Hitems a) as (item & Hin & Hid & Hc); [apply list_elem_of_In; exact Ha|].
    exists item. split; [|auto].
    rewrite <- Hid. apply (find_NoDup_elem _ item Hnd Hin).
Qed.

Lemma review_of_session_witness :
  exists s d,
    GameScreen.run Samples.abc Samples.rnd0 Scenarios.twoRight = Ok s /\
    useMemo (GameScreen.answers s) (GameScreen.items Samples.abc) = Ok d /\
    totalScore d = 200 /\ length (flatList d) = 2%nat.
Proof.
  destruct (GameScreen.run Samples.abc Samples.rnd0 Scenarios.twoRight) as [s|e] eqn:Hrun;
    [|vm_compute in Hrun; discriminate].
  destruct (review_of_session Samples.abc Samples.rnd0 Scenarios.twoRight s Hrun)
    as (d & Hd & Hscore & Hlen & _).
  - apply (bool_decide_unpack _). vm_compute. exact I.
  - exists s, d. split; [reflexivity|]. split; [exact Hd|].
    vm_compute in Hrun. injection Hrun as <-. split; [exact Hscore | exact Hlen].
Defined.

End AppFacts.

(** ** The editor *)

Module AdminFacts.
Import Admin AdminSamples.

Fixpoint nocomma (s : string) : bool :=
  match s with
  | EmptyString => true
  | String c s' => negb (Ascii.eqb c (",")%char) && nocomma s'
  end.

(** A tip the editor gives back as it got it: not empty, free of commas and
    of white space at its ends; in ASCII, where [Db.trim] is the [trim] of
    JavaScript. *)
Definition cleanTip (t : string) : Prop :=
  t <> "" /\ nocomma t = true /\ Db.trim t = t /\ Db.isAscii t = true.

Lemma split_nocomma t : nocomma t = true -> split t = [t].
Proof.
  induction t as [|c t IH]; intros H; [reflexivity|].
  cbn in H. apply andb_true_iff in H as [Hc Ht]. cbn [split].
  destruct (Ascii.eqb c ","); [discriminate|]. rewrite (IH Ht). reflexivity.
Qed.

Lemma split_append t rest :
  nocomma t = true -> split (t +:+ "," +:+ rest) = t :: split rest.
Proof.
  induction t as [|c t IH]; intros H.
  - reflexivity.
  - cbn in H. apply andb_true_iff in H as [Hc Ht].
    rewrite DbFacts.append_cons. cbn [split].
    destruct (Ascii.eqb c ","); [discriminate|]. rewrite (IH Ht). reflexivity.
Qed.

Lemma split_join t l :
  Forall (fun t => nocomma t = true) (t :: l) ->
  split (join (t :: l)) = t :: map (String " ") l.
Proof.
  revert t. induction l as [|u l IH]; intros t H.
  - apply split_nocomma. apply (Forall_inv H).
  - apply Forall_cons in H as [Ht H].
    change (join (t :: u :: l)) with (t +:+ "," +:+ String " " (join (u :: l))).
    rewrite (split_append _ _ Ht). cbn [split].
    change (Ascii.eqb " " ",") with false. cbn iota.
    rewrite (IH u H). reflexivity.
Qed.

Lemma trim_space t : Db.trim (String " " t) = Db.trim t.
Proof. reflexivity. Qed.

Lemma length_pos t : t <> "" -> (0 <? String.length t)%nat = true.
Proof. destruct t; [congruence | reflexivity]. Qed.

Lemma parseTips_join (tips : list string) :
  Forall cleanTip tips -> parseTips (join tips) = tips.
Proof.
  intros H. unfold parseTips. destruct tips as [|t l]; [reflexivity|].
  rewrite split_join by (eapply Forall_impl; [exact H | intros x Hx; apply Hx]).
  assert (Hmap : map Db.trim (t :: map (String " ") l) = t :: l).
  { cbn [map]. apply Forall_cons in H as [(_ & _ & Ht & _) Hl]. rewrite Ht. f_equal.
    clear -Hl. induction Hl as [|u l (_ & _ & Hu & _) Hl IH]; [reflexivity|].
    cbn [map]. rewrite trim_space, Hu, IH. reflexivity. }
  rewrite Hmap. clear Hmap.
  induction H as [|u l' (Hu & _) Hl IH]; [reflexivity|].
  cbn [List.filter]. rewrite (length_pos u Hu), IH. reflexivity.
Qed.

(** X25 (the tips of the editor): the tips the editor shows for an item,
    joined by a comma and a space, are read back as they were when each is
    an ASCII string that is not empty and has no comma and no white space at
    its ends; and whatever the input, no tip read from it is empty. *)
Theorem tips_round_trip (tips : list string) (tipsInput : string) :
  (Forall cleanTip tips -> parseTips (join tips) = tips) /\
  Forall (fun t => t <> "") (parseTips tipsInput).
Proof.
  split; [apply parseTips_join|].
  unfold parseTips. apply Forall_forall. intros t Ht.
  apply list_elem_of_In, filter_In in Ht as [_ Ht]. destruct t; [discriminate | congruence].
Qed.

Lemma tips_round_trip_witness :
  parseTips (join ["Look at the hands"; "Check the shadows"]) =
  ["Look at the hands"; "Check the shadows"] /\
  parseTips " a ,, b," = ["a"; "b"].
Proof.
  split; [|reflexivity].
  apply (proj1 (tips_round_trip ["Look at the hands"; "Check the shadows"] "")).
  repeat constructor; discriminate.
Defined.

(** The item as the editor stores it back: an absent [shortTip] or
    [aiModel] has become the empty string, and the item is marked as
    custom. *)
Definition edited (item : MediaItem) : MediaItem :=
  {| id := id item; type := type item; url := url item; isReal := isReal item;
     title := title item; explanation := explanation item; tips := tips item;
     category := category item; shortTip := Some (orEmpty (shortTip item));
     aiModel := Some (orEmpty (aiModel item)); isCustom := Some true |}.

Lemma orElse_nonempty x fallback : x <> "" -> orElse x fallback = x.
Proof.
  intros H. unfold orElse. destruct (String.eqb_spec x ""); [congruence | reflexivity].
Qed.

(** X26 (editing and saving without a change): for an item whose id, url,
    title, explanation and category are not empty and whose tips are clean,
    [handleEdit] followed by [handleSave] puts the item back under its id as
    it was, but for an absent [shortTip] or [aiModel], now the empty string,
    and the custom mark; no other record changes, no new id is drawn, and the
    form is reset, the status message included. *)
Theorem edit_then_save_keeps_item (item : MediaItem) (uuid : string) (s : State)
    (db : gmap string MediaItem)
    (Hid : id item <> "") (Hurl : url item <> "") (Htitle : title item <> "")
    (Hexpl : explanation item <> "") (Hcat : category item <> "")
    (Htips : Forall cleanTip (tips item)) :
  let '(s', db') := handleSave uuid (handleEdit item s) db in
  db' = <[id item := edited item]> db /\
  (forall k, k <> id item -> db' !! k = db !! k) /\
  s' = handleCancelEdit (handleEdit item s) /\ statusMsg s' = None /\ editingId s' = None.
Proof.
  unfold handleSave, handleEdit.
  cbn [file existingUrl formData form_title form_explanation nonNull negb andb
       editingId form_category form_type form_isReal form_aiModel form_shortTip tipsInput].
  destruct (String.eqb_spec (url item) ""); [congruence|].
  destruct (String.eqb_spec (title item) ""); [congruence|].
  destruct (String.eqb_spec (explanation item) ""); [congruence|].
  cbn [orb]. rewrite !orElse_nonempty by assumption.
  rewrite (parseTips_join (tips item) Htips).
  split; [reflexivity|]. split; [|repeat split].
  intros k Hk. unfold Db.saveItem. cbn [id]. apply lookup_insert_ne. congruence.
Qed.


Lemma edit_then_save_keeps_item_witness :
  (handleSave "fresh" (handleEdit lesson blank) ∅).2 !! "k1" =
  Some {| id := "k1"; type := image; url := "data:image/png;base64,iVBORw0KGgo=";
          isReal := false; title := "Market at dusk";
          explanation := "The lettering on the signs is not writing.";
          tips := ["Look at the hands"; "Check the shadows"];
          category := "Street Photography"; shortTip := Some "";
          aiModel := Some "Midjourney v6"; isCustom := Some true |}.
Proof.
  pose proof (edit_then_save_keeps_item lesson "fresh" blank ∅) as H.
  destruct (handleSave "fresh" (handleEdit lesson blank) ∅) as [s' db'].
  destruct H as (-> & _); try discriminate.
  - repeat constructor; discriminate.
  - apply lookup_insert_eq.
Defined.

End AdminFacts.
